(** * flcli: command parser and chunked transfer engine

    A shallow embedding of [apps/flcli/main.c] (the FPGALink command-line
    client used by the railway signal controller): the hex helpers, the
    16-bit checksum, [doRead], [doWrite] and [parseLine].

    Conventions
    - a C string is the list of its characters; a [const char *] into it is
      the suffix that starts at the pointed-to character, the terminating NUL
      being the end of the list (or an explicit ["000"] character);
    - [uint8], [uint16], [uint32], [size_t] and [unsigned long] values are
      [Z] with the wrap-around written where the source narrows;
    - the FPGALink transport ([libfpgalink]) is an interface: the theorems
      hold for every implementation of it;
    - stdio is a small in-memory file system;
    - every transport call and every [fread]/[fwrite] is logged, so that the
      order of the calls can be stated. *)

From Stdlib Require Import ZArith List Ascii String Bool Lia Arith.
Import ListNotations.

Local Open Scope char_scope.
Local Open Scope Z_scope.

(* ===================================================================== *)
(** ** Characters and C strings *)
(* ===================================================================== *)

Definition cstring := list ascii.

Definition NUL : ascii := "000".

(** The double quote character *)
Definition DQUOTE : ascii := "034".

(** The C string written as a Rocq string. *)
Definition cstr (s : string) : cstring := list_ascii_of_string s.

(** [*p] *)
Definition deref (p : cstring) : ascii :=
  match p with
  | [] => NUL
  | c :: _ => c
  end.

(** [p + 1], for a [p] that does not point at the terminator *)
Definition next (p : cstring) : cstring :=
  match p with
  | [] => []
  | _ :: r => r
  end.

(** The value of a [char] in a comparison ([char] is signed on the targets
    of the source). *)
Definition char_val (c : ascii) : Z :=
  let n := Z.of_N (N_of_ascii c) in
  if n <? 128 then n else n - 256.

Definition char_between (lo hi c : ascii) : bool :=
  (char_val lo <=? char_val c) && (char_val c <=? char_val hi).

Definition char_eqb (a b : ascii) : bool := Ascii.eqb a b.

(* ===================================================================== *)
(** ** Fixed-width integers *)
(* ===================================================================== *)

Definition uint8 (x : Z) : Z := x mod 2 ^ 8.
Definition uint16 (x : Z) : Z := x mod 2 ^ 16.
Definition uint32 (x : Z) : Z := x mod 2 ^ 32.

(* ===================================================================== *)
(** ** The C library: [strtoul] in base 16 *)
(* ===================================================================== *)

Module Libc.

(** [unsigned long] is 64 bits wide (LP64, the non-WIN32 branch of the
    source). *)
Definition ULONG_MAX : Z := 2 ^ 64 - 1.

Definition ERANGE : Z := 34.
Definition EINVAL : Z := 22.

(** [isspace] in the C locale *)
Definition isspace (c : ascii) : bool :=
  char_eqb c " " || char_between "009" "013" c.

Definition digit16 (c : ascii) : option Z :=
  if char_between "0" "9" c then Some (char_val c - char_val "0")
  else if char_between "a" "f" c then Some (char_val c - char_val "a" + 10)
  else if char_between "A" "F" c then Some (char_val c - char_val "A" + 10)
  else None.

Definition is_digit16 (c : ascii) : bool :=
  match digit16 c with
  | Some _ => true
  | None => false
  end.

Fixpoint skip_space (s : cstring) : cstring :=
  match s with
  | c :: r => if isspace c then skip_space r else s
  | [] => []
  end.

(** The digit loop: accumulates while hex digits follow; once the value
    leaves the range of [unsigned long] the overflow flag stays set and
    the remaining digits are still consumed. *)
Fixpoint digits (acc : Z) (overflow : bool) (s : cstring)
  : Z * bool * cstring :=
  match s with
  | c :: r =>
      match digit16 c with
      | Some d =>
          let acc' := acc * 16 + d in
          if overflow || (ULONG_MAX <? acc')
          then digits acc true r
          else digits acc' false r
      | None => (acc, overflow, s)
      end
  | [] => (acc, overflow, [])
  end.

Record strtoul_result := {
  st_value : Z;        (* the returned [unsigned long] *)
  st_end : cstring;    (* [*endptr] *)
  st_errno : Z         (* [errno] after the call ([errno = 0] before it) *)
}.

(** [strtoul(nptr, &end, 16)] called with [errno == 0].

    White space is skipped, then an optional sign, then an optional
    [0x]/[0X] that is followed by a hex digit, then the digits.  With no
    digit at all the result is 0 and [end == nptr]; ISO C says nothing
    about [errno] in that case and POSIX allows [EINVAL]: [einval] tells
    which the C library does (glibc and the Microsoft runtime leave
    [errno] alone: [einval = false]). *)
Definition strtoul16 (einval : bool) (nptr : cstring) : strtoul_result :=
  let s := skip_space nptr in
  let negative := char_eqb (deref s) "-" in
  let s1 := if char_eqb (deref s) "-" || char_eqb (deref s) "+"
            then next s else s in
  let s2 := if char_eqb (deref s1) "0"
               && (char_eqb (deref (next s1)) "x"
                   || char_eqb (deref (next s1)) "X")
               && is_digit16 (deref (next (next s1)))
            then next (next s1) else s1 in
  if is_digit16 (deref s2) then
    let '(v, overflow, e) := digits 0 false s2 in
    if overflow
    then {| st_value := ULONG_MAX; st_end := e; st_errno := ERANGE |}
    else {| st_value := if negative then (- v) mod 2 ^ 64 else v;
            st_end := e; st_errno := 0 |}
  else
    {| st_value := 0; st_end := nptr;
       st_errno := if einval then EINVAL else 0 |}.

End Libc.

(* ===================================================================== *)
(** ** Hex helpers and the checksum (main.c, lines 51-91) *)
(* ===================================================================== *)

Definition isHexDigit (ch : ascii) : bool :=
  char_between "0" "9" ch || char_between "a" "f" ch || char_between "A" "F" ch.

(** One step of every checksum loop of the source:
    [cksum = (uint16)(cksum + *data++)]. *)
Definition cksum_step (cksum byte : Z) : Z := uint16 (cksum + byte).

(** The inline loops of [doRead] and [doWrite]: [csVal] updated with the
    bytes of one chunk, in order. *)
Definition cksum_chunk (csVal : Z) (chunk : list Z) : Z :=
  fold_left cksum_step chunk csVal.

(** [calcChecksum(data, length)], [data] being the [length] bytes. *)
Definition calcChecksum (data : list Z) : Z :=
  fold_left cksum_step data 0.

(** [getHexNibble]: [None] is the source's [true] (not a hex digit). *)
Definition getHexNibble (hexDigit : ascii) : option Z :=
  if char_between "0" "9" hexDigit
  then Some (uint8 (char_val hexDigit - char_val "0"))
  else if char_between "a" "f" hexDigit
  then Some (uint8 (char_val hexDigit - char_val "a" + 10))
  else if char_between "A" "F" hexDigit
  then Some (uint8 (char_val hexDigit - char_val "A" + 10))
  else None.

(** [getHexByte], reading [ptr[0]] and [ptr[1]]: [None] is the return
    value 1.  The second character is looked at only when the first is a
    hex digit ([&&] short-circuits). *)
Definition getHexByte (ptr : cstring) : option Z :=
  match getHexNibble (deref ptr) with
  | Some upperNibble =>
      match getHexNibble (deref (next ptr)) with
      | Some lowerNibble =>
          Some (uint8 (Z.lor (Z.shiftl upperNibble 4) lowerNibble))
      | None => None
      end
  | None => None
  end.

(** The return codes and their messages. *)
Inductive ReturnCode :=
| FLP_SUCCESS
| FLP_LIBERR
| FLP_BAD_HEX
| FLP_CHAN_RANGE
| FLP_CONDUIT_RANGE
| FLP_ILL_CHAR
| FLP_UNTERM_STRING
| FLP_NO_MEMORY
| FLP_EMPTY_STRING
| FLP_ODD_DIGITS
| FLP_CANNOT_LOAD
| FLP_CANNOT_SAVE
| FLP_ARGS.

Definition rc_value (rc : ReturnCode) : Z :=
  match rc with
  | FLP_SUCCESS => 0
  | FLP_LIBERR => 1
  | FLP_BAD_HEX => 2
  | FLP_CHAN_RANGE => 3
  | FLP_CONDUIT_RANGE => 4
  | FLP_ILL_CHAR => 5
  | FLP_UNTERM_STRING => 6
  | FLP_NO_MEMORY => 7
  | FLP_EMPTY_STRING => 8
  | FLP_ODD_DIGITS => 9
  | FLP_CANNOT_LOAD => 10
  | FLP_CANNOT_SAVE => 11
  | FLP_ARGS => 12
  end.

Definition errMessages (rc : ReturnCode) : option string :=
  match rc with
  | FLP_SUCCESS => None
  | FLP_LIBERR => None
  | FLP_BAD_HEX => Some "Unparseable hex number"%string
  | FLP_CHAN_RANGE => Some "Channel out of range"%string
  | FLP_CONDUIT_RANGE => Some "Conduit out of range"%string
  | FLP_ILL_CHAR => Some "Illegal character"%string
  | FLP_UNTERM_STRING => Some "Unterminated string"%string
  | FLP_NO_MEMORY => Some "No memory"%string
  | FLP_EMPTY_STRING => Some "Empty string"%string
  | FLP_ODD_DIGITS => Some "Odd number of digits"%string
  | FLP_CANNOT_LOAD => Some "Cannot load file"%string
  | FLP_CANNOT_SAVE => Some "Cannot save file"%string
  | FLP_ARGS => Some "Bad arguments"%string
  end.

(* ===================================================================== *)
(** ** The environment: FPGALink transport, stdio, call log *)
(* ===================================================================== *)

(** [FLStatus]: zero is success, everything else a failure. *)
Inductive FLStatus :=
| FL_SUCCESS
| FL_FAILURE.

Definition fl_failed (s : FLStatus) : bool :=
  match s with
  | FL_SUCCESS => false
  | FL_FAILURE => true
  end.

(** The calls of [libfpgalink] that [main.c] makes on a [struct FLContext *],
    as functions of the state [T] behind the handle.  A read hands back the
    bytes received. *)
Class Transport (T : Type) := {
  flSelectConduit : Z -> T -> FLStatus * T;
  flReadChannel : Z -> Z -> T -> FLStatus * list Z * T;
  flReadChannelAsyncSubmit : Z -> Z -> T -> FLStatus * T;
  flReadChannelAsyncAwait : T -> FLStatus * list Z * T;
  flWriteChannel : Z -> list Z -> T -> FLStatus * T;
  flWriteChannelAsync : Z -> list Z -> T -> FLStatus * T;
  flAwaitAsyncWrites : T -> FLStatus * T
}.

(** What the program does to its environment, in order. *)
Inductive Event :=
| EvSelectConduit (conduit : Z)
| EvReadChannel (chan count : Z)
| EvReadSubmit (chan count : Z)
| EvReadAwait
| EvWriteChannel (chan : Z) (data : list Z)
| EvWriteAsync (chan : Z) (data : list Z)
| EvAwaitWrites
| EvFread (asked got : Z)
| EvFwrite (asked put : Z).

Definition is_transport (e : Event) : bool :=
  match e with
  | EvFread _ _ | EvFwrite _ _ => false
  | _ => true
  end.

(** The transport calls of a log. *)
Definition calls (log : list Event) : list Event := filter is_transport log.

Definition is_select (e : Event) : bool :=
  match e with
  | EvSelectConduit _ => true
  | _ => false
  end.

(** The conduit selections of a log. *)
Definition conduit_calls (log : list Event) : list Event := filter is_select log.

(** Files: contents by name, the names that cannot be opened for writing,
    and the room left on the device (a write beyond it is short). *)
Record FileSys := {
  fs_files : list (string * list Z);
  fs_denied : list string;
  fs_room : Z
}.

(** An open [FILE *]: the unread rest of a file opened with "rb", or the
    name of a file opened with "wb". *)
Inductive FILE :=
| RStream (rest : list Z)
| WStream (name : string).

Definition zlength {A} (l : list A) : Z := Z.of_nat (List.length l).
Definition take {A} (n : Z) (l : list A) : list A := firstn (Z.to_nat n) l.
Definition drop {A} (n : Z) (l : list A) : list A := skipn (Z.to_nat n) l.

Fixpoint fs_lookup (name : string) (files : list (string * list Z))
  : option (list Z) :=
  match files with
  | [] => None
  | (n, d) :: r => if String.eqb n name then Some d else fs_lookup name r
  end.

Fixpoint fs_remove (name : string) (files : list (string * list Z))
  : list (string * list Z) :=
  match files with
  | [] => []
  | (n, d) :: r =>
      if String.eqb n name then fs_remove name r else (n, d) :: fs_remove name r
  end.

Definition fs_store (name : string) (d : list Z)
  (files : list (string * list Z)) : list (string * list Z) :=
  (name, d) :: fs_remove name files.

(** ** Control: [CHECK_STATUS], [FAIL] and [goto cleanup] *)

(** How a piece of the program ends on a state [S]: it falls through
    with a value, it jumps to [cleanup] with [retVal] set, or the model
    ran out of loop fuel. *)
Inductive result (S A : Type) :=
| Done (a : A) (s : S)
| Fail (retVal : ReturnCode) (s : S)
| Fuel.
Arguments Done {S A} a s.
Arguments Fail {S A} retVal s.
Arguments Fuel {S A}.

Definition M (S A : Type) := S -> result S A.

Definition ret {S A} (a : A) : M S A := fun s => Done a s.

Definition bind {S A B} (m : M S A) (k : A -> M S B) : M S B :=
  fun s =>
    match m s with
    | Done a s' => k a s'
    | Fail rc s' => Fail rc s'
    | Fuel => Fuel
    end.

(** [FAIL(code, cleanup)] *)
Definition FAIL {S A} (code : ReturnCode) : M S A := fun s => Fail code s.

(** [CHECK_STATUS(condition, code, cleanup)] *)
Definition CHECK_STATUS {S} (condition : bool) (code : ReturnCode) : M S unit :=
  if condition then FAIL code else ret tt.

Notation "x <- m ;; k" := (bind m (fun x => k))
  (at level 61, m at next level, right associativity).
Notation "m ;;; k" := (bind m (fun _ => k))
  (at level 61, right associativity).

Section Program.

Context {T : Type} {transport : Transport T}.

(** The C library in use: does [strtoul] set [errno] to [EINVAL] when it
    finds no digit (see [Libc.strtoul16]). *)
Variable einval : bool.

Record World := {
  handle : T;            (* the state behind [struct FLContext *handle] *)
  fs : FileSys;
  log : list Event
}.

Definition emit (e : Event) (w : World) : World :=
  {| handle := handle w; fs := fs w; log := log w ++ [e] |}.

Definition with_handle (h : T) (w : World) : World :=
  {| handle := h; fs := fs w; log := log w |}.

Definition with_fs (f : FileSys) (w : World) : World :=
  {| handle := handle w; fs := f; log := log w |}.

(** *** The transport calls, logged *)

Definition call_flSelectConduit (conduit : Z) (w : World) : FLStatus * World :=
  let '(st, h) := flSelectConduit conduit (handle w) in
  (st, emit (EvSelectConduit conduit) (with_handle h w)).

Definition call_flReadChannel (chan count : Z) (w : World)
  : FLStatus * list Z * World :=
  let '(st, d, h) := flReadChannel chan count (handle w) in
  (st, d, emit (EvReadChannel chan count) (with_handle h w)).

Definition call_flReadChannelAsyncSubmit (chan count : Z) (w : World)
  : FLStatus * World :=
  let '(st, h) := flReadChannelAsyncSubmit chan count (handle w) in
  (st, emit (EvReadSubmit chan count) (with_handle h w)).

Definition call_flReadChannelAsyncAwait (w : World)
  : FLStatus * list Z * World :=
  let '(st, d, h) := flReadChannelAsyncAwait (handle w) in
  (st, d, emit EvReadAwait (with_handle h w)).

Definition call_flWriteChannel (chan : Z) (data : list Z) (w : World)
  : FLStatus * World :=
  let '(st, h) := flWriteChannel chan data (handle w) in
  (st, emit (EvWriteChannel chan data) (with_handle h w)).

Definition call_flWriteChannelAsync (chan : Z) (data : list Z) (w : World)
  : FLStatus * World :=
  let '(st, h) := flWriteChannelAsync chan data (handle w) in
  (st, emit (EvWriteAsync chan data) (with_handle h w)).

Definition call_flAwaitAsyncWrites (w : World) : FLStatus * World :=
  let '(st, h) := flAwaitAsyncWrites (handle w) in
  (st, emit EvAwaitWrites (with_handle h w)).

(** *** stdio *)

(** [fopen(name, "rb")]: [None] is [NULL]. *)
Definition fopen_rb (name : string) (w : World) : option FILE :=
  match fs_lookup name (fs_files (fs w)) with
  | Some d => Some (RStream d)
  | None => None
  end.

(** [fopen(name, "wb")]: creates or truncates. *)
Definition fopen_wb (name : string) (w : World) : option FILE * World :=
  if existsb (String.eqb name) (fs_denied (fs w))
  then (None, w)
  else (Some (WStream name),
        with_fs {| fs_files := fs_store name [] (fs_files (fs w));
                   fs_denied := fs_denied (fs w);
                   fs_room := fs_room (fs w) |} w).

(** [fread(buffer, 1, n, f)]: the bytes read and the stream after them. *)
Definition fread (n : Z) (f : FILE) (w : World) : list Z * FILE * World :=
  match f with
  | RStream rest =>
      let got := take n rest in
      (got, RStream (drop n rest), emit (EvFread n (zlength got)) w)
  | WStream _ => ([], f, emit (EvFread n 0) w)
  end.

(** [fwrite(data, 1, length, f)]: the number of bytes written. *)
Definition fwrite (data : list Z) (f : FILE) (w : World) : Z * World :=
  match f with
  | WStream name =>
      let put := take (Z.min (zlength data) (Z.max 0 (fs_room (fs w)))) data in
      let old := match fs_lookup name (fs_files (fs w)) with
                 | Some d => d
                 | None => []
                 end in
      (zlength put,
       emit (EvFwrite (zlength data) (zlength put))
         (with_fs {| fs_files := fs_store name (old ++ put) (fs_files (fs w));
                     fs_denied := fs_denied (fs w);
                     fs_room := fs_room (fs w) - zlength put |} w))
  | RStream _ => (0, emit (EvFwrite (zlength data) 0) w)
  end.

(** An environment call as a step of the program. *)
Definition io {A} (f : World -> A * World) : M World A :=
  fun w => let '(a, w') := f w in Done a w'.


(* =================================================================== *)
(** *** [doRead] (main.c, lines 125-187) *)
(* =================================================================== *)

Definition READ_MAX : Z := 65536.

(** [length >= READ_MAX ? READ_MAX : length] *)
Definition read_chunk (length : Z) : Z :=
  if READ_MAX <=? length then READ_MAX else length.

(** Await a chunk, write it to the file, add it to the checksum: the
    three steps that follow each await, in the loop and after it. *)
Definition await_chunk (destFile : FILE) (csVal : Z) : M World Z :=
  r <- io call_flReadChannelAsyncAwait ;;
  let '(fStatus, recvData) := r in
  CHECK_STATUS (fl_failed fStatus) FLP_LIBERR ;;;
  let actualLength := zlength recvData in
  bytesWritten <- io (fwrite recvData destFile) ;;
  CHECK_STATUS (negb (uint32 bytesWritten =? actualLength)) FLP_CANNOT_SAVE ;;;
  ret (cksum_chunk csVal recvData).

(** [while ( length ) { submit chunk N; await, write and sum chunk N-1 }] *)
Fixpoint doRead_loop (fuel : nat) (chan length : Z) (destFile : FILE)
  (csVal : Z) : M World Z :=
  match fuel with
  | O => fun _ => Fuel
  | S fuel' =>
      if length =? 0 then ret csVal
      else
        let chunkSize := read_chunk length in
        fStatus <- io (call_flReadChannelAsyncSubmit chan chunkSize) ;;
        CHECK_STATUS (fl_failed fStatus) FLP_LIBERR ;;;
        let length := uint32 (length - chunkSize) in
        csVal <- await_chunk destFile csVal ;;
        doRead_loop fuel' chan length destFile csVal
  end.

(** Loop heads that a remaining [length] can need. *)
Definition read_fuel (length : Z) : nat := S (Z.to_nat (length / READ_MAX + 1)).

(** [doRead(handle, chan, length, destFile, &checksum, error)]: the value
    is what the call stores in [*checksum]; on a failure nothing is
    stored. *)
Definition doRead (chan length : Z) (destFile : FILE) : M World Z :=
  let csVal := 0 in
  let chunkSize := read_chunk length in
  fStatus <- io (call_flReadChannelAsyncSubmit chan chunkSize) ;;
  CHECK_STATUS (fl_failed fStatus) FLP_LIBERR ;;;
  let length := uint32 (length - chunkSize) in
  csVal <- doRead_loop (read_fuel length) chan length destFile csVal ;;
  await_chunk destFile csVal.

(* =================================================================== *)
(** *** [doWrite] (main.c, lines 189-232) *)
(* =================================================================== *)

Definition WRITE_MAX : Z := 65536 - 5.

(** [do { fread; if ( bytesRead ) { count, submit, sum } }
    while ( bytesRead == WRITE_MAX )]: the value is the stream, [lenVal]
    and [csVal] at the exit. *)
Fixpoint doWrite_loop (fuel : nat) (chan : Z) (srcFile : FILE)
  (lenVal csVal : Z) : M World (FILE * Z * Z) :=
  match fuel with
  | O => fun _ => Fuel
  | S fuel' =>
      r <- io (fread WRITE_MAX srcFile) ;;
      let '(buffer, srcFile) := r in
      let bytesRead := zlength buffer in
      acc <- (if bytesRead =? 0 then ret (lenVal, csVal)
              else
                let lenVal := lenVal + bytesRead in
                fStatus <- io (call_flWriteChannelAsync chan buffer) ;;
                CHECK_STATUS (fl_failed fStatus) FLP_LIBERR ;;;
                ret (lenVal, cksum_chunk csVal buffer)) ;;
      let '(lenVal, csVal) := acc in
      if bytesRead =? WRITE_MAX
      then doWrite_loop fuel' chan srcFile lenVal csVal
      else ret (srcFile, lenVal, csVal)
  end.

Definition stream_size (f : FILE) : Z :=
  match f with
  | RStream rest => zlength rest
  | WStream _ => 0
  end.

(** Iterations that a source of the given size can need. *)
Definition write_fuel (size : Z) : nat := S (Z.to_nat (size / WRITE_MAX)).

(** [doWrite(handle, chan, srcFile, &length, &checksum, error)]: the value
    is the stream after the call and what is stored in [*length] and
    [*checksum]. *)
Definition doWrite (chan : Z) (srcFile : FILE) : M World (FILE * Z * Z) :=
  r <- doWrite_loop (write_fuel (stream_size srcFile)) chan srcFile 0 0 ;;
  let '(srcFile, lenVal, csVal) := r in
  fStatus <- io call_flAwaitAsyncWrites ;;
  CHECK_STATUS (fl_failed fStatus) FLP_LIBERR ;;;
  ret (srcFile, lenVal, csVal).

(* =================================================================== *)
(** *** [parseLine] (main.c, lines 234-556) *)
(* =================================================================== *)

(** Each action is first read off the line, which moves the file-level
    cursor [ptr] and nothing else, and then carried out, which leaves
    [ptr] alone.  The reading steps are written on the cursor. *)
Definition Parser (A : Type) := M cstring A.

Definition get_ptr : Parser cstring := fun p => Done p p.

Definition set_ptr (p : cstring) : Parser unit := fun _ => Done tt p.

(** [p - q] for [p] at or after [q] in the same string *)
Definition ptrdiff (p q : cstring) : Z := zlength q - zlength p.

(** [while ( *ptr == ';' ) ptr++;] *)
Fixpoint skip_semis (p : cstring) : cstring :=
  match p with
  | c :: r => if char_eqb c ";" then skip_semis r else p
  | [] => []
  end.

(** [while ( *p != quoteChar && *p != '\0' ) p++;] *)
Fixpoint scan_quote (quoteChar : ascii) (p : cstring) : cstring :=
  match p with
  | c :: r =>
      if negb (char_eqb c quoteChar) && negb (char_eqb c NUL)
      then scan_quote quoteChar r
      else p
  | [] => []
  end.

(** [while ( isHexDigit( *p ) ) p++;] *)
Fixpoint scan_hex (p : cstring) : cstring :=
  match p with
  | c :: r => if isHexDigit c then scan_hex r else p
  | [] => []
  end.

(** The quoted file name that starts at [ptr] (just after the opening
    quote): [ptr] ends after the closing quote. *)
Definition quoted_name (quoteChar : ascii) : Parser string :=
  ptr0 <- get_ptr ;;
  let p := scan_quote quoteChar ptr0 in
  CHECK_STATUS (char_eqb (deref p) NUL) FLP_UNTERM_STRING ;;;
  (* fileName = malloc(p - ptr + 1): the allocation succeeds *)
  CHECK_STATUS (ptrdiff p ptr0 =? 0) FLP_EMPTY_STRING ;;;
  let fileName := string_of_list_ascii (take (ptrdiff p ptr0) ptr0) in
  set_ptr (next p) ;;;
  ret fileName.

(** [*ptr != '\0' && *ptr != ';' && *ptr != ' '] *)
Definition not_end_semi_space (c : ascii) : bool :=
  negb (char_eqb c NUL) && negb (char_eqb c ";") && negb (char_eqb c " ").

(** [case 'r'], up to [if ( fileName )]: the channel, the length (1 if
    absent) and the file name (if any). *)
Definition read_fields : Parser (Z * Z * option string) :=
  p <- get_ptr ;; set_ptr (next p) ;;;
  (* Get the channel to be read *)
  p <- get_ptr ;;
  let r := Libc.strtoul16 einval p in
  let chan := uint32 (Libc.st_value r) in
  CHECK_STATUS (negb (Libc.st_errno r =? 0)) FLP_BAD_HEX ;;;
  CHECK_STATUS (127 <? chan) FLP_CHAN_RANGE ;;;
  set_ptr (Libc.st_end r) ;;;
  p <- get_ptr ;;
  CHECK_STATUS (not_end_semi_space (deref p)) FLP_ILL_CHAR ;;;
  if char_eqb (deref p) " " then
    set_ptr (next p) ;;;
    (* Get the read count *)
    p <- get_ptr ;;
    let r := Libc.strtoul16 einval p in
    let length := uint32 (Libc.st_value r) in
    CHECK_STATUS (negb (Libc.st_errno r =? 0)) FLP_BAD_HEX ;;;
    set_ptr (Libc.st_end r) ;;;
    p <- get_ptr ;;
    CHECK_STATUS (not_end_semi_space (deref p)) FLP_ILL_CHAR ;;;
    if char_eqb (deref p) " " then
      set_ptr (next p) ;;;
      p <- get_ptr ;;
      let quoteChar := deref p in
      CHECK_STATUS (negb (char_eqb quoteChar DQUOTE)
                    && negb (char_eqb quoteChar "'")) FLP_ILL_CHAR ;;;
      set_ptr (next p) ;;;
      fileName <- quoted_name quoteChar ;;
      ret (chan, length, Some fileName)
    else ret (chan, length, None)
  else ret (chan, 1, None).

(** [for ( i = 0; i < length; i++ ) { getHexByte(dataPtr++); ptr += 2; }]:
    the bytes stored and the final [ptr].  The result of [getHexByte] is
    not looked at by the source; where it fails the byte keeps what
    [malloc] gave, written 0 here. *)
Fixpoint hex_bytes (length : nat) (p : cstring) : list Z * cstring :=
  match length with
  | O => ([], p)
  | S n =>
      let b := match getHexByte p with
               | Some b => b
               | None => 0
               end in
      let '(bs, p') := hex_bytes n (next (next p)) in
      (b :: bs, p')
  end.

(** Where the bytes of a write come from. *)
Inductive Source :=
| FromFile (fileName : string)
| Inline (data : list Z).

(** [case 'w'], up to the opening of the file or the call of
    [flWriteChannel]: the channel and the source. *)
Definition write_fields : Parser (Z * Source) :=
  p <- get_ptr ;; set_ptr (next p) ;;;
  (* Get the channel to be written *)
  p <- get_ptr ;;
  let r := Libc.strtoul16 einval p in
  let chan := Libc.st_value r in
  CHECK_STATUS (negb (Libc.st_errno r =? 0)) FLP_BAD_HEX ;;;
  CHECK_STATUS (127 <? chan) FLP_CHAN_RANGE ;;;
  set_ptr (Libc.st_end r) ;;;
  (* There must be a space now *)
  p <- get_ptr ;;
  CHECK_STATUS (negb (char_eqb (deref p) " ")) FLP_ILL_CHAR ;;;
  (* Now either a quote or a hex digit: ch = *++ptr *)
  set_ptr (next p) ;;;
  ptr0 <- get_ptr ;;
  let ch := deref ptr0 in
  if char_eqb ch DQUOTE || char_eqb ch "'" then
    set_ptr (next ptr0) ;;;
    fileName <- quoted_name ch ;;
    ret (chan, FromFile fileName)
  else if isHexDigit ch then
    let p := scan_hex (next ptr0) in
    CHECK_STATUS (negb (Z.land (ptrdiff p ptr0) 1 =? 0)) FLP_ODD_DIGITS ;;;
    let length := ptrdiff p ptr0 / 2 in
    let '(data, p') := hex_bytes (Z.to_nat length) ptr0 in
    set_ptr p' ;;;
    ret (chan, Inline data)
  else FAIL FLP_ILL_CHAR.

(** [case '+'], up to the call of [flSelectConduit]: the conduit. *)
Definition conduit_field : Parser Z :=
  p <- get_ptr ;; set_ptr (next p) ;;;
  (* Get the conduit *)
  p <- get_ptr ;;
  let r := Libc.strtoul16 einval p in
  let conduit := uint32 (Libc.st_value r) in
  CHECK_STATUS (negb (Libc.st_errno r =? 0)) FLP_BAD_HEX ;;;
  CHECK_STATUS (255 <? conduit) FLP_CONDUIT_RANGE ;;;
  set_ptr (Libc.st_end r) ;;;
  (* Only two valid chars at this point *)
  p <- get_ptr ;;
  CHECK_STATUS (negb (char_eqb (deref p) NUL) && negb (char_eqb (deref p) ";"))
    FLP_ILL_CHAR ;;;
  ret conduit.

(** The variables of [parseLine] that outlive one action: the cursor
    [ptr], the buffer [dataFromFPGA], and the environment.  The buffers
    [fileName] and [data] and the stream [file] are local to one action
    here; that [cleanup] frees and closes them is not observable in this
    model. *)
Record PState := {
  ptr : cstring;
  dataFromFPGA : list Z;
  world : World
}.

(** A reading step as a step of [parseLine]. *)
Definition parsing {A} (m : Parser A) : M PState A :=
  fun s =>
    match m (ptr s) with
    | Done a p => Done a {| ptr := p; dataFromFPGA := dataFromFPGA s; world := world s |}
    | Fail rc p => Fail rc {| ptr := p; dataFromFPGA := dataFromFPGA s; world := world s |}
    | Fuel => Fuel
    end.

(** A step on the environment as a step of [parseLine]. *)
Definition lift {A} (m : M World A) : M PState A :=
  fun s =>
    match m (world s) with
    | Done a w => Done a {| ptr := ptr s; dataFromFPGA := dataFromFPGA s; world := w |}
    | Fail rc w => Fail rc {| ptr := ptr s; dataFromFPGA := dataFromFPGA s; world := w |}
    | Fuel => Fuel
    end.

(** What [flReadChannel] leaves in the [length] bytes that
    [bufAppendConst] added as 0x00. *)
Definition filled (length : Z) (received : list Z) : list Z :=
  take length (received ++ repeat 0 (Z.to_nat length)).

Definition append_data (d : list Z) : M PState unit :=
  fun s => Done tt {| ptr := ptr s; dataFromFPGA := dataFromFPGA s ++ d;
                      world := world s |}.

(** [case 'r'], the file branch: [if ( fileName ) { ... }] *)
Definition read_to_file (chan length : Z) (fileName : string) : M PState unit :=
  file <- lift (io (fopen_wb fileName)) ;;
  match file with
  | None => FAIL FLP_CANNOT_SAVE
  | Some file =>
      (* status = doRead(...); CHECK_STATUS(status, status, cleanup) *)
      _ <- lift (doRead (uint8 chan) length file) ;;
      ret tt
  end.

(** [case 'r'], the memory branch: [else { ... }] *)
Definition read_to_memory (chan length : Z) : M PState unit :=
  (* bufAppendConst(&dataFromFPGA, 0x00, length, error) succeeds *)
  r <- lift (io (call_flReadChannel (uint8 chan) length)) ;;
  let '(fStatus, received) := r in
  append_data (filled length received) ;;;
  CHECK_STATUS (fl_failed fStatus) FLP_LIBERR.

(** [case 'r'] *)
Definition action_read : M PState unit :=
  f <- parsing read_fields ;;
  let '(chan, length, fileName) := f in
  match fileName with
  | Some fileName => read_to_file chan length fileName
  | None => read_to_memory chan length
  end.

(** [case 'w'], the file branch *)
Definition write_from_file (chan : Z) (fileName : string) : M PState unit :=
  file <- lift (fun w => Done (fopen_rb fileName w) w) ;;
  match file with
  | None => FAIL FLP_CANNOT_LOAD
  | Some file =>
      (* status = doWrite(...); CHECK_STATUS(status, status, cleanup) *)
      _ <- lift (doWrite (uint8 chan) file) ;;
      ret tt
  end.

(** [case 'w'], the inline branch *)
Definition write_inline (chan : Z) (data : list Z) : M PState unit :=
  fStatus <- lift (io (call_flWriteChannel (uint8 chan) data)) ;;
  CHECK_STATUS (fl_failed fStatus) FLP_LIBERR.

(** [case 'w'] *)
Definition action_write : M PState unit :=
  f <- parsing write_fields ;;
  let '(chan, source) := f in
  match source with
  | FromFile fileName => write_from_file chan fileName
  | Inline data => write_inline chan data
  end.

(** [case '+'] *)
Definition action_conduit : M PState unit :=
  conduit <- parsing conduit_field ;;
  fStatus <- lift (io (call_flSelectConduit (uint8 conduit))) ;;
  CHECK_STATUS (fl_failed fStatus) FLP_LIBERR.

(** [switch ( *ptr )] *)
Definition dispatch : M PState unit :=
  fun s =>
    let c := deref (ptr s) in
    if char_eqb c "r" then action_read s
    else if char_eqb c "w" then action_write s
    else if char_eqb c "+" then action_conduit s
    else FAIL FLP_ILL_CHAR s.

(** [do { skip ';'; switch } while ( *ptr == ';' );] *)
Fixpoint actions (fuel : nat) : M PState unit :=
  match fuel with
  | O => fun _ => Fuel
  | S fuel' =>
      parsing (p <- get_ptr ;; set_ptr (skip_semis p)) ;;;
      dispatch ;;;
      fun s => if char_eqb (deref (ptr s)) ";" then actions fuel' s else ret tt s
  end.

(** What a call of [parseLine] leaves behind: the value returned, the
    message and column printed on [stderr] (when [retVal > FLP_LIBERR]),
    the bytes dumped on [stdout] (on success), and the environment. *)
Record Outcome := {
  retVal : ReturnCode;
  diagnostic : option (option string * Z);
  dumped : option (list Z);
  final : World
}.

(** The end of [parseLine]: the last check, the dump, [cleanup]. *)
Definition finish (line : cstring) (r : result PState unit) : option Outcome :=
  match r with
  | Done _ s =>
      if negb (char_eqb (deref (ptr s)) NUL)
      then Some {| retVal := FLP_ILL_CHAR;
                   diagnostic := Some (errMessages FLP_ILL_CHAR, ptrdiff (ptr s) line);
                   dumped := None; final := world s |}
      else Some {| retVal := FLP_SUCCESS; diagnostic := None;
                   dumped := Some (dataFromFPGA s); final := world s |}
  | Fail rc s =>
      Some {| retVal := rc;
              diagnostic := if 1 <? rc_value rc
                            then Some (errMessages rc, ptrdiff (ptr s) line)
                            else None;
              dumped := None; final := world s |}
  | Fuel => None
  end.

(** [parseLine(handle, line, error)]; [None] only if the model's loop fuel
    ran out.  [bufInitialise] is taken to succeed. *)
Definition parseLine (line : cstring) (w : World) : option Outcome :=
  finish line
    (actions (S (List.length line))
       {| ptr := line; dataFromFPGA := []; world := w |}).

End Program.

Arguments World T : clear implicits.
Arguments PState T : clear implicits.
Arguments Outcome T : clear implicits.

(* ===================================================================== *)
(** ** The cipher of the rail link (main.c, lines 37-43 and 586-737) *)
(* ===================================================================== *)

(** An [int] has 32 bits, in two's complement.  C leaves open what a
    signed overflow gives; here it wraps.  The one overflow that the
    program runs into is [pow1(2, 32)] in [neg], whose value is cut to 32
    bits on the spot. *)
Definition int32 (x : Z) : Z := (x + 2 ^ 31) mod 2 ^ 32 - 2 ^ 31.

(** [for ( i = 0; i < b; i++ ) c = c * a;] *)
Fixpoint pow1_loop (count : nat) (a c : Z) : Z :=
  match count with
  | O => c
  | S count' => pow1_loop count' a (int32 (c * a))
  end.

(** [pow1(a, b)] *)
Definition pow1 (a b : Z) : Z := pow1_loop (Z.to_nat b) a 1.

(** The one bits among the low [width] bits of [x]. *)
Fixpoint ones_in (width : nat) (x : Z) : Z :=
  match width with
  | O => 0
  | S width' => Z.b2z (Z.odd x) + ones_in width' (Z.div2 x)
  end.

(** [popcount(x)], that is [__builtin_popcount] on 32 bits. *)
Definition popcount (x : Z) : Z := ones_in 32 x.

Definition count1 (a : Z) : Z := popcount a.

(** [neg(a)]: [b = pow1(2, 32) - 1; b -= a;] *)
Definition neg (a : Z) : Z :=
  let b := uint32 (int32 (pow1 2 32 - 1)) in
  uint32 (b - a).

(** [for ( i = 0; i < 8; i++ ) { b = b << 4; b |= a; }] *)
Fixpoint concat_loop (count : nat) (a b : Z) : Z :=
  match count with
  | O => b
  | S count' => concat_loop count' a (Z.lor (uint32 (Z.shiftl b 4)) a)
  end.

(** [concat(a)] *)
Definition concat (a : Z) : Z := concat_loop 8 a (Z.lor 0 a).

(** [bitXor(x, y)] *)
Definition bitXor (x y : Z) : Z :=
  let a := Z.land x y in
  let b := Z.land (neg x) (neg y) in
  let c := Z.land (neg a) (neg b) in
  c.

(** [for ( i = 0; i < n + 1; i++ ) { b = a % 2U; a = a / 2U; }] *)
Fixpoint findki_loop (count : nat) (a b : Z) : Z :=
  match count with
  | O => b
  | S count' => findki_loop count' (a / 2) (uint8 (a mod 2))
  end.

(** [findki(a, n)] *)
Definition findki (a n : Z) : Z := findki_loop (Z.to_nat (n + 1)) a 0.

(** [for ( i = n + 4; i < 32; i = i + 4 ) { k = findki(key, i);
    t = bitXor(t, k); }]; the loop ends within [32 - n] rounds. *)
Fixpoint findti_loop (fuel : nat) (key i t : Z) : Z :=
  match fuel with
  | O => t
  | S fuel' =>
      if i <? 32
      then findti_loop fuel' key (i + 4) (uint8 (bitXor t (findki key i)))
      else t
  end.

(** [findti(key, n)] *)
Definition findti (key n : Z) : Z :=
  findti_loop (Z.to_nat (32 - n)) key (n + 4) (findki key (uint32 n mod 4)).

(** [for ( i = 0; i < 4; i++ ) { k = findti(key, i); t += k * pow1(2, i); }] *)
Fixpoint findt_loop (count : nat) (key i t : Z) : Z :=
  match count with
  | O => t
  | S count' =>
      let k := findti key i in
      findt_loop count' key (i + 1) (uint32 (t + uint32 (k * uint32 (pow1 2 i))))
  end.

(** [findt(key)] *)
Definition findt (key : Z) : Z := uint8 (findt_loop 4 key 0 0).

(** [for ( i = 0; i < n; i++ ) { cipher = bitXor(cipher, concat(t));
    t = (t + 1) % 16U; }] *)
Fixpoint encrypt_loop (count : nat) (t cipher : Z) : Z :=
  match count with
  | O => cipher
  | S count' =>
      let inter := concat t in
      encrypt_loop count' (uint8 ((t + 1) mod 16)) (bitXor cipher inter)
  end.

(** [encrypt(inp, key)] *)
Definition encrypt (inp key : Z) : Z :=
  let t := findt key in
  let n := uint8 (count1 key) in
  encrypt_loop (Z.to_nat n) t inp.

(** [for ( i = 0; i < 32 - n; i++ ) { cipher = bitXor(cipher, concat(t));
    t = (t + 15) % 16U; }] *)
Fixpoint decrypt_loop (count : nat) (t cipher : Z) : Z :=
  match count with
  | O => cipher
  | S count' =>
      let inter := concat t in
      decrypt_loop count' (uint8 ((t + 15) mod 16)) (bitXor cipher inter)
  end.

(** [decrypt(inp, key)] *)
Definition decrypt (inp key : Z) : Z :=
  let t := findt key in
  let n := uint8 (count1 key) in
  let t := uint8 ((t + 15) mod 16) in
  decrypt_loop (Z.to_nat (32 - n)) t inp.

(* ===================================================================== *)
(** ** The rail link (main.c, lines 739-817) *)
(* ===================================================================== *)

Section RailLink.

Context {T : Type} {transport : Transport T}.

(** The key of both directions. *)
Definition rail_key : Z := 0x9999999F.

Definition READ_MAX_1 : Z := 1.

(** [received_data = received_data << actualLength * 8;
    received_data |= *received_databit;].  The call passes [&actualLength]
    for the length asked and for the length got alike; [actualLength] is
    the number of bytes that the await handed over.  [None] is where C
    leaves the result open: a shift by 32 bits or more, or no byte behind
    [received_databit]. *)
Definition shift_in (received_data : option Z) (recvData : list Z) : option Z :=
  match received_data, recvData with
  | Some d, byte :: _ =>
      let count := uint32 (zlength recvData * 8) in
      if count <? 32
      then Some (Z.lor (uint32 (Z.shiftl d count)) byte)
      else None
  | _, _ => None
  end.

(** An await and the two statements that follow it, in the loop and after
    it. *)
Definition await_byte (received_data : option Z) : M (World T) (option Z) :=
  r <- io call_flReadChannelAsyncAwait ;;
  let '(fStatus, recvData) := r in
  CHECK_STATUS (fl_failed fStatus) FLP_LIBERR ;;;
  ret (shift_in received_data recvData).

(** [while ( length ) { submit; await; shift in }] *)
Fixpoint receive_loop (fuel : nat) (chan0 length : Z) (received_data : option Z)
  : M (World T) (option Z) :=
  match fuel with
  | O => fun _ => Fuel
  | S fuel' =>
      if length =? 0 then ret received_data
      else
        let chunkSize := if READ_MAX_1 <=? length then READ_MAX_1 else length in
        fStatus <- io (call_flReadChannelAsyncSubmit chan0 chunkSize) ;;
        CHECK_STATUS (fl_failed fStatus) FLP_LIBERR ;;;
        let length := uint32 (length - chunkSize) in
        received_data <- await_byte received_data ;;
        receive_loop fuel' chan0 length received_data
  end.

(** [receive_from_fpga(handle, chan, &decrypted_data, error)]: the value is
    what the call stores in [*decrypted_data]; on a failure nothing is
    stored. *)
Definition receive_from_fpga (chan : Z) : M (World T) (option Z) :=
  let key := rail_key in
  let length := 4 in
  let received_data := Some 0 in
  let chan0 := uint8 (2 * chan) in
  let chunkSize := if READ_MAX_1 <=? length then READ_MAX_1 else length in
  fStatus <- io (call_flReadChannelAsyncSubmit chan0 chunkSize) ;;
  CHECK_STATUS (fl_failed fStatus) FLP_LIBERR ;;;
  let length := uint32 (length - chunkSize) in
  received_data <- receive_loop (Z.to_nat length + 1) chan0 length received_data ;;
  received_data <- await_byte received_data ;;
  ret (option_map (fun d => decrypt d key) received_data).

(** [for ( i = 0; i < 4; i++ ) { *dataPtr = encrypted_data % 256U;
    encrypted_data = encrypted_data / 256U; dataPtr++; }] *)
Fixpoint split_bytes (count : nat) (encrypted_data : Z) : list Z :=
  match count with
  | O => []
  | S count' =>
      uint8 (encrypted_data mod 256) :: split_bytes count' (encrypted_data / 256)
  end.

(** [for ( i = 0; i < 4; i++ ) { dataPtr--; flWriteChannel(handle, chan1,
    length, dataPtr, error); CHECK_STATUS(...); }] with [dataPtr] as an
    index into [data]. *)
Fixpoint send_bytes (count : nat) (chan1 : Z) (data : list Z) (dataPtr : nat)
  : M (World T) unit :=
  match count with
  | O => ret tt
  | S count' =>
      let dataPtr := Nat.pred dataPtr in
      fStatus <- io (call_flWriteChannel chan1 [nth dataPtr data 0]) ;;
      CHECK_STATUS (fl_failed fStatus) FLP_LIBERR ;;;
      send_bytes count' chan1 data dataPtr
  end.

(** [send_to_fpga(handle, chan, send_data, error)] *)
Definition send_to_fpga (chan send_data : Z) : M (World T) unit :=
  let key := rail_key in
  let chan1 := uint8 (2 * chan + 1) in
  let encrypted_data := encrypt send_data key in
  let data := split_bytes 4 encrypted_data in
  send_bytes 4 chan1 data 4.

End RailLink.

(* ===================================================================== *)
(** ** The readback of the ports (main.c, lines 558-584 and 967-982) *)
(* ===================================================================== *)

Definition nibbles : list string :=
  ["0000"; "0001"; "0010"; "0011"; "0100"; "0101"; "0110"; "0111";
   "1000"; "1001";
   "XXXX"; "XXXX"; "XXXX"; "XXXX"; "XXXX"; "XXXX"; "XXXX";
   "1010"; "1011"; "1100"; "1101"; "1110"; "1111"]%string.

(** [nibbles[*p - '0']] with [p] a [const uint8 *]; [None] is an index
    outside the table. *)
Definition nibbles_at (c : ascii) : option string :=
  let i := Z.of_N (N_of_ascii c) - Z.of_N (N_of_ascii "0") in
  if i <? 0 then None else nth_error nibbles (Z.to_nat i).

(** A digit of the conversion [%X]. *)
Definition upper_hex (d : Z) : ascii :=
  ascii_of_N (Z.to_N (if d <? 10 then 48 + d else 55 + d)).

(** [sprintf(hex, "%08X", readState)] for a 32-bit [readState]. *)
Definition sprintf_08X (readState : Z) : cstring :=
  map (fun j => upper_hex ((readState / 16 ^ j) mod 16)) [7; 6; 5; 4; 3; 2; 1; 0].

(** The eight strings that the eight [printf] of the readback print, in
    their order. *)
Definition readback (readState : Z) : list (option string) :=
  map nibbles_at (sprintf_08X readState).

(* ===================================================================== *)
(** ** A simulated device *)
(* ===================================================================== *)

(** A transport on which every call succeeds: a read of [count] bytes
    returns 0x00, 0x01, ... (modulo 256); asynchronous reads are answered
    in the order of their submission, and an await with nothing submitted
    fails.  Its state is the queue of the submitted reads. *)
Module Sim.

Fixpoint ramp_from (n : nat) (byte : Z) : list Z :=
  match n with
  | O => []
  | S n' => byte :: ramp_from n' ((byte + 1) mod 256)
  end.

Definition ramp (count : Z) : list Z := ramp_from (Z.to_nat count) 0.

Definition T := list (Z * Z).

#[global] Instance transport : Transport T := {
  flSelectConduit := fun _ q => (FL_SUCCESS, q);
  flReadChannel := fun _ count q => (FL_SUCCESS, ramp count, q);
  flReadChannelAsyncSubmit := fun chan count q => (FL_SUCCESS, q ++ [(chan, count)]);
  flReadChannelAsyncAwait := fun q =>
    match q with
    | [] => (FL_FAILURE, [], [])
    | (_, count) :: q' => (FL_SUCCESS, ramp count, q')
    end;
  flWriteChannel := fun _ _ q => (FL_SUCCESS, q);
  flWriteChannelAsync := fun _ _ q => (FL_SUCCESS, q);
  flAwaitAsyncWrites := fun q => (FL_SUCCESS, q)
}.

(** A fresh environment: nothing submitted, the given files, room for
    [room] bytes, an empty log. *)
Definition world (files : list (string * list Z)) (room : Z) : World T :=
  {| handle := [];
     fs := {| fs_files := files; fs_denied := []; fs_room := room |};
     log := [] |}.

(** [parseLine] on a command given as a Rocq string, on a C library
    that leaves [errno] alone when [strtoul] finds no digit. *)
Definition run (line : string) (w : World T) : option (Outcome T) :=
  parseLine false (cstr line) w.

End Sim.

(* ===================================================================== *)
(** ** The schedules that the transfer loops are checked against *)
(* ===================================================================== *)

(** [p] is an initial part of [l]. *)
Definition prefix_of {A} (p l : list A) : Prop := exists q, l = p ++ q.

(** The first [n] full chunks of [WRITE_MAX] bytes of a source. *)
Fixpoint full_chunks (n : nat) (data : list Z) : list (list Z) :=
  match n with
  | O => []
  | S n' => take WRITE_MAX data :: full_chunks n' (drop WRITE_MAX data)
  end.

(** What is left of the source after [n] full chunks. *)
Fixpoint after_chunks (n : nat) (data : list Z) : list Z :=
  match n with
  | O => data
  | S n' => after_chunks n' (drop WRITE_MAX data)
  end.

(** The log of a write of [n] full chunks followed by a short read of the
    [last] bytes: each full chunk is read and submitted; the short read
    ends the loop, and its bytes are submitted unless there are none. *)
Definition write_log (chan : Z) (chunks : list (list Z)) (last : list Z)
  : list Event :=
  flat_map (fun c => [EvFread WRITE_MAX WRITE_MAX; EvWriteAsync chan c]) chunks
  ++ [EvFread WRITE_MAX (zlength last)]
  ++ (if zlength last =? 0 then [] else [EvWriteAsync chan last]).

(** Number of chunks of at most [READ_MAX] bytes in [length] bytes. *)
Definition chunk_count (length : Z) : nat :=
  Z.to_nat ((length + READ_MAX - 1) / READ_MAX).

(** The sizes of [n] successive chunks, each the smaller of what remains
    and [READ_MAX]. *)
Fixpoint chunk_sizes (n : nat) (remaining : Z) : list Z :=
  match n with
  | O => []
  | S n' =>
      let c := Z.min remaining READ_MAX in
      c :: chunk_sizes n' (remaining - c)
  end.

(** The chunk sizes of a read of [length] bytes: a first chunk, of size 0
    for an empty read, then the chunks of the rest. *)
Definition read_chunks (length : Z) : list Z :=
  let c := Z.min length READ_MAX in
  c :: chunk_sizes (chunk_count (length - c)) (length - c).

(** The part of the schedule after the first submit: for each later chunk,
    submit it and then await the one before; then the last await. *)
Definition overlap (chan : Z) (later : list Z) : list Event :=
  flat_map (fun c => [EvReadSubmit chan c; EvReadAwait]) later ++ [EvReadAwait].

(** submit(0), then submit(N+1) before await(N), then the last await. *)
Definition read_schedule (chan length : Z) : list Event :=
  match read_chunks length with
  | [] => []
  | c0 :: later => EvReadSubmit chan c0 :: overlap chan later
  end.

(** Chunks submitted and not yet awaited after the calls of [l]. *)
Fixpoint in_flight (l : list Event) : Z :=
  match l with
  | [] => 0
  | EvReadSubmit _ _ :: r => in_flight r + 1
  | EvReadAwait :: r => in_flight r - 1
  | _ :: r => in_flight r
  end.

(** The log at the end of a run (empty if the model ran out of fuel). *)
Definition log_of {T A} (r : result (World T) A) : list Event :=
  match r with
  | Done _ w' => log w'
  | Fail _ w' => log w'
  | Fuel => []
  end.

(** A run from [w] made the transport calls [full], or, if it failed, an
    initial part of them; and it did not run out of fuel. *)
Definition traces {T A} (r : result (World T) A) (w : World T)
  (full : list Event) : Prop :=
  match r with
  | Done _ w' => calls (log w') = calls (log w) ++ full
  | Fail _ w' => exists p, prefix_of p full /\ calls (log w') = calls (log w) ++ p
  | Fuel => False
  end.

(** The transport calls of a log are those of the chunked engine for a
    read of [length] bytes of channel [chan]. *)
Definition pipelined (chan length : Z) (l : list Event) : Prop :=
  calls l = read_schedule chan length.

(** The line is carried out as one synchronous read of [length] bytes of
    channel [chan], and succeeds if that call does. *)
Definition reads_memory {T} {transport : Transport T} (einval : bool)
  (line : string) (chan length : Z) (w : World T) : Prop :=
  exists o,
    parseLine einval (cstr line) w = Some o
    /\ log (final o) = log w ++ [EvReadChannel chan length]
    /\ (fst (fst (flReadChannel chan length (handle w))) = FL_SUCCESS ->
        retVal o = FLP_SUCCESS).

(** The line is carried out as one selection of [conduit], and succeeds if
    that call does. *)
Definition selects_conduit {T} {transport : Transport T} (einval : bool)
  (line : string) (conduit : Z) (w : World T) : Prop :=
  exists o,
    parseLine einval (cstr line) w = Some o
    /\ log (final o) = log w ++ [EvSelectConduit conduit]
    /\ (fst (flSelectConduit conduit (handle w)) = FL_SUCCESS ->
        retVal o = FLP_SUCCESS).

(** The line is carried out as one synchronous write of [data] to channel
    [chan], and succeeds if that call does. *)
Definition writes_inline {T} {transport : Transport T} (einval : bool)
  (line : string) (chan : Z) (data : list Z) (w : World T) : Prop :=
  exists o,
    parseLine einval (cstr line) w = Some o
    /\ log (final o) = log w ++ [EvWriteChannel chan data]
    /\ (fst (flWriteChannel chan data (handle w)) = FL_SUCCESS ->
        retVal o = FLP_SUCCESS).

(** A reading step ends, and if it does not fail it leaves the cursor at
    or after [q]. *)
Definition moves_forward {A} (r : result cstring A) (q : cstring) : Prop :=
  match r with
  | Done _ p' => (List.length p' <= List.length q)%nat
  | Fail _ _ => True
  | Fuel => False
  end.

(** A step of [parseLine] ends, and if it does not fail it leaves the
    cursor where it was. *)
Definition keeps_cursor {T A} (r : result (PState T) A) (s : PState T) : Prop :=
  match r with
  | Done _ s' => ptr s' = ptr s
  | Fail _ _ => True
  | Fuel => False
  end.

(** An action ends, and if it does not fail it leaves the cursor after the
    character it started on. *)
Definition advances {T A} (r : result (PState T) A) (s : PState T) : Prop :=
  match r with
  | Done _ s' => (List.length (ptr s') <= List.length (next (ptr s)))%nat
  | Fail _ _ => True
  | Fuel => False
  end.

(** The section-6 grammar [hex ::= one-or-more [0-9a-fA-F]]. *)
Definition is_hex_numeral (s : cstring) : bool :=
  match s with
  | [] => false
  | _ => forallb isHexDigit s
  end.

(** The bytes that a run of hex digits denotes, two digits a byte, the
    high digit first. *)
Fixpoint hex_pairs (run : cstring) : list Z :=
  match run with
  | a :: b :: r =>
      match Libc.digit16 a, Libc.digit16 b with
      | Some high, Some low => 16 * high + low
      | _, _ => 0
      end :: hex_pairs r
  | _ => []
  end.

(** A reading step ends with the cursor at or after [q], also when it
    fails. *)
Definition stays_after {A} (r : result cstring A) (q : cstring) : Prop :=
  match r with
  | Done _ p' => (List.length p' <= List.length q)%nat
  | Fail _ p' => (List.length p' <= List.length q)%nat
  | Fuel => False
  end.

(** A step of [parseLine] ends with the cursor where it was, also when it
    fails. *)
Definition same_cursor {T A} (r : result (PState T) A) (s : PState T) : Prop :=
  match r with
  | Done _ s' => ptr s' = ptr s
  | Fail _ s' => ptr s' = ptr s
  | Fuel => False
  end.

(** A step of [parseLine] ends with the cursor at or after [q], also when
    it fails. *)
Definition cursor_within {T A} (r : result (PState T) A) (q : cstring) : Prop :=
  match r with
  | Done _ s' => (List.length (ptr s') <= List.length q)%nat
  | Fail _ s' => (List.length (ptr s') <= List.length q)%nat
  | Fuel => False
  end.

(** The bytes handed to [flWriteChannelAsync] in a log, in order. *)
Definition sent (l : list Event) : list Z :=
  flat_map (fun e => match e with
                     | EvWriteAsync _ d => d
                     | _ => []
                     end) l.

(** The bytes of a 32-bit word, the most significant first. *)
Definition word_bytes (x : Z) : list Z :=
  [(x / 2 ^ 24) mod 256; (x / 2 ^ 16) mod 256; (x / 2 ^ 8) mod 256; x mod 256].

(** The hex digits of a 32-bit word, the least significant first. *)
Definition word_nibbles (x : Z) : list Z :=
  map (fun j => (x / 16 ^ j) mod 16) [0; 1; 2; 3; 4; 5; 6; 7].

(** A device that hands back the bytes written to it, in the order of
    their writing, whatever the channel: its state is the bytes not yet
    read back and the sizes of the reads submitted.  An await with nothing
    submitted fails. *)
Module Echo.

Definition T := (list Z * list Z)%type.

#[global] Instance transport : Transport T := {
  flSelectConduit := fun _ q => (FL_SUCCESS, q);
  flReadChannel := fun _ count q =>
    (FL_SUCCESS, take count (fst q), (drop count (fst q), snd q));
  flReadChannelAsyncSubmit := fun _ count q =>
    (FL_SUCCESS, (fst q, snd q ++ [count]));
  flReadChannelAsyncAwait := fun q =>
    match snd q with
    | [] => (FL_FAILURE, [], q)
    | count :: later =>
        (FL_SUCCESS, take count (fst q), (drop count (fst q), later))
    end;
  flWriteChannel := fun _ data q => (FL_SUCCESS, (fst q ++ data, snd q));
  flWriteChannelAsync := fun _ data q => (FL_SUCCESS, (fst q ++ data, snd q));
  flAwaitAsyncWrites := fun q => (FL_SUCCESS, q)
}.

Definition world : World T :=
  {| handle := ([], []);
     fs := {| fs_files := []; fs_denied := []; fs_room := 0 |};
     log := [] |}.

End Echo.


(** The calls of one [receive_from_fpga] on channel [chan0]. *)
Definition receive_schedule (chan0 : Z) : list Event :=
  [EvReadSubmit chan0 1;
   EvReadSubmit chan0 1; EvReadAwait;
   EvReadSubmit chan0 1; EvReadAwait;
   EvReadSubmit chan0 1; EvReadAwait;
   EvReadAwait].

(** The calls of one [send_to_fpga] of the word [sent_word] on channel
    [chan1]. *)
Definition send_schedule (chan1 sent_word : Z) : list Event :=
  map (fun byte => EvWriteChannel chan1 [byte]) (word_bytes sent_word).

(** The contents of the file [name] (empty if there is none). *)
Definition file_of {T} (name : string) (w : World T) : list Z :=
  match fs_lookup name (fs_files (fs w)) with
  | Some d => d
  | None => []
  end.

(** A run from [w] that started with the checksum [csVal] added bytes at
    the end of the file [name] and nothing else; if it succeeded, its
    value is [csVal] with exactly those bytes summed in; if it failed, it
    did so with [FLP_LIBERR] or [FLP_CANNOT_SAVE]. *)
Definition sums_file {T} (name : string) (csVal : Z) (r : result (World T) Z)
  (w : World T) : Prop :=
  match r with
  | Done cs w' =>
      exists d, file_of name w' = file_of name w ++ d /\ cs = cksum_chunk csVal d
  | Fail rc w' =>
      (rc = FLP_LIBERR \/ rc = FLP_CANNOT_SAVE)
      /\ exists d, file_of name w' = file_of name w ++ d
  | Fuel => True
  end.

(** A run of [doWrite] from [w] on the source [data]: if it succeeded,
    all of [data] went to the transport, in order, and the length and the
    checksum stored are those of [data]; if it failed, it did so with
    [FLP_LIBERR] after an initial part of [data] had gone. *)
Definition sends_in_order {T} (r : result (World T) (FILE * Z * Z))
  (w : World T) (lenVal csVal : Z) (data : list Z) : Prop :=
  match r with
  | Done (f, l, c) w' =>
      f = RStream [] /\ l = lenVal + zlength data
      /\ c = cksum_chunk csVal data
      /\ sent (log w') = sent (log w) ++ data
  | Fail rc w' =>
      rc = FLP_LIBERR
      /\ exists p, prefix_of p data /\ sent (log w') = sent (log w) ++ p
  | Fuel => False
  end.

(** The four binary digits of a hex digit, the most significant first. *)
Definition binary4 (n : Z) : string :=
  string_of_list_ascii
    (map (fun i => if Z.testbit n i then "1" else "0") [3; 2; 1; 0]).

(* ===================================================================== *)
(** ** Checksum *)
(* ===================================================================== *)

Lemma cksum_chunk_app (csVal : Z) (a b : list Z) :
  cksum_chunk csVal (a ++ b) = cksum_chunk (cksum_chunk csVal a) b.
Proof. unfold cksum_chunk. apply fold_left_app. Qed.

Lemma cksum_chunks_concat (chunks : list (list Z)) (csVal : Z) :
  fold_left cksum_chunk chunks csVal = cksum_chunk csVal (List.concat chunks).
Proof.
  revert csVal.
  induction chunks as [|c chunks IH]; intros csVal; simpl.
  - reflexivity.
  - rewrite IH, cksum_chunk_app. reflexivity.
Qed.

Lemma cksum_step_range (cksum byte : Z) : 0 <= cksum_step cksum byte < 65536.
Proof. unfold cksum_step, uint16. apply Z.mod_pos_bound. reflexivity. Qed.

(** C3.  The checksum does not depend on how the bytes are cut into chunks:
    for every list of chunks, updating the running sum chunk by chunk (the
    inline loops of [doRead] and [doWrite], [(acc + byte) mod 65536] per
    byte, in transfer order, starting from 0) gives [calcChecksum] of the
    chunks' concatenation. *)
Theorem checksum_chunk_invariant (chunks : list (list Z)) :
  fold_left cksum_chunk chunks 0 = calcChecksum (List.concat chunks).
Proof. apply cksum_chunks_concat. Qed.

(** Two partitions of the same bytes give the same checksum. *)
Corollary checksum_partition_independent (p q : list (list Z)) :
  List.concat p = List.concat q ->
  fold_left cksum_chunk p 0 = fold_left cksum_chunk q 0.
Proof. intros E. rewrite !checksum_chunk_invariant, E. reflexivity. Qed.

(* ===================================================================== *)
(** ** [parseLine]: stepping through a line *)
(* ===================================================================== *)

Ltac mstep :=
  unfold CHECK_STATUS, bind, ret, FAIL, get_ptr, set_ptr;
  cbn [ptr dataFromFPGA world handle fs log deref next].

(** Evaluate the tests and the field readers that are applied to known
    characters and strings. *)
Ltac is_value v :=
  lazymatch v with
  | true => idtac
  | false => idtac
  | Done _ _ => idtac
  | Fail _ _ => idtac
  | Z0 => idtac
  | Zpos _ => idtac
  | Zneg _ => idtac
  | O => idtac
  | S _ => idtac
  | @nil _ => idtac
  | @cons _ _ ?r => is_value r
  end.

Ltac known_of t :=
  let v := eval vm_compute in t in
  is_value v; progress change t with v.

Ltac known :=
  repeat match goal with
    | |- context [char_eqb ?a ?b] => known_of (char_eqb a b)
    | |- context [skip_semis ?p] => known_of (skip_semis p)
    | |- context [read_fields ?e ?p] => known_of (read_fields e p)
    | |- context [write_fields ?e ?p] => known_of (write_fields e p)
    | |- context [conduit_field ?e ?p] => known_of (conduit_field e p)
    | |- context [ptrdiff ?p ?q] => known_of (ptrdiff p q)
    | |- context [uint8 ?x] => known_of (uint8 x)
    | |- context [@List.length ascii ?l] => known_of (@List.length ascii l)
    end;
  cbv beta iota.

Section ParseSteps.

Context {T : Type} {transport : Transport T}.
Variable einval : bool.

Lemma skip_semis_repeat (n : nat) : skip_semis (repeat ";" n) = [].
Proof. induction n as [|n IH]; simpl; [reflexivity | exact IH]. Qed.

Lemma zlength_repeat {A} (a : A) (n : nat) : zlength (repeat a n) = Z.of_nat n.
Proof. unfold zlength. rewrite repeat_length. reflexivity. Qed.

Lemma ptrdiff_cons (c : ascii) (p : cstring) : ptrdiff p (c :: p) = 1.
Proof. unfold ptrdiff, zlength. cbn [List.length]. lia. Qed.

Lemma ptrdiff_app (a p : cstring) : ptrdiff p (a ++ p) = zlength a.
Proof. unfold ptrdiff, zlength. rewrite length_app. lia. Qed.

(** One turn of the [do ... while] loop. *)
Lemma actions_S (fuel : nat) (s : PState T) :
  actions einval (S fuel) s
  = match dispatch einval {| ptr := skip_semis (ptr s);
                             dataFromFPGA := dataFromFPGA s;
                             world := world s |} with
    | Done _ s' =>
        if char_eqb (deref (ptr s')) ";" then actions einval fuel s'
        else Done tt s'
    | Fail rc s' => Fail rc s'
    | Fuel => Fuel
    end.
Proof. reflexivity. Qed.

(** A line whose first action fails: the value, the message and the
    column come from the state at the failure. *)
Lemma parseLine_first_fails (line : cstring) (w : World T)
  (rc : ReturnCode) (s' : PState T) :
  dispatch einval {| ptr := skip_semis line; dataFromFPGA := []; world := w |}
  = Fail rc s' ->
  parseLine einval line w
  = Some {| retVal := rc;
            diagnostic := if 1 <? rc_value rc
                          then Some (errMessages rc, ptrdiff (ptr s') line)
                          else None;
            dumped := None;
            final := world s' |}.
Proof.
  intros H. unfold parseLine. rewrite actions_S. cbn [ptr dataFromFPGA world].
  rewrite H. reflexivity.
Qed.

(** An action that fails while it is read off the line does nothing. *)
Lemma action_read_unread (s : PState T) (rc : ReturnCode) (p : cstring) :
  read_fields einval (ptr s) = Fail rc p ->
  action_read einval s
  = Fail rc {| ptr := p; dataFromFPGA := dataFromFPGA s; world := world s |}.
Proof. intros H. unfold action_read, bind, parsing. rewrite H. reflexivity. Qed.

Lemma action_write_unread (s : PState T) (rc : ReturnCode) (p : cstring) :
  write_fields einval (ptr s) = Fail rc p ->
  action_write einval s
  = Fail rc {| ptr := p; dataFromFPGA := dataFromFPGA s; world := world s |}.
Proof. intros H. unfold action_write, bind, parsing. rewrite H. reflexivity. Qed.

Lemma action_conduit_unread (s : PState T) (rc : ReturnCode) (p : cstring) :
  conduit_field einval (ptr s) = Fail rc p ->
  action_conduit einval s
  = Fail rc {| ptr := p; dataFromFPGA := dataFromFPGA s; world := world s |}.
Proof. intros H. unfold action_conduit, bind, parsing. rewrite H. reflexivity. Qed.

(** The memory branch of a read is one call of [flReadChannel]. *)
Lemma read_to_memory_run (chan length : Z) (s : PState T) :
  read_to_memory chan length s
  = let '(fStatus, received, h) :=
      flReadChannel (uint8 chan) length (handle (world s)) in
    (if fl_failed fStatus then Fail FLP_LIBERR else Done tt)
      {| ptr := ptr s;
         dataFromFPGA := dataFromFPGA s ++ filled length received;
         world := {| handle := h; fs := fs (world s);
                     log := log (world s) ++ [EvReadChannel (uint8 chan) length] |} |}.
Proof.
  unfold read_to_memory, bind, lift, io, call_flReadChannel.
  destruct (flReadChannel (uint8 chan) length (handle (world s)))
    as [[[] received] h]; reflexivity.
Qed.

(** The inline branch of a write is one call of [flWriteChannel]. *)
Lemma write_inline_run (chan : Z) (data : list Z) (s : PState T) :
  write_inline chan data s
  = let '(fStatus, h) := flWriteChannel (uint8 chan) data (handle (world s)) in
    (if fl_failed fStatus then Fail FLP_LIBERR else Done tt)
      {| ptr := ptr s;
         dataFromFPGA := dataFromFPGA s;
         world := {| handle := h; fs := fs (world s);
                     log := log (world s) ++ [EvWriteChannel (uint8 chan) data] |} |}.
Proof.
  unfold write_inline, bind, lift, io, call_flWriteChannel.
  destruct (flWriteChannel (uint8 chan) data (handle (world s)))
    as [[] h]; reflexivity.
Qed.

(** A conduit action that was read off the line is one call of
    [flSelectConduit]. *)
Lemma action_conduit_run (s : PState T) (conduit : Z) (p : cstring) :
  conduit_field einval (ptr s) = Done conduit p ->
  action_conduit einval s
  = let '(fStatus, h) := flSelectConduit (uint8 conduit) (handle (world s)) in
    (if fl_failed fStatus then Fail FLP_LIBERR else Done tt)
      {| ptr := p;
         dataFromFPGA := dataFromFPGA s;
         world := {| handle := h; fs := fs (world s);
                     log := log (world s) ++ [EvSelectConduit (uint8 conduit)] |} |}.
Proof.
  intros H. unfold action_conduit, bind, parsing. rewrite H.
  unfold lift, io, call_flSelectConduit. cbn [world ptr dataFromFPGA].
  destruct (flSelectConduit (uint8 conduit) (handle (world s)))
    as [[] h]; reflexivity.
Qed.

End ParseSteps.

(** Run the first action of a line whose fields are known, up to its
    transport call. *)
Ltac first_action :=
  unfold parseLine; rewrite actions_S;
  cbn [ptr dataFromFPGA world]; known;
  unfold dispatch; cbn [ptr deref]; known.

(** A line that is one memory read. *)
Ltac one_read :=
  unfold reads_memory; first_action;
  unfold action_read, bind, parsing; cbn [ptr]; known;
  rewrite read_to_memory_run; cbn [ptr dataFromFPGA world handle fs log]; known;
  match goal with
  | |- context [flReadChannel ?c ?n ?h] =>
      destruct (flReadChannel c n h) as [[[] ?] ?]
  end;
  cbn [fl_failed ptr deref]; known; cbn [finish ptr deref]; known;
  eexists; (split; [reflexivity|]); (split; [reflexivity|]);
  cbn [fst]; intros; first [reflexivity | discriminate].

(** A line that is one conduit selection. *)
Ltac one_conduit :=
  unfold selects_conduit; first_action;
  match goal with
  | |- context [action_conduit ?e ?s] =>
      let v := eval vm_compute in (conduit_field e (ptr s)) in
      lazymatch v with
      | Done ?cc ?pp =>
          rewrite (action_conduit_run e s cc pp) by reflexivity
      end
  end;
  cbn [ptr dataFromFPGA world handle fs log]; known;
  match goal with
  | |- context [flSelectConduit ?c ?h] =>
      destruct (flSelectConduit c h) as [[] ?]
  end;
  cbn [fl_failed ptr deref]; known; cbn [finish ptr deref]; known;
  eexists; (split; [reflexivity|]); (split; [reflexivity|]);
  cbn [fst]; intros; first [reflexivity | discriminate].

(** A line that is one inline write. *)
Ltac one_write :=
  unfold writes_inline; first_action;
  unfold action_write, bind, parsing; cbn [ptr]; known;
  rewrite write_inline_run; cbn [ptr dataFromFPGA world handle fs log]; known;
  match goal with
  | |- context [flWriteChannel ?c ?d ?h] =>
      destruct (flWriteChannel c d h) as [[] ?]
  end;
  cbn [fl_failed ptr deref]; known; cbn [finish ptr deref]; known;
  eexists; (split; [reflexivity|]); (split; [reflexivity|]);
  cbn [fst]; intros; first [reflexivity | discriminate].

(* ===================================================================== *)
(** ** [parseLine]: errors found before any transport call *)
(* ===================================================================== *)

Section ParseLine.

Context {T : Type} {transport : Transport T}.
Variable einval : bool.

(** C10.  The empty line and every line made only of [;] fail with
    [FLP_ILL_CHAR], reported at the column of the terminating NUL (the
    length of the line); the environment is untouched, so no transport
    call is made. *)
Theorem semicolons_only_illegal (n : nat) (w : World T) :
  parseLine einval (repeat ";" n) w
  = Some {| retVal := FLP_ILL_CHAR;
            diagnostic := Some (Some "Illegal character"%string, Z.of_nat n);
            dumped := None;
            final := w |}.
Proof.
  rewrite parseLine_first_fails
    with (rc := FLP_ILL_CHAR)
         (s' := {| ptr := []; dataFromFPGA := []; world := w |}).
  - cbn [rc_value ptr world errMessages]. unfold ptrdiff.
    rewrite zlength_repeat. change (zlength []) with 0.
    rewrite Z.sub_0_r. reflexivity.
  - rewrite skip_semis_repeat. reflexivity.
Qed.

Local Arguments Libc.strtoul16 : simpl never.

(** The channel of a read is checked before the cursor moves over it. *)
Lemma read_fields_chan_range (tail : cstring) :
  Libc.st_errno (Libc.strtoul16 einval tail) = 0 ->
  127 < uint32 (Libc.st_value (Libc.strtoul16 einval tail)) ->
  read_fields einval ("r" :: tail) = Fail FLP_CHAN_RANGE tail.
Proof.
  intros Herrno Hrange. unfold read_fields. mstep.
  rewrite Herrno. cbn [Z.eqb negb]. cbv iota.
  apply Z.ltb_lt in Hrange. rewrite Hrange. reflexivity.
Qed.

(** C7.  A read whose channel numeral is out of range fails with
    [FLP_CHAN_RANGE] at column 1, the offset just after the [r]: the
    range check comes before [ptr = end], so the cursor has only stepped
    over the [r].  Nothing is done to the environment.  The line [r200]
    is an instance. *)
Theorem read_chan_range_column (tail : cstring) (w : World T) :
  Libc.st_errno (Libc.strtoul16 einval tail) = 0 ->
  127 < uint32 (Libc.st_value (Libc.strtoul16 einval tail)) ->
  parseLine einval ("r" :: tail) w
  = Some {| retVal := FLP_CHAN_RANGE;
            diagnostic := Some (Some "Channel out of range"%string, 1);
            dumped := None;
            final := w |}.
Proof.
  intros Herrno Hrange.
  rewrite parseLine_first_fails
    with (rc := FLP_CHAN_RANGE)
         (s' := {| ptr := tail; dataFromFPGA := []; world := w |}).
  - cbn [rc_value ptr world errMessages]. rewrite ptrdiff_cons. reflexivity.
  - cbn [skip_semis]. known. unfold dispatch. cbn [ptr deref]. known.
    apply action_read_unread. cbn [ptr].
    apply read_fields_chan_range; assumption.
Qed.

(** The line [r200], on every transport and C library. *)
Example r200_chan_range (w : World T) :
  parseLine einval (cstr "r200") w
  = Some {| retVal := FLP_CHAN_RANGE;
            diagnostic := Some (Some "Channel out of range"%string, 1);
            dumped := None;
            final := w |}.
Proof. reflexivity. Qed.

Lemma isHexDigit_not_quote (c : ascii) :
  isHexDigit c = true -> char_eqb c DQUOTE || char_eqb c "'" = false.
Proof.
  destruct c as [[] [] [] [] [] [] [] []]; vm_compute; congruence.
Qed.

Lemma scan_hex_run (run rest : cstring) :
  forallb isHexDigit run = true ->
  isHexDigit (deref rest) = false ->
  scan_hex (run ++ rest) = rest.
Proof.
  intros Hrun Hrest. induction run as [|c run IH]; cbn [app].
  - destruct rest as [|c rest]; [reflexivity|].
    cbn [scan_hex]. cbn [deref] in Hrest. rewrite Hrest. reflexivity.
  - cbn [forallb] in Hrun. apply andb_true_iff in Hrun as [Hc Hrun].
    cbn [scan_hex]. rewrite Hc. apply IH, Hrun.
Qed.

Lemma land_1_odd (n : Z) : Z.odd n = true -> (Z.land n 1 =? 0) = false.
Proof.
  intros H. change 1 with (Z.ones 1). rewrite Z.land_ones by lia.
  change (2 ^ 1) with 2. rewrite Zmod_odd, H. reflexivity.
Qed.

(** An inline run of odd length stops the reading of a write at the first
    digit of the run. *)
Lemma write_fields_odd (tail run rest : cstring) :
  Libc.st_errno (Libc.strtoul16 einval tail) = 0 ->
  Libc.st_value (Libc.strtoul16 einval tail) <= 127 ->
  Libc.st_end (Libc.strtoul16 einval tail) = " " :: run ++ rest ->
  run <> [] ->
  forallb isHexDigit run = true ->
  isHexDigit (deref rest) = false ->
  Z.odd (zlength run) = true ->
  write_fields einval ("w" :: tail) = Fail FLP_ODD_DIGITS (run ++ rest).
Proof.
  intros Herrno Hchan Hend Hne Hrun Hrest Hodd.
  unfold write_fields. mstep.
  rewrite Herrno. cbn [Z.eqb negb]. cbv iota.
  apply Z.ltb_ge in Hchan. rewrite Hchan. cbv iota.
  rewrite Hend. cbn [deref next].
  change (char_eqb " " " ") with true. cbn [negb]. cbv iota.
  destruct run as [|c run]; [congruence|].
  cbn [app deref next]. cbn [forallb] in Hrun.
  apply andb_true_iff in Hrun as [Hc Hrun].
  rewrite (isHexDigit_not_quote c Hc), Hc.
  rewrite (scan_hex_run run rest Hrun Hrest).
  change (c :: run ++ rest) with ((c :: run) ++ rest).
  rewrite ptrdiff_app, (land_1_odd _ Hodd). reflexivity.
Qed.

(** C8.  A write whose data is an inline hex run of odd length fails with
    [FLP_ODD_DIGITS], reported at the first digit of the run, and the
    environment is untouched (no write call is made).  The write is
    [w], a channel numeral (read by [strtoul] without error, at most 127),
    one space, the run, and then a character that is not a hex digit or
    the end of the line.  The line [w1 48656] is an instance. *)
Theorem write_odd_digits (tail run rest : cstring) (w : World T) :
  Libc.st_errno (Libc.strtoul16 einval tail) = 0 ->
  Libc.st_value (Libc.strtoul16 einval tail) <= 127 ->
  Libc.st_end (Libc.strtoul16 einval tail) = " " :: run ++ rest ->
  run <> [] ->
  forallb isHexDigit run = true ->
  isHexDigit (deref rest) = false ->
  Z.odd (zlength run) = true ->
  parseLine einval ("w" :: tail) w
  = Some {| retVal := FLP_ODD_DIGITS;
            diagnostic := Some (Some "Odd number of digits"%string,
                                ptrdiff (run ++ rest) ("w" :: tail));
            dumped := None;
            final := w |}.
Proof.
  intros Herrno Hchan Hend Hne Hrun Hrest Hodd.
  rewrite parseLine_first_fails
    with (rc := FLP_ODD_DIGITS)
         (s' := {| ptr := run ++ rest; dataFromFPGA := []; world := w |}).
  - reflexivity.
  - cbn [skip_semis]. known. unfold dispatch. cbn [ptr deref]. known.
    apply action_write_unread. cbn [ptr].
    apply write_fields_odd; assumption.
Qed.

(** The line [w1 48656], on every transport and C library. *)
Example w1_48656_odd_digits (w : World T) :
  parseLine einval (cstr "w1 48656") w
  = Some {| retVal := FLP_ODD_DIGITS;
            diagnostic := Some (Some "Odd number of digits"%string, 3);
            dumped := None;
            final := w |}.
Proof. reflexivity. Qed.

(** The same line with one more digit is written to channel 1. *)
Example w1_486566_written (w : World T) :
  option_map (fun o => log (final o)) (parseLine einval (cstr "w1 486566") w)
  = Some (log w ++ [EvWriteChannel 1 [72; 101; 102]]).
Proof.
  first_action.
  unfold action_write, bind, parsing. cbn [ptr]. known.
  rewrite write_inline_run. cbn [ptr dataFromFPGA world handle fs log]. known.
  destruct (flWriteChannel 1 [72; 101; 102] (handle w)) as [[] h]; reflexivity.
Qed.

(* ===================================================================== *)
(** ** [parseLine]: single actions on any transport *)
(* ===================================================================== *)

(** In the grammar: [r5], [r5 3], [+1f], [w5 00]. *)
Example r5_reads (w : World T) : reads_memory einval "r5" 5 1 w.
Proof. one_read. Qed.

Example r5_3_reads (w : World T) : reads_memory einval "r5 3" 5 3 w.
Proof. one_read. Qed.

Example plus_1f_selects (w : World T) : selects_conduit einval "+1f" 31 w.
Proof. one_conduit. Qed.

Example w5_00_writes (w : World T) : writes_inline einval "w5 00" 5 [0] w.
Proof. one_write. Qed.

(** The channel numeral takes every hex digit that follows the [r]:
    [r2a] is a read of one byte of channel 0x2a, and [r2 a] a read of ten
    bytes of channel 2. *)
Example r2a_reads_channel_42 (w : World T) : reads_memory einval "r2a" 42 1 w.
Proof. one_read. Qed.

Example r2_a_reads_ten_bytes (w : World T) : reads_memory einval "r2 a" 2 10 w.
Proof. one_read. Qed.

(** The checksum of the bytes 0x00 to 0x09 is 0x002D. *)
Example checksum_ramp_10 : calcChecksum (Sim.ramp 10) = 45.
Proof. reflexivity. Qed.

(** C9.  [strtoul] takes more than the grammar's
    [hex ::= one-or-more [0-9a-fA-F]]: white space, a sign and a [0x] or
    [0X] prefix in front of the digits are consumed as part of the
    numeral, for the channel, the length and the conduit.  Each line below
    has such a numeral (not a [hex] of the grammar) and is carried out,
    on every transport, as the action of the plain numeral: [r0x5] is a
    read of one byte of channel 5 and succeeds when the read does. *)
Theorem strtoul_numerals_accepted (w : World T) :
  (is_hex_numeral (cstr "0x5") = false /\ reads_memory einval "r0x5" 5 1 w)
  /\ (is_hex_numeral (cstr " 5") = false /\ reads_memory einval "r 5" 5 1 w)
  /\ (is_hex_numeral (cstr "+5") = false /\ reads_memory einval "r+5" 5 1 w)
  /\ (is_hex_numeral (cstr "-ffffffffffffffff") = false
      /\ reads_memory einval "r-ffffffffffffffff" 1 1 w)
  /\ (is_hex_numeral (cstr "0X3") = false /\ reads_memory einval "r5 0X3" 5 3 w)
  /\ (is_hex_numeral (cstr " 3") = false /\ reads_memory einval "r5  3" 5 3 w)
  /\ (is_hex_numeral (cstr "+3") = false /\ reads_memory einval "r5 +3" 5 3 w)
  /\ (is_hex_numeral (cstr "0x1f") = false /\ selects_conduit einval "+0x1f" 31 w)
  /\ (is_hex_numeral (cstr " 1f") = false /\ selects_conduit einval "+ 1f" 31 w)
  /\ (is_hex_numeral (cstr "+1f") = false /\ selects_conduit einval "++1f" 31 w)
  /\ (is_hex_numeral (cstr "-0") = false /\ selects_conduit einval "+-0" 0 w)
  /\ (is_hex_numeral (cstr "0x5") = false /\ writes_inline einval "w0x5 00" 5 [0] w).
Proof.
  repeat split; try reflexivity.
  - one_read.
  - one_read.
  - one_read.
  - one_read.
  - one_read.
  - one_read.
  - one_read.
  - one_conduit.
  - one_conduit.
  - one_conduit.
  - one_conduit.
  - one_write.
Qed.

(** C2.  On a C library that leaves [errno] alone when [strtoul] finds no
    digit, a read whose channel field has no digit is not refused as bad
    hex: [rz] gets as far as the check of the character after the
    (empty) numeral and fails there, with [FLP_ILL_CHAR] at column 1. *)
Theorem read_without_digits (w : World T) :
  parseLine false (cstr "rz") w
  = Some {| retVal := FLP_ILL_CHAR;
            diagnostic := Some (Some "Illegal character"%string, 1);
            dumped := None;
            final := w |}.
Proof. reflexivity. Qed.

(** On a C library that sets [errno] to [EINVAL] the same line is refused
    as bad hex. *)
Example read_without_digits_einval (w : World T) :
  parseLine true (cstr "rz") w
  = Some {| retVal := FLP_BAD_HEX;
            diagnostic := Some (Some "Unparseable hex number"%string, 1);
            dumped := None;
            final := w |}.
Proof. reflexivity. Qed.

(** What the errno check does catch: a numeral beyond [unsigned long]. *)
Example read_overflow_bad_hex (w : World T) :
  parseLine einval (cstr "r10000000000000000") w
  = Some {| retVal := FLP_BAD_HEX;
            diagnostic := Some (Some "Unparseable hex number"%string, 1);
            dumped := None;
            final := w |}.
Proof. reflexivity. Qed.

(** A conduit numeral followed by anything but the end of the line or a
    [;] stops the reading of the action, with the cursor on that
    character. *)
Lemma conduit_field_trailing (tail : cstring) :
  Libc.st_errno (Libc.strtoul16 einval tail) = 0 ->
  uint32 (Libc.st_value (Libc.strtoul16 einval tail)) <= 255 ->
  negb (char_eqb (deref (Libc.st_end (Libc.strtoul16 einval tail))) NUL)
  && negb (char_eqb (deref (Libc.st_end (Libc.strtoul16 einval tail))) ";")
  = true ->
  conduit_field einval ("+" :: tail)
  = Fail FLP_ILL_CHAR (Libc.st_end (Libc.strtoul16 einval tail)).
Proof.
  intros Herrno Hrange Hchar. unfold conduit_field. mstep.
  rewrite Herrno. cbn [Z.eqb negb]. cbv iota.
  apply Z.ltb_ge in Hrange. rewrite Hrange. cbv iota.
  rewrite Hchar. reflexivity.
Qed.

(** Such a conduit action fails before [flSelectConduit] is called: the
    environment is as it was. *)
Lemma conduit_trailing_no_call (tail : cstring) (s : PState T) :
  ptr s = "+" :: tail ->
  Libc.st_errno (Libc.strtoul16 einval tail) = 0 ->
  uint32 (Libc.st_value (Libc.strtoul16 einval tail)) <= 255 ->
  negb (char_eqb (deref (Libc.st_end (Libc.strtoul16 einval tail))) NUL)
  && negb (char_eqb (deref (Libc.st_end (Libc.strtoul16 einval tail))) ";")
  = true ->
  action_conduit einval s
  = Fail FLP_ILL_CHAR
      {| ptr := Libc.st_end (Libc.strtoul16 einval tail);
         dataFromFPGA := dataFromFPGA s; world := world s |}.
Proof.
  intros Hptr Herrno Hrange Hchar. apply action_conduit_unread.
  rewrite Hptr. apply conduit_field_trailing; assumption.
Qed.

(** C6.  On [r1 5;+2zz], once the read of 5 bytes of channel 1 has
    succeeded, [parseLine] fails with [FLP_ILL_CHAR] at column 7, the
    first [z]; the conduit 2 is in range, and the only transport call of
    the line is the read: the check of the character after the numeral
    comes before [flSelectConduit], which is not called (the conduit
    selections in the log are those that were there before). *)
Theorem conduit_trailing_characters (w : World T) :
  fst (fst (flReadChannel 1 5 (handle w))) = FL_SUCCESS ->
  exists o,
    parseLine einval (cstr "r1 5;+2zz") w = Some o
    /\ retVal o = FLP_ILL_CHAR
    /\ diagnostic o = Some (Some "Illegal character"%string, 7)
    /\ log (final o) = log w ++ [EvReadChannel 1 5]
    /\ conduit_calls (log (final o)) = conduit_calls (log w).
Proof.
  intros Hread. first_action.
  unfold action_read, bind, parsing. cbn [ptr]. known.
  rewrite read_to_memory_run. cbn [ptr dataFromFPGA world handle fs log]. known.
  destruct (flReadChannel 1 5 (handle w)) as [[fStatus received] h].
  cbn [fst] in Hread. subst fStatus. cbn [fl_failed ptr deref]. known.
  rewrite actions_S. cbn [ptr dataFromFPGA world]. known.
  unfold dispatch. cbn [ptr deref]. known.
  rewrite action_conduit_unread
    with (rc := FLP_ILL_CHAR) (p := cstr "zz") by reflexivity.
  cbn [finish rc_value Z.ltb Z.compare Pos.compare Pos.compare_cont ptr world
         errMessages dataFromFPGA].
  known.
  eexists. split; [reflexivity|]. cbn [retVal diagnostic final log].
  repeat split. unfold conduit_calls. rewrite filter_app. cbn [filter is_select].
  apply app_nil_r.
Qed.

(** The conduit numeral of that line is in range: without the trailing
    characters the conduit is selected. *)
Example r1_5_conduit_2 :
  option_map (fun o => (retVal o, log (final o)))
    (Sim.run "r1 5;+2" (Sim.world [] 0))
  = Some (FLP_SUCCESS, [EvReadChannel 1 5; EvSelectConduit 2]).
Proof. reflexivity. Qed.

(** The channel that [read_fields] hands over has passed the range
    check. *)
Lemma read_fields_chan (p0 p : cstring) (chan length : Z)
  (fileName : option string) :
  read_fields einval p0 = Done (chan, length, fileName) p ->
  0 <= chan <= 127.
Proof.
  unfold read_fields. mstep.
  set (r := Libc.strtoul16 einval (next p0)). clearbody r.
  destruct (negb (Libc.st_errno r =? 0)); [discriminate|].
  destruct (127 <? uint32 (Libc.st_value r)) eqn:Hrange; [discriminate|].
  apply Z.ltb_ge in Hrange.
  assert (Hnn : 0 <= uint32 (Libc.st_value r))
    by (unfold uint32; apply Z.mod_pos_bound; reflexivity).
  intros H.
  assert (chan = uint32 (Libc.st_value r)); [|lia].
  revert H.
  destruct (not_end_semi_space (deref (Libc.st_end r))); [discriminate|].
  destruct (char_eqb (deref (Libc.st_end r)) " ").
  - set (r2 := Libc.strtoul16 einval (next (Libc.st_end r))). clearbody r2.
    destruct (negb (Libc.st_errno r2 =? 0)); [discriminate|].
    destruct (not_end_semi_space (deref (Libc.st_end r2))); [discriminate|].
    destruct (char_eqb (deref (Libc.st_end r2)) " ").
    + destruct (negb (char_eqb (deref (next (Libc.st_end r2))) DQUOTE)
                && negb (char_eqb (deref (next (Libc.st_end r2))) "'"));
        [discriminate|].
      destruct (quoted_name (deref (next (Libc.st_end r2)))
                  (next (next (Libc.st_end r2)))); try discriminate.
      intros H. injection H as <- _ _ _. reflexivity.
    + intros H. injection H as <- _ _ _. reflexivity.
  - intros H. injection H as <- _ _ _. reflexivity.
Qed.

Lemma uint8_small (x : Z) : 0 <= x <= 127 -> uint8 x = x.
Proof. intros H. unfold uint8. apply Z.mod_small. lia. Qed.

(** C1.  A read that names no file is carried out by one synchronous call of
    [flReadChannel] for the whole length, the bytes received going to
    [dataFromFPGA]; the chunked engine [doRead], with its submits and
    awaits, is not involved.  ([read_fields] yields the channel, the
    length and no file name for [r hex] and [r hex hex].) *)
Theorem memory_read_single_call (s : PState T) (chan length : Z) (p : cstring) :
  read_fields einval (ptr s) = Done (chan, length, None) p ->
  exists fStatus received h,
    flReadChannel chan length (handle (world s)) = (fStatus, received, h)
    /\ action_read einval s
       = (if fl_failed fStatus then Fail FLP_LIBERR else Done tt)
           {| ptr := p;
              dataFromFPGA := dataFromFPGA s ++ filled length received;
              world := {| handle := h; fs := fs (world s);
                          log := log (world s) ++ [EvReadChannel chan length] |} |}.
Proof.
  intros Hfields.
  pose proof (read_fields_chan _ _ _ _ _ Hfields) as Hchan.
  unfold action_read, bind, parsing. rewrite Hfields.
  rewrite read_to_memory_run. cbn [ptr dataFromFPGA world].
  rewrite uint8_small by exact Hchan.
  destruct (flReadChannel chan length (handle (world s)))
    as [[fStatus received] h].
  exists fStatus, received, h. split; reflexivity.
Qed.

(** A read that names a file goes through [doRead]. *)
Lemma file_read_uses_doRead (s : PState T) (chan length : Z)
  (fileName : string) (p : cstring) :
  read_fields einval (ptr s) = Done (chan, length, Some fileName) p ->
  action_read einval s
  = read_to_file chan length fileName
      {| ptr := p; dataFromFPGA := dataFromFPGA s; world := world s |}.
Proof.
  intros Hfields. unfold action_read, bind, parsing. rewrite Hfields.
  reflexivity.
Qed.

End ParseLine.

(** With no digit and nothing after the [r], the line is even carried
    out: one byte is read from channel 0. *)
Example r_alone_reads_channel_0 {T} {transport : Transport T} (w : World T) :
  reads_memory false "r" 0 1 w.
Proof. one_read. Qed.


(** [r200] on the simulated device. *)
Lemma read_chan_range_column_witness :
  parseLine false (cstr "r200") (Sim.world [] 0)
  = Some {| retVal := FLP_CHAN_RANGE;
            diagnostic := Some (Some "Channel out of range"%string, 1);
            dumped := None;
            final := Sim.world [] 0 |}.
Proof.
  apply (read_chan_range_column false (cstr "200") (Sim.world [] 0)).
  - reflexivity.
  - vm_compute. reflexivity.
Defined.

(** [w1 48656] on the simulated device. *)
Lemma write_odd_digits_witness :
  parseLine false (cstr "w1 48656") (Sim.world [] 0)
  = Some {| retVal := FLP_ODD_DIGITS;
            diagnostic := Some (Some "Odd number of digits"%string, 3);
            dumped := None;
            final := Sim.world [] 0 |}.
Proof.
  apply (write_odd_digits false (cstr "1 48656") (cstr "48656") []
           (Sim.world [] 0)).
  - reflexivity.
  - change (1 <= 127). lia.
  - reflexivity.
  - discriminate.
  - reflexivity.
  - reflexivity.
  - reflexivity.
Defined.


(** [r1 5;+2zz] on the simulated device. *)
Lemma conduit_trailing_characters_witness :
  exists o,
    parseLine false (cstr "r1 5;+2zz") (Sim.world [] 0) = Some o
    /\ retVal o = FLP_ILL_CHAR
    /\ diagnostic o = Some (Some "Illegal character"%string, 7)
    /\ log (final o) = log (Sim.world [] 0) ++ [EvReadChannel 1 5]
    /\ conduit_calls (log (final o)) = conduit_calls (log (Sim.world [] 0)).
Proof.
  apply (@conduit_trailing_characters Sim.T Sim.transport false (Sim.world [] 0)).
  reflexivity.
Defined.

(** [r2 a] on the simulated device: read off the line as channel 2,
    length 10, no file, and carried out as one [flReadChannel]. *)
Lemma memory_read_single_call_witness :
  exists fStatus received h,
    flReadChannel 2 10 (handle (Sim.world [] 0)) = (fStatus, received, h)
    /\ action_read false
         {| ptr := cstr "r2 a"; dataFromFPGA := []; world := Sim.world [] 0 |}
       = (if fl_failed fStatus then Fail FLP_LIBERR else Done tt)
           {| ptr := [];
              dataFromFPGA := [] ++ filled 10 received;
              world := {| handle := h; fs := fs (Sim.world [] 0);
                          log := log (Sim.world [] 0) ++ [EvReadChannel 2 10] |} |}.
Proof.
  apply (@memory_read_single_call Sim.T Sim.transport false
           {| ptr := cstr "r2 a"; dataFromFPGA := []; world := Sim.world [] 0 |}
           2 10 []).
  reflexivity.
Defined.

(** The line [r2 a] succeeds on the simulated device with the ten bytes
    in the buffer, and its transport calls are not those of the chunked
    engine (a submit of 10 bytes and an await): it is one [flReadChannel]. *)
Lemma memory_read_not_pipelined :
  exists o,
    Sim.run "r2 a" (Sim.world [] 0) = Some o
    /\ retVal o = FLP_SUCCESS
    /\ dumped o = Some [0; 1; 2; 3; 4; 5; 6; 7; 8; 9]
    /\ log (final o) = [EvReadChannel 2 10]
    /\ read_schedule 2 10 = [EvReadSubmit 2 10; EvReadAwait]
    /\ ~ pipelined 2 10 (log (final o)).
Proof.
  eexists. split; [vm_compute; reflexivity|].
  cbn [retVal dumped final log].
  repeat split. unfold pipelined. vm_compute. discriminate.
Qed.

(** The same read into a file does go through the engine. *)
Example file_read_pipelined :
  option_map (fun o => (retVal o, calls (log (final o))))
    (Sim.run "r2 a 'out.bin'" (Sim.world [] 10))
  = Some (FLP_SUCCESS, read_schedule 2 10).
Proof. vm_compute. reflexivity. Qed.

(* ===================================================================== *)
(** ** [doWrite]: the chunk loop *)
(* ===================================================================== *)

Lemma WRITE_MAX_pos : 0 < WRITE_MAX.
Proof. reflexivity. Qed.

Lemma zlength_nonneg {A} (l : list A) : 0 <= zlength l.
Proof. unfold zlength. lia. Qed.

Lemma zlength_nil_inv {A} (l : list A) : zlength l = 0 -> l = [].
Proof. destruct l; [reflexivity | unfold zlength; cbn [List.length]; lia]. Qed.

Lemma zlength_app {A} (a b : list A) : zlength (a ++ b) = zlength a + zlength b.
Proof. unfold zlength. rewrite length_app. lia. Qed.

Lemma take_drop {A} (n : Z) (l : list A) : take n l ++ drop n l = l.
Proof. apply firstn_skipn. Qed.

Lemma zlength_take {A} (n : Z) (l : list A) :
  0 <= n <= zlength l -> zlength (take n l) = n.
Proof.
  unfold zlength, take. intros H. rewrite length_firstn. lia.
Qed.

Lemma zlength_drop {A} (n : Z) (l : list A) :
  0 <= n <= zlength l -> zlength (drop n l) = zlength l - n.
Proof.
  unfold zlength, drop. intros H. rewrite length_skipn. lia.
Qed.

Lemma take_all {A} (n : Z) (l : list A) : zlength l <= n -> take n l = l.
Proof. unfold zlength, take. intros H. apply firstn_all2. lia. Qed.

Lemma drop_all {A} (n : Z) (l : list A) : zlength l <= n -> drop n l = [].
Proof. unfold zlength, drop. intros H. apply skipn_all2. lia. Qed.

Section WriteEngine.

Context {T : Type} {transport : Transport T}.
Variable chan : Z.

(** The transport accepts every asynchronous write. *)
Hypothesis writes_accepted :
  forall (c : Z) (d : list Z) (h : T), fst (flWriteChannelAsync c d h) = FL_SUCCESS.

(** The barrier after the writes succeeds. *)
Hypothesis barrier_succeeds :
  forall h : T, fst (flAwaitAsyncWrites h) = FL_SUCCESS.

Local Opaque WRITE_MAX.

(** The loop on a source of [n] full chunks and a short rest: it ends with
    the source exhausted, the length and the checksum of all the bytes,
    after [n + 1] reads. *)
Lemma doWrite_loop_spec (n : nat) :
  forall (fuel : nat) (data : list Z) (lenVal csVal : Z) (w : World T),
    (n < fuel)%nat ->
    Z.of_nat n * WRITE_MAX <= zlength data < Z.of_nat n * WRITE_MAX + WRITE_MAX ->
    exists w',
      doWrite_loop fuel chan (RStream data) lenVal csVal w
      = Done (RStream [], lenVal + zlength data, cksum_chunk csVal data) w'
      /\ log w' = log w ++ write_log chan (full_chunks n data) (after_chunks n data)
      /\ fs w' = fs w.
Proof.
  pose proof WRITE_MAX_pos as Hpos.
  induction n as [|n IH]; intros fuel data lenVal csVal w Hfuel Hlen.
  - destruct fuel as [|fuel]; [lia|].
    cbn [doWrite_loop full_chunks after_chunks]. unfold write_log.
    cbn [flat_map app].
    unfold bind at 1. unfold io at 1. cbn [fread].
    rewrite (take_all WRITE_MAX data) by lia.
    rewrite (drop_all WRITE_MAX data) by lia.
    assert (Hshort : (zlength data =? WRITE_MAX) = false)
      by (apply Z.eqb_neq; lia).
    destruct (zlength data =? 0) eqn:Hzero.
    + apply Z.eqb_eq in Hzero. apply zlength_nil_inv in Hzero. subst data.
      unfold bind, ret. change (zlength (@nil Z)) with 0.
      assert (H0 : (0 =? WRITE_MAX) = false) by (apply Z.eqb_neq; lia).
      rewrite H0, Z.add_0_r. eexists. split; [reflexivity|].
      split; reflexivity.
    + unfold bind at 1. unfold bind at 1. unfold io.
      unfold call_flWriteChannelAsync.
      pose proof (writes_accepted chan data
                    (handle (emit (EvFread WRITE_MAX (zlength data)) w))) as Hacc.
      destruct (flWriteChannelAsync chan data
                  (handle (emit (EvFread WRITE_MAX (zlength data)) w)))
        as [st h]. cbn [fst] in Hacc. subst st.
      unfold CHECK_STATUS, bind, ret. cbn [fl_failed].
      rewrite Hshort. eexists. split; [reflexivity|]. split.
      * cbn [log emit with_handle]. rewrite <- app_assoc. reflexivity.
      * reflexivity.
  - destruct fuel as [|fuel]; [lia|].
    assert (Hge : WRITE_MAX <= zlength data) by lia.
    cbn [doWrite_loop full_chunks after_chunks]. unfold write_log.
    cbn [flat_map].
    unfold bind at 1. unfold io at 1. cbn [fread].
    rewrite (zlength_take WRITE_MAX data) by lia.
    assert (H0 : (WRITE_MAX =? 0) = false) by (apply Z.eqb_neq; lia).
    rewrite H0.
    unfold bind at 1. unfold bind at 1. unfold io.
    unfold call_flWriteChannelAsync.
    pose proof (writes_accepted chan (take WRITE_MAX data)
                  (handle (emit (EvFread WRITE_MAX WRITE_MAX) w))) as Hacc.
    destruct (flWriteChannelAsync chan (take WRITE_MAX data)
                (handle (emit (EvFread WRITE_MAX WRITE_MAX) w)))
      as [st h]. cbn [fst] in Hacc. subst st.
    unfold CHECK_STATUS, bind, ret. cbn [fl_failed].
    rewrite Z.eqb_refl.
    destruct (IH fuel (drop WRITE_MAX data) (lenVal + WRITE_MAX)
                (cksum_chunk csVal (take WRITE_MAX data))
                (emit (EvWriteAsync chan (take WRITE_MAX data))
                   (with_handle h (emit (EvFread WRITE_MAX WRITE_MAX) w))))
      as (w' & Hrun & Hlog & Hfs).
    + lia.
    + rewrite zlength_drop by lia. lia.
    + exists w'. split; [|split].
      * rewrite Hrun. rewrite zlength_drop by lia.
        rewrite <- cksum_chunk_app, take_drop.
        replace (lenVal + WRITE_MAX + (zlength data - WRITE_MAX))
          with (lenVal + zlength data) by lia.
        reflexivity.
      * rewrite Hlog. cbn [log emit with_handle]. unfold write_log.
        rewrite <- !app_assoc. reflexivity.
      * rewrite Hfs. reflexivity.
Qed.


Lemma zlength_after_chunks (n : nat) :
  forall data : list Z,
    Z.of_nat n * WRITE_MAX <= zlength data ->
    zlength (after_chunks n data) = zlength data - Z.of_nat n * WRITE_MAX.
Proof.
  pose proof WRITE_MAX_pos as Hpos.
  induction n as [|n IH]; intros data H; cbn [after_chunks].
  - lia.
  - rewrite IH; rewrite zlength_drop; lia.
Qed.

(** [doWrite] on any source, with the number [n] of full chunks in it:
    the whole source is sent, and the length and checksum stored are those
    of the source. *)
Lemma doWrite_spec (n : nat) (data : list Z) (w : World T) :
  Z.of_nat n * WRITE_MAX <= zlength data < Z.of_nat n * WRITE_MAX + WRITE_MAX ->
  exists w',
    doWrite chan (RStream data) w
    = Done (RStream [], zlength data, calcChecksum data) w'
    /\ log w' = log w ++ write_log chan (full_chunks n data) (after_chunks n data)
                      ++ [EvAwaitWrites].
Proof.
  pose proof WRITE_MAX_pos as Hpos. intros Hlen.
  unfold doWrite. cbn [stream_size].
  destruct (doWrite_loop_spec n (write_fuel (zlength data)) data 0 0 w)
    as (w1 & Hrun & Hlog & _).
  - unfold write_fuel.
    assert (Z.of_nat n <= zlength data / WRITE_MAX)
      by (apply Z.div_le_lower_bound; lia).
    lia.
  - exact Hlen.
  - unfold bind at 1. rewrite Hrun. cbn [Z.add].
    unfold bind at 1. unfold io, call_flAwaitAsyncWrites.
    pose proof (barrier_succeeds (handle w1)) as Hb.
    destruct (flAwaitAsyncWrites (handle w1)) as [st h].
    cbn [fst] in Hb. subst st.
    unfold CHECK_STATUS, bind, ret. cbn [fl_failed].
    eexists. split; [reflexivity|].
    cbn [log emit with_handle]. rewrite Hlog, <- app_assoc. reflexivity.
Qed.

(** C4.  A file source whose length is [k] times [WRITE_MAX] (the empty
    source is [k = 0]): on a transport that accepts the writes, [doWrite]
    returns after [k] full reads, each submitted, and one more read that
    yields no byte and is not submitted; it stores the length and the
    checksum of the source.  For the empty source that is length 0 and
    checksum 0x0000, after the single zero-byte read. *)
Theorem doWrite_exact_multiple (k : nat) (data : list Z) (w : World T) :
  zlength data = Z.of_nat k * WRITE_MAX ->
  exists w',
    doWrite chan (RStream data) w
    = Done (RStream [], Z.of_nat k * WRITE_MAX, calcChecksum data) w'
    /\ log w'
       = log w
         ++ flat_map (fun c => [EvFread WRITE_MAX WRITE_MAX; EvWriteAsync chan c])
              (full_chunks k data)
         ++ [EvFread WRITE_MAX 0; EvAwaitWrites]
    /\ (k = 0%nat ->
        doWrite chan (RStream data) w = Done (RStream [], 0, 0) w'
        /\ log w' = log w ++ [EvFread WRITE_MAX 0; EvAwaitWrites]).
Proof.
  pose proof WRITE_MAX_pos as Hpos. intros Hlen.
  destruct (doWrite_spec k data w) as (w' & Hrun & Hlog); [lia|].
  assert (Hrest : after_chunks k data = []).
  { apply zlength_nil_inv. rewrite zlength_after_chunks; lia. }
  rewrite Hrest in Hlog. unfold write_log in Hlog.
  change (zlength (@nil Z)) with 0 in Hlog. cbn [Z.eqb] in Hlog.
  rewrite app_nil_r, <- !app_assoc in Hlog. cbn [app] in Hlog.
  exists w'. split; [|split].
  - rewrite Hrun, Hlen. reflexivity.
  - exact Hlog.
  - intros ->. cbn [Z.of_nat Z.mul] in Hlen.
    apply zlength_nil_inv in Hlen. subst data.
    split; [exact Hrun | exact Hlog].
Qed.

(** The checksum that [doWrite] stores is [calcChecksum] of the whole
    source, whatever its length: the chunking does not show. *)
Corollary doWrite_checksum (data : list Z) (w : World T) :
  exists w',
    doWrite chan (RStream data) w
    = Done (RStream [], zlength data, calcChecksum data) w'.
Proof.
  pose proof WRITE_MAX_pos as Hpos.
  pose proof (zlength_nonneg data) as Hnn.
  destruct (doWrite_spec (Z.to_nat (zlength data / WRITE_MAX)) data w)
    as (w' & Hrun & _).
  - rewrite Z2Nat.id by (apply Z.div_pos; lia).
    pose proof (Z.mul_div_le (zlength data) WRITE_MAX Hpos).
    pose proof (Z.mul_succ_div_gt (zlength data) WRITE_MAX Hpos).
    lia.
  - exists w'. exact Hrun.
Qed.

End WriteEngine.

(** The empty source on the simulated device. *)
Lemma doWrite_exact_multiple_witness :
  exists w',
    doWrite 5 (RStream []) (Sim.world [] 0) = Done (RStream [], 0, 0) w'
    /\ log w' = [EvFread WRITE_MAX 0; EvAwaitWrites].
Proof.
  destruct (@doWrite_exact_multiple Sim.T Sim.transport 5
              (fun _ _ _ => eq_refl FL_SUCCESS) (fun _ => eq_refl FL_SUCCESS)
              0%nat [] (Sim.world [] 0) eq_refl)
    as (w' & _ & _ & H).
  exists w'. exact (H eq_refl).
Defined.

(** [w5 'file.bin'] with an empty [file.bin], and with a [file.bin] of
    exactly [WRITE_MAX] bytes: the line succeeds after one, respectively
    two, reads. *)
Example w5_empty_file :
  option_map (fun o => (retVal o, log (final o)))
    (Sim.run "w5 'file.bin'" (Sim.world [("file.bin"%string, [])] 0))
  = Some (FLP_SUCCESS, [EvFread WRITE_MAX 0; EvAwaitWrites]).
Proof. vm_compute. reflexivity. Qed.

Example w5_one_full_chunk :
  option_map (fun o => (retVal o, map (fun e => match e with
                                          | EvWriteAsync c d => EvWriteAsync c []
                                          | _ => e
                                          end) (log (final o))))
    (Sim.run "w5 'file.bin'"
       (Sim.world [("file.bin"%string, repeat 7 (Z.to_nat WRITE_MAX))] 0))
  = Some (FLP_SUCCESS,
          [EvFread WRITE_MAX WRITE_MAX; EvWriteAsync 5 [];
           EvFread WRITE_MAX 0; EvAwaitWrites]).
Proof. vm_compute. reflexivity. Qed.

(* ===================================================================== *)
(** ** [doRead]: the order of the submits and awaits *)
(* ===================================================================== *)

Lemma prefix_of_nil {A} (l : list A) : prefix_of [] l.
Proof. exists l. reflexivity. Qed.

Lemma prefix_of_refl {A} (l : list A) : prefix_of l l.
Proof. exists []. rewrite app_nil_r. reflexivity. Qed.

Lemma prefix_of_app_l {A} (p a b : list A) :
  prefix_of p a -> prefix_of p (a ++ b).
Proof. intros [q ->]. exists (q ++ b). rewrite app_assoc. reflexivity. Qed.

Lemma prefix_of_app_r {A} (p a b : list A) :
  prefix_of p b -> prefix_of (a ++ p) (a ++ b).
Proof. intros [q ->]. exists q. rewrite app_assoc. reflexivity. Qed.

Lemma prefix_of_cons_inv {A} (p : list A) (x : A) (l : list A) :
  prefix_of p (x :: l) -> p = [] \/ exists p', p = x :: p' /\ prefix_of p' l.
Proof.
  intros [q H]. destruct p as [|y p]; [left; reflexivity|].
  right. cbn [app] in H. injection H as -> ->.
  exists p. split; [reflexivity | exists q; reflexivity].
Qed.

Lemma calls_app (a b : list Event) : calls (a ++ b) = calls a ++ calls b.
Proof. apply filter_app. Qed.

Section ReadEngine.

Context {T : Type} {transport : Transport T}.
Variables (chan : Z) (destFile : FILE).

Lemma traces_bind {A B} (m : M (World T) A) (k : A -> M (World T) B)
  (w : World T) (e1 e2 : list Event) :
  traces (m w) w e1 ->
  (forall a w1, m w = Done a w1 -> traces (k a w1) w1 e2) ->
  traces (bind m k w) w (e1 ++ e2).
Proof.
  unfold bind. intros H1 H2.
  destruct (m w) as [a w1 | rc w1 |]; cbn [traces] in *.
  - specialize (H2 a w1 eq_refl).
    destruct (k a w1) as [b w2 | rc w2 |]; cbn [traces] in *.
    + rewrite H2, H1, app_assoc. reflexivity.
    + destruct H2 as (p & Hp & E). exists (e1 ++ p). split.
      * apply prefix_of_app_r, Hp.
      * rewrite E, H1, app_assoc. reflexivity.
    + exact H2.
  - destruct H1 as (p & Hp & E). exists p. split; [|exact E].
    apply prefix_of_app_l, Hp.
  - exact H1.
Qed.

Lemma traces_check (c : bool) (rc : ReturnCode) (w : World T) :
  traces (CHECK_STATUS c rc w) w [].
Proof.
  unfold CHECK_STATUS, FAIL, ret. destruct c; cbn [traces].
  - exists []. split; [apply prefix_of_nil | rewrite app_nil_r; reflexivity].
  - rewrite app_nil_r. reflexivity.
Qed.

Lemma traces_ret {A} (a : A) (w : World T) : traces (ret a w) w [].
Proof. cbn. rewrite app_nil_r. reflexivity. Qed.

Lemma traces_submit (count : Z) (w : World T) :
  traces (io (call_flReadChannelAsyncSubmit chan count) w) w
    [EvReadSubmit chan count].
Proof.
  unfold io, call_flReadChannelAsyncSubmit.
  destruct (flReadChannelAsyncSubmit chan count (handle w)) as [st h].
  cbn [traces log emit with_handle]. rewrite calls_app. reflexivity.
Qed.

Lemma traces_await (w : World T) :
  traces (io call_flReadChannelAsyncAwait w) w [EvReadAwait].
Proof.
  unfold io, call_flReadChannelAsyncAwait.
  destruct (flReadChannelAsyncAwait (handle w)) as [[st d] h].
  cbn [traces log emit with_handle]. rewrite calls_app. reflexivity.
Qed.

Lemma traces_fwrite (data : list Z) (w : World T) :
  traces (io (fwrite data destFile) w) w [].
Proof.
  unfold io, fwrite. destruct destFile as [rest | name];
    cbn [traces log emit with_fs]; rewrite calls_app; reflexivity.
Qed.

Lemma traces_await_chunk (csVal : Z) (w : World T) :
  traces (await_chunk destFile csVal w) w [EvReadAwait].
Proof.
  unfold await_chunk.
  change [EvReadAwait] with ([EvReadAwait] ++ [] ++ [] ++ [] ++ @nil Event).
  apply traces_bind; [apply traces_await|]. intros [fStatus recvData] w1 _.
  apply traces_bind; [apply traces_check|]. intros _ w2 _.
  apply traces_bind; [apply traces_fwrite|]. intros bytesWritten w3 _.
  apply traces_bind; [apply traces_check|]. intros _ w4 _.
  apply traces_ret.
Qed.


Lemma read_chunk_min (length : Z) : read_chunk length = Z.min length READ_MAX.
Proof.
  unfold read_chunk. destruct (READ_MAX <=? length) eqn:E.
  - apply Z.leb_le in E. lia.
  - apply Z.leb_gt in E. lia.
Qed.

Lemma chunk_count_0 : chunk_count 0 = 0%nat.
Proof. reflexivity. Qed.

Lemma chunk_count_step (length : Z) :
  0 < length ->
  chunk_count length = S (chunk_count (length - Z.min length READ_MAX)).
Proof.
  intros Hpos. unfold chunk_count, READ_MAX.
  destruct (Z.le_gt_cases 65536 length) as [Hge | Hlt].
  - rewrite Z.min_r by lia.
    replace (length - 65536 + 65536 - 1) with (length + 65536 - 1 + (-1) * 65536)
      by lia.
    rewrite Z.div_add by lia.
    assert (1 <= (length + 65536 - 1) / 65536)
      by (apply Z.div_le_lower_bound; lia).
    lia.
  - rewrite Z.min_l by lia.
    replace (length - length + 65536 - 1) with 65535 by lia.
    replace ((length + 65536 - 1) / 65536) with 1; [reflexivity|].
    apply Z.div_unique with (r := length - 1); lia.
Qed.

Lemma uint32_small (x : Z) : 0 <= x < 2 ^ 32 -> uint32 x = x.
Proof. intros H. unfold uint32. apply Z.mod_small, H. Qed.

(** The loop makes, for each chunk of what remains, a submit and then the
    await of the chunk before. *)
Lemma traces_doRead_loop (fuel : nat) :
  forall (length csVal : Z) (w : World T),
    0 <= length < 2 ^ 32 ->
    (chunk_count length < fuel)%nat ->
    traces (doRead_loop fuel chan length destFile csVal w) w
      (flat_map (fun c => [EvReadSubmit chan c; EvReadAwait])
         (chunk_sizes (chunk_count length) length)).
Proof.
  induction fuel as [|fuel IH]; intros length csVal w Hlen Hfuel; [lia|].
  cbn [doRead_loop]. destruct (length =? 0) eqn:Hzero.
  - apply Z.eqb_eq in Hzero. subst length. rewrite chunk_count_0.
    apply traces_ret.
  - apply Z.eqb_neq in Hzero.
    rewrite chunk_count_step in Hfuel |- * by lia.
    cbn [chunk_sizes flat_map]. rewrite read_chunk_min.
    set (c := Z.min length READ_MAX) in *.
    assert (Hc : 0 < c <= length) by (unfold c, READ_MAX; lia).
    rewrite uint32_small by lia.
    change ([EvReadSubmit chan c; EvReadAwait] ++ ?l)
      with ([EvReadSubmit chan c] ++ [] ++ [EvReadAwait] ++ l).
    apply traces_bind; [apply traces_submit|]. intros fStatus w1 _.
    apply traces_bind; [apply traces_check|]. intros _ w2 _.
    apply traces_bind; [apply traces_await_chunk|]. intros csVal' w3 _.
    apply IH; lia.
Qed.

(** The transport calls of [doRead] are the schedule, or an initial part
    of it when a call or a file write fails. *)
Lemma traces_doRead (length : Z) (w : World T) :
  0 <= length < 2 ^ 32 ->
  traces (doRead chan length destFile w) w (read_schedule chan length).
Proof.
  intros Hlen. unfold doRead, read_schedule, read_chunks, overlap.
  rewrite read_chunk_min.
  set (c := Z.min length READ_MAX) in *.
  assert (Hc : 0 <= c <= length) by (unfold c, READ_MAX; lia).
  rewrite uint32_small by lia.
  change (EvReadSubmit chan c :: ?l) with ([EvReadSubmit chan c] ++ [] ++ l).
  apply traces_bind; [apply traces_submit|]. intros fStatus w1 _.
  apply traces_bind; [apply traces_check|]. intros _ w2 _.
  apply traces_bind.
  - apply traces_doRead_loop; [lia|].
    unfold read_fuel, chunk_count, READ_MAX.
    assert ((length - c + 65536 - 1) / 65536 <= (length - c) / 65536 + 1).
    { replace (length - c + 65536 - 1) with (length - c - 1 + 1 * 65536) by lia.
      rewrite Z.div_add by lia.
      assert ((length - c - 1) / 65536 <= (length - c) / 65536)
        by (apply Z.div_le_mono; lia).
      lia. }
    assert (0 <= (length - c) / 65536) by (apply Z.div_pos; lia).
    lia.
  - intros csVal w3 _. apply traces_await_chunk.
Qed.

Lemma prefix_of_nil_inv {A} (p : list A) : prefix_of p [] -> p = [].
Proof.
  intros [q H]. destruct p; [reflexivity | discriminate H].
Qed.

(** After the first submit, the number in flight moves between one less
    and one more. *)
Lemma in_flight_overlap (later : list Z) :
  forall p, prefix_of p (overlap chan later) -> -1 <= in_flight p <= 1.
Proof.
  unfold overlap.
  induction later as [|c later IH]; intros p Hp; cbn [flat_map app] in Hp.
  - apply prefix_of_cons_inv in Hp as [-> | (p' & -> & Hp')]; cbn [in_flight].
    + lia.
    + apply prefix_of_nil_inv in Hp'. subst p'. cbn [in_flight]. lia.
  - apply prefix_of_cons_inv in Hp as [-> | (p1 & -> & Hp1)]; cbn [in_flight].
    + lia.
    + apply prefix_of_cons_inv in Hp1 as [-> | (p2 & -> & Hp2)];
        cbn [in_flight].
      * lia.
      * specialize (IH p2 Hp2). lia.
Qed.

(** At every point of the schedule at most two chunks are in flight. *)
Lemma in_flight_schedule (length : Z) :
  forall p, prefix_of p (read_schedule chan length) -> 0 <= in_flight p <= 2.
Proof.
  intros p Hp. unfold read_schedule, read_chunks in Hp.
  apply prefix_of_cons_inv in Hp as [-> | (p' & -> & Hp')]; cbn [in_flight].
  - lia.
  - apply in_flight_overlap in Hp'. lia.
Qed.

(** A read of more than [READ_MAX] bytes starts with two submits. *)
Lemma read_schedule_two_submits (length : Z) :
  READ_MAX < length ->
  prefix_of [EvReadSubmit chan READ_MAX;
             EvReadSubmit chan (Z.min (length - READ_MAX) READ_MAX)]
    (read_schedule chan length).
Proof.
  intros Hlong. unfold read_schedule, read_chunks.
  rewrite (Z.min_r length READ_MAX) by lia.
  rewrite chunk_count_step by lia.
  cbn [chunk_sizes]. unfold overlap. cbn [flat_map app].
  eexists. reflexivity.
Qed.

(** The chunks of a read add up to its length. *)
Lemma chunk_sizes_sum (n : nat) :
  forall remaining : Z,
    0 <= remaining ->
    chunk_count remaining = n ->
    fold_right Z.add 0 (chunk_sizes n remaining) = remaining.
Proof.
  induction n as [|n IH]; intros remaining Hnn Hcount.
  - destruct (Z.eq_dec remaining 0) as [-> | Hne]; [reflexivity|].
    rewrite chunk_count_step in Hcount by lia. discriminate Hcount.
  - destruct (Z.eq_dec remaining 0) as [-> | Hne].
    + rewrite chunk_count_0 in Hcount. discriminate Hcount.
    + rewrite chunk_count_step in Hcount by lia. injection Hcount as Hcount.
      cbn [chunk_sizes fold_right]. rewrite IH.
      * lia.
      * unfold READ_MAX. lia.
      * exact Hcount.
Qed.

Lemma read_chunks_sum (length : Z) :
  0 <= length -> fold_right Z.add 0 (read_chunks length) = length.
Proof.
  intros Hnn. unfold read_chunks. cbn [fold_right].
  rewrite chunk_sizes_sum; [lia | unfold READ_MAX; lia | reflexivity].
Qed.

(** C5.  The order of the calls of [doRead] for a read of more than [READ_MAX]
    bytes: submit(0); then, for each later chunk, submit(N+1) followed by
    await(N); then the last await, with no submit after it.  Every chunk
    is the smaller of what remains and [READ_MAX] ([read_chunks]).  If a
    call or a file write fails, the calls made are an initial part of
    that order.  At every point at most two chunks are submitted and not
    yet awaited, and two are, right after the second submit. *)
Theorem doRead_schedule (length : Z) (w : World T) :
  0 <= length < 2 ^ 32 ->
  READ_MAX < length ->
  traces (doRead chan length destFile w) w (read_schedule chan length)
  /\ (forall p, prefix_of p (read_schedule chan length) ->
                0 <= in_flight p <= 2)
  /\ (exists p, prefix_of p (read_schedule chan length) /\ in_flight p = 2)
  /\ fold_right Z.add 0 (read_chunks length) = length.
Proof.
  intros Hrange Hlong. split; [|split; [|split]].
  - apply traces_doRead, Hrange.
  - apply in_flight_schedule.
  - eexists. split; [apply read_schedule_two_submits, Hlong | reflexivity].
  - apply read_chunks_sum. lia.
Qed.

End ReadEngine.

(** A read of 65537 bytes into a file on the simulated device. *)
Lemma doRead_schedule_witness :
  traces (doRead 1 65537 (WStream "out") (Sim.world [] 65537))
    (Sim.world [] 65537) (read_schedule 1 65537)
  /\ (forall p, prefix_of p (read_schedule 1 65537) -> 0 <= in_flight p <= 2)
  /\ (exists p, prefix_of p (read_schedule 1 65537) /\ in_flight p = 2)
  /\ fold_right Z.add 0 (read_chunks 65537) = 65537.
Proof.
  apply (@doRead_schedule Sim.T Sim.transport 1 (WStream "out") 65537
           (Sim.world [] 65537)).
  - lia.
  - unfold READ_MAX. lia.
Defined.

(** That read succeeds with the calls submit, submit, await, await: after
    the second submit two chunks are submitted and not yet awaited, so it
    is not so that at most one ever is. *)
Lemma doRead_two_in_flight :
  calls (log_of (doRead 1 65537 (WStream "out") (Sim.world [] 65537)))
  = [EvReadSubmit 1 65536; EvReadSubmit 1 1; EvReadAwait; EvReadAwait]
  /\ ~ (forall p,
          prefix_of p
            (calls (log_of (doRead 1 65537 (WStream "out") (Sim.world [] 65537)))) ->
          in_flight p <= 1).
Proof.
  assert (E : calls (log_of (doRead 1 65537 (WStream "out") (Sim.world [] 65537)))
              = [EvReadSubmit 1 65536; EvReadSubmit 1 1; EvReadAwait; EvReadAwait])
    by (vm_compute; reflexivity).
  split; [exact E|].
  intros H. rewrite E in H.
  specialize (H [EvReadSubmit 1 65536; EvReadSubmit 1 1]).
  cbn [in_flight] in H. assert (2 <= 1); [|lia].
  apply H. exists [EvReadAwait; EvReadAwait]. reflexivity.
Qed.

(* ===================================================================== *)
(** ** Every call returns: the loop fuel of the model is enough *)
(* ===================================================================== *)

(** The cursor only moves forward: what is left of the line gets no
    longer. *)
Create HintDb forward discriminated.

Lemma next_le (p q : cstring) :
  (List.length p <= List.length q)%nat ->
  (List.length (next p) <= List.length q)%nat.
Proof. destruct p; cbn [next List.length]; lia. Qed.

Lemma next_lt (p : cstring) :
  p <> [] -> (List.length (next p) < List.length p)%nat.
Proof. destruct p; [congruence | cbn [next List.length]; lia]. Qed.

Lemma skip_space_le (p q : cstring) :
  (List.length p <= List.length q)%nat ->
  (List.length (Libc.skip_space p) <= List.length q)%nat.
Proof.
  intros H. induction p as [|c p IH]; cbn [Libc.skip_space]; [exact H|].
  destruct (Libc.isspace c); [|exact H].
  apply IH. cbn [List.length] in H. lia.
Qed.

Lemma digits_le (p : cstring) :
  forall (acc : Z) (overflow : bool) (q : cstring),
    (List.length p <= List.length q)%nat ->
    (List.length (snd (Libc.digits acc overflow p)) <= List.length q)%nat.
Proof.
  induction p as [|c p IH]; intros acc overflow q H; cbn [Libc.digits].
  - exact H.
  - destruct (Libc.digit16 c) as [d|]; [|exact H].
    cbn [List.length] in H.
    destruct (overflow || (Libc.ULONG_MAX <? acc * 16 + d)); apply IH; lia.
Qed.

Lemma strtoul16_end_le (einval : bool) (p q : cstring) :
  (List.length p <= List.length q)%nat ->
  (List.length (Libc.st_end (Libc.strtoul16 einval p)) <= List.length q)%nat.
Proof.
  intros H. unfold Libc.strtoul16.
  set (s := Libc.skip_space p).
  assert (Hs : (List.length s <= List.length q)%nat)
    by (apply skip_space_le, H).
  set (s1 := if char_eqb (deref s) "-" || char_eqb (deref s) "+"
             then next s else s).
  assert (Hs1 : (List.length s1 <= List.length q)%nat).
  { unfold s1. destruct (char_eqb (deref s) "-" || char_eqb (deref s) "+");
      [apply next_le|]; exact Hs. }
  set (s2 := if char_eqb (deref s1) "0"
                && (char_eqb (deref (next s1)) "x"
                    || char_eqb (deref (next s1)) "X")
                && Libc.is_digit16 (deref (next (next s1)))
             then next (next s1) else s1).
  assert (Hs2 : (List.length s2 <= List.length q)%nat).
  { unfold s2. destruct (_ && _); [apply next_le, next_le|]; exact Hs1. }
  clearbody s2.
  destruct (Libc.is_digit16 (deref s2)); [|exact H].
  pose proof (digits_le s2 0 false q Hs2) as Hd.
  destruct (Libc.digits 0 false s2) as [[v overflow] e]. cbn [snd] in Hd.
  destruct overflow; exact Hd.
Qed.

Lemma skip_semis_le (p q : cstring) :
  (List.length p <= List.length q)%nat ->
  (List.length (skip_semis p) <= List.length q)%nat.
Proof.
  intros H. induction p as [|c p IH]; cbn [skip_semis]; [exact H|].
  destruct (char_eqb c ";"); [|exact H].
  apply IH. cbn [List.length] in H. lia.
Qed.

Lemma scan_quote_le (quoteChar : ascii) (p q : cstring) :
  (List.length p <= List.length q)%nat ->
  (List.length (scan_quote quoteChar p) <= List.length q)%nat.
Proof.
  intros H. induction p as [|c p IH]; cbn [scan_quote]; [exact H|].
  destruct (negb (char_eqb c quoteChar) && negb (char_eqb c NUL)); [|exact H].
  apply IH. cbn [List.length] in H. lia.
Qed.

Lemma scan_hex_le (p q : cstring) :
  (List.length p <= List.length q)%nat ->
  (List.length (scan_hex p) <= List.length q)%nat.
Proof.
  intros H. induction p as [|c p IH]; cbn [scan_hex]; [exact H|].
  destruct (isHexDigit c); [|exact H].
  apply IH. cbn [List.length] in H. lia.
Qed.

Lemma hex_bytes_le (n : nat) :
  forall p q : cstring,
    (List.length p <= List.length q)%nat ->
    (List.length (snd (hex_bytes n p)) <= List.length q)%nat.
Proof.
  induction n as [|n IH]; intros p q H; cbn [hex_bytes].
  - exact H.
  - specialize (IH (next (next p)) q (next_le _ _ (next_le _ _ H))).
    destruct (hex_bytes n (next (next p))) as [bs p']. exact IH.
Qed.

#[local] Hint Resolve next_le skip_space_le strtoul16_end_le skip_semis_le
  scan_quote_le scan_hex_le hex_bytes_le Nat.le_refl : forward.

Lemma quoted_name_forward (quoteChar : ascii) (p q : cstring) :
  (List.length p <= List.length q)%nat ->
  moves_forward (quoted_name quoteChar p) q.
Proof.
  intros H. unfold quoted_name. mstep.
  destruct (char_eqb (deref (scan_quote quoteChar p)) NUL); [exact I|].
  destruct (ptrdiff (scan_quote quoteChar p) p =? 0); [exact I|].
  cbn [moves_forward]. auto with forward.
Qed.

Section Termination.

Context {T : Type} {transport : Transport T}.
Variable einval : bool.

Lemma read_fields_forward (p : cstring) :
  moves_forward (read_fields einval p) (next p).
Proof.
  unfold read_fields. mstep.
  set (r := Libc.strtoul16 einval (next p)).
  assert (Hr : (List.length (Libc.st_end r) <= List.length (next p))%nat)
    by (unfold r; auto with forward).
  clearbody r.
  destruct (negb (Libc.st_errno r =? 0)); [exact I|].
  destruct (127 <? uint32 (Libc.st_value r)); [exact I|].
  destruct (not_end_semi_space (deref (Libc.st_end r))); [exact I|].
  destruct (char_eqb (deref (Libc.st_end r)) " "); [|exact Hr].
  set (r2 := Libc.strtoul16 einval (next (Libc.st_end r))).
  assert (Hr2 : (List.length (Libc.st_end r2) <= List.length (next p))%nat)
    by (unfold r2; auto with forward).
  clearbody r2.
  destruct (negb (Libc.st_errno r2 =? 0)); [exact I|].
  destruct (not_end_semi_space (deref (Libc.st_end r2))); [exact I|].
  destruct (char_eqb (deref (Libc.st_end r2)) " "); [|exact Hr2].
  destruct (negb (char_eqb (deref (next (Libc.st_end r2))) DQUOTE)
            && negb (char_eqb (deref (next (Libc.st_end r2))) "'"));
    [exact I|].
  pose proof (quoted_name_forward (deref (next (Libc.st_end r2)))
                (next (next (Libc.st_end r2))) (next p)) as Hq.
  destruct (quoted_name (deref (next (Libc.st_end r2)))
              (next (next (Libc.st_end r2)))) as [name p' | rc p' |];
    cbn [moves_forward] in *; auto with forward.
Qed.

Lemma write_fields_forward (p : cstring) :
  moves_forward (write_fields einval p) (next p).
Proof.
  unfold write_fields. mstep.
  set (r := Libc.strtoul16 einval (next p)).
  assert (Hr : (List.length (Libc.st_end r) <= List.length (next p))%nat)
    by (unfold r; auto with forward).
  clearbody r.
  destruct (negb (Libc.st_errno r =? 0)); [exact I|].
  destruct (127 <? Libc.st_value r); [exact I|].
  destruct (negb (char_eqb (deref (Libc.st_end r)) " ")); [exact I|].
  set (ptr0 := next (Libc.st_end r)).
  assert (H0 : (List.length ptr0 <= List.length (next p))%nat)
    by (unfold ptr0; auto with forward).
  clearbody ptr0.
  destruct (char_eqb (deref ptr0) DQUOTE || char_eqb (deref ptr0) "'").
  - pose proof (quoted_name_forward (deref ptr0) (next ptr0) (next p)) as Hq.
    destruct (quoted_name (deref ptr0) (next ptr0)) as [name p' | rc p' |];
      cbn [moves_forward] in *; auto with forward.
  - destruct (isHexDigit (deref ptr0)); [|exact I].
    destruct (negb (Z.land (ptrdiff (scan_hex (next ptr0)) ptr0) 1 =? 0));
      [exact I|].
    pose proof (hex_bytes_le
                  (Z.to_nat (ptrdiff (scan_hex (next ptr0)) ptr0 / 2))
                  ptr0 (next p) H0) as Hb.
    destruct (hex_bytes (Z.to_nat (ptrdiff (scan_hex (next ptr0)) ptr0 / 2)) ptr0)
      as [data p'].
    exact Hb.
Qed.

Lemma conduit_field_forward (p : cstring) :
  moves_forward (conduit_field einval p) (next p).
Proof.
  unfold conduit_field. mstep.
  set (r := Libc.strtoul16 einval (next p)).
  assert (Hr : (List.length (Libc.st_end r) <= List.length (next p))%nat)
    by (unfold r; auto with forward).
  clearbody r.
  destruct (negb (Libc.st_errno r =? 0)); [exact I|].
  destruct (255 <? uint32 (Libc.st_value r)); [exact I|].
  destruct (negb (char_eqb (deref (Libc.st_end r)) NUL)
            && negb (char_eqb (deref (Libc.st_end r)) ";")); [exact I|].
  exact Hr.
Qed.

(** The length that [read_fields] hands over is a [uint32]. *)
Lemma read_fields_length (p0 p : cstring) (chan length : Z)
  (fileName : option string) :
  read_fields einval p0 = Done (chan, length, fileName) p ->
  0 <= length < 2 ^ 32.
Proof.
  unfold read_fields. mstep.
  set (r := Libc.strtoul16 einval (next p0)). clearbody r.
  destruct (negb (Libc.st_errno r =? 0)); [discriminate|].
  destruct (127 <? uint32 (Libc.st_value r)); [discriminate|].
  destruct (not_end_semi_space (deref (Libc.st_end r))); [discriminate|].
  destruct (char_eqb (deref (Libc.st_end r)) " ").
  - set (r2 := Libc.strtoul16 einval (next (Libc.st_end r))). clearbody r2.
    assert (Hu : 0 <= uint32 (Libc.st_value r2) < 2 ^ 32)
      by (unfold uint32; apply Z.mod_pos_bound; reflexivity).
    destruct (negb (Libc.st_errno r2 =? 0)); [discriminate|].
    destruct (not_end_semi_space (deref (Libc.st_end r2))); [discriminate|].
    destruct (char_eqb (deref (Libc.st_end r2)) " ").
    + destruct (negb (char_eqb (deref (next (Libc.st_end r2))) DQUOTE)
                && negb (char_eqb (deref (next (Libc.st_end r2))) "'"));
        [discriminate|].
      destruct (quoted_name (deref (next (Libc.st_end r2)))
                  (next (next (Libc.st_end r2)))); try discriminate.
      intros H. injection H as _ <- _ _. exact Hu.
    + intros H. injection H as _ <- _ _. exact Hu.
  - intros H. injection H as _ <- _ _. split; [discriminate | reflexivity].
Qed.

(** [doRead] returns. *)
Lemma doRead_returns (chan length : Z) (destFile : FILE) (w : World T) :
  0 <= length < 2 ^ 32 ->
  doRead chan length destFile w <> Fuel.
Proof.
  intros Hrange Hfuel.
  pose proof (traces_doRead chan destFile length w Hrange) as H.
  rewrite Hfuel in H. exact H.
Qed.

(** The loop of [doWrite] returns, whatever the transport answers. *)
Lemma doWrite_loop_returns (chan : Z) (fuel : nat) :
  forall (srcFile : FILE) (lenVal csVal : Z) (w : World T),
    stream_size srcFile < Z.of_nat fuel * WRITE_MAX ->
    doWrite_loop fuel chan srcFile lenVal csVal w <> Fuel.
Proof.
  pose proof WRITE_MAX_pos as Hpos.
  induction fuel as [|fuel IH]; intros srcFile lenVal csVal w Hsize.
  - destruct srcFile as [rest | name]; cbn [stream_size] in Hsize.
    + pose proof (zlength_nonneg rest). lia.
    + lia.
  - cbn [doWrite_loop]. unfold bind at 1. unfold io at 1.
    destruct srcFile as [rest | name]; cbn [fread stream_size] in *.
    + pose proof (zlength_nonneg rest) as Hnn.
      destruct (zlength (take WRITE_MAX rest) =? 0) eqn:Hzero.
      * unfold bind, ret.
        destruct (zlength (take WRITE_MAX rest) =? WRITE_MAX) eqn:Hfull;
          [|discriminate].
        apply Z.eqb_eq in Hzero, Hfull. lia.
      * unfold bind at 1. unfold bind at 1. unfold io.
        destruct (call_flWriteChannelAsync chan (take WRITE_MAX rest)
                    (emit (EvFread WRITE_MAX (zlength (take WRITE_MAX rest))) w))
          as [[] w1]; unfold CHECK_STATUS, FAIL, bind, ret; cbn [fl_failed];
          [|discriminate].
        destruct (zlength (take WRITE_MAX rest) =? WRITE_MAX) eqn:Hfull;
          [|discriminate].
        apply Z.eqb_eq in Hfull. apply IH. cbn [stream_size].
        destruct (Z.le_gt_cases WRITE_MAX (zlength rest)) as [Hge | Hlt].
        -- rewrite zlength_drop by lia. lia.
        -- rewrite take_all in Hfull by lia. lia.
    + unfold bind, ret. change (zlength (@nil Z)) with 0. cbn [Z.eqb].
      destruct (0 =? WRITE_MAX) eqn:Hfull; [|discriminate].
      apply Z.eqb_eq in Hfull. lia.
Qed.

(** [doWrite] returns. *)
Lemma doWrite_returns (chan : Z) (srcFile : FILE) (w : World T) :
  doWrite chan srcFile w <> Fuel.
Proof.
  pose proof WRITE_MAX_pos as Hpos.
  unfold doWrite. unfold bind at 1.
  pose proof (doWrite_loop_returns chan (write_fuel (stream_size srcFile))
                srcFile 0 0 w) as Hloop.
  destruct (doWrite_loop (write_fuel (stream_size srcFile)) chan srcFile 0 0 w)
    as [[[f lenVal] csVal] w1 | rc w1 |].
  - unfold bind, io. destruct (call_flAwaitAsyncWrites w1) as [[] w2];
      unfold CHECK_STATUS, FAIL, bind, ret; cbn [fl_failed]; discriminate.
  - discriminate.
  - exfalso. apply Hloop; [|reflexivity].
    unfold write_fuel.
    assert (Hnn : 0 <= stream_size srcFile)
      by (destruct srcFile; cbn [stream_size]; [apply zlength_nonneg | lia]).
    pose proof (Z.mul_succ_div_gt (stream_size srcFile) WRITE_MAX Hpos).
    assert (0 <= stream_size srcFile / WRITE_MAX) by (apply Z.div_pos; lia).
    lia.
Qed.

Lemma read_to_memory_keeps (chan length : Z) (s : PState T) :
  keeps_cursor (read_to_memory chan length s) s.
Proof.
  rewrite read_to_memory_run.
  destruct (flReadChannel (uint8 chan) length (handle (world s)))
    as [[[] received] h]; cbn [fl_failed keeps_cursor ptr]; auto.
Qed.

Lemma write_inline_keeps (chan : Z) (data : list Z) (s : PState T) :
  keeps_cursor (write_inline chan data s) s.
Proof.
  rewrite write_inline_run.
  destruct (flWriteChannel (uint8 chan) data (handle (world s)))
    as [[] h]; cbn [fl_failed keeps_cursor ptr]; auto.
Qed.

Lemma read_to_file_keeps (chan length : Z) (fileName : string) (s : PState T) :
  0 <= length < 2 ^ 32 ->
  keeps_cursor (read_to_file chan length fileName s) s.
Proof.
  intros Hrange. unfold read_to_file, bind, lift, io.
  destruct (fopen_wb fileName (world s)) as [[file|] w1];
    cbn [world ptr dataFromFPGA]; [|exact I].
  pose proof (doRead_returns (uint8 chan) length file w1 Hrange) as Hret.
  destruct (doRead (uint8 chan) length file w1) as [cs w2 | rc w2 |];
    cbn [keeps_cursor ret ptr]; auto.
Qed.

Lemma write_from_file_keeps (chan : Z) (fileName : string) (s : PState T) :
  keeps_cursor (write_from_file chan fileName s) s.
Proof.
  unfold write_from_file, bind, lift.
  destruct (fopen_rb fileName (world s)) as [file|];
    cbn [world ptr dataFromFPGA]; [|exact I].
  pose proof (doWrite_returns (uint8 chan) file (world s)) as Hret.
  destruct (doWrite (uint8 chan) file (world s)) as [r w2 | rc w2 |];
    cbn [keeps_cursor ret ptr]; auto.
Qed.

(** An action that is read off the line and then carried out with the
    cursor kept has moved the cursor on. *)
Lemma advances_parsing {A B} (m : Parser A) (k : A -> M (PState T) B)
  (s : PState T) :
  moves_forward (m (ptr s)) (next (ptr s)) ->
  (forall a p, m (ptr s) = Done a p ->
               keeps_cursor
                 (k a {| ptr := p; dataFromFPGA := dataFromFPGA s; world := world s |})
                 {| ptr := p; dataFromFPGA := dataFromFPGA s; world := world s |}) ->
  advances (bind (parsing m) k s) s.
Proof.
  intros Hm Hk. unfold bind, parsing.
  destruct (m (ptr s)) as [a p | rc p |]; cbn [moves_forward] in Hm.
  - specialize (Hk a p eq_refl).
    destruct (k a _) as [b s' | rc s' |]; cbn [keeps_cursor advances ptr] in *.
    + rewrite Hk. exact Hm.
    + exact I.
    + exact Hk.
  - exact I.
  - exact Hm.
Qed.

Lemma action_read_advances (s : PState T) : advances (action_read einval s) s.
Proof.
  unfold action_read. apply advances_parsing.
  - apply read_fields_forward.
  - intros [[chan length] [fileName|]] p Hfields.
    + apply read_to_file_keeps. exact (read_fields_length _ _ _ _ _ Hfields).
    + apply read_to_memory_keeps.
Qed.

Lemma action_write_advances (s : PState T) : advances (action_write einval s) s.
Proof.
  unfold action_write. apply advances_parsing.
  - apply write_fields_forward.
  - intros [chan [fileName | data]] p _.
    + apply write_from_file_keeps.
    + apply write_inline_keeps.
Qed.

Lemma action_conduit_advances (s : PState T) :
  advances (action_conduit einval s) s.
Proof.
  unfold action_conduit. apply advances_parsing.
  - apply conduit_field_forward.
  - intros conduit p _. unfold bind, lift, io. cbn [world ptr dataFromFPGA].
    destruct (call_flSelectConduit (uint8 conduit) (world s)) as [[] w1];
      unfold CHECK_STATUS, FAIL, ret; cbn [fl_failed keeps_cursor ptr]; auto.
Qed.

Lemma dispatch_advances (s : PState T) : advances (dispatch einval s) s.
Proof.
  unfold dispatch.
  destruct (char_eqb (deref (ptr s)) "r"); [apply action_read_advances|].
  destruct (char_eqb (deref (ptr s)) "w"); [apply action_write_advances|].
  destruct (char_eqb (deref (ptr s)) "+"); [apply action_conduit_advances|].
  exact I.
Qed.



End Termination.

(* ===================================================================== *)
(** ** [strtoul]: what it takes in front of the digits *)
(* ===================================================================== *)

Lemma digit16_plain (d : ascii) :
  Libc.is_digit16 d = true ->
  Libc.isspace d = false
  /\ char_eqb d "-" = false
  /\ char_eqb d "+" = false.
Proof.
  destruct d as [[] [] [] [] [] [] [] []]; vm_compute; intros H;
    first [discriminate H | repeat split].
Qed.

Lemma digit16_isHexDigit (c : ascii) : Libc.is_digit16 c = isHexDigit c.
Proof. destruct c as [[] [] [] [] [] [] [] []]; reflexivity. Qed.

(** White space in front of a numeral is skipped: the value and [errno]
    are those of the numeral, and so is the end unless there is no digit
    (then the end is the start, white space included). *)
Lemma strtoul16_leading_space (einval : bool) (c : ascii) (p : cstring) :
  Libc.isspace c = true ->
  Libc.st_value (Libc.strtoul16 einval (c :: p))
  = Libc.st_value (Libc.strtoul16 einval p)
  /\ Libc.st_errno (Libc.strtoul16 einval (c :: p))
     = Libc.st_errno (Libc.strtoul16 einval p)
  /\ (Libc.st_end (Libc.strtoul16 einval (c :: p))
      = Libc.st_end (Libc.strtoul16 einval p)
      \/ (Libc.st_end (Libc.strtoul16 einval p) = p
          /\ Libc.st_end (Libc.strtoul16 einval (c :: p)) = c :: p)).
Proof.
  intros Hc. unfold Libc.strtoul16. cbn [Libc.skip_space]. rewrite Hc.
  set (s := Libc.skip_space p).
  set (s1 := if char_eqb (deref s) "-" || char_eqb (deref s) "+"
             then next s else s).
  set (s2 := if char_eqb (deref s1) "0"
                && (char_eqb (deref (next s1)) "x"
                    || char_eqb (deref (next s1)) "X")
                && Libc.is_digit16 (deref (next (next s1)))
             then next (next s1) else s1).
  destruct (Libc.is_digit16 (deref s2)).
  - destruct (Libc.digits 0 false s2) as [[v overflow] e].
    destruct overflow; cbn; auto.
  - cbn. auto.
Qed.

(** A [+] in front of the digits is taken with them. *)
Lemma strtoul16_leading_plus (einval : bool) (d : ascii) (p : cstring) :
  Libc.is_digit16 d = true ->
  Libc.strtoul16 einval ("+" :: d :: p) = Libc.strtoul16 einval (d :: p).
Proof.
  intros Hd. destruct (digit16_plain d Hd) as (Hspace & Hminus & Hplus).
  unfold Libc.strtoul16. cbn [Libc.skip_space].
  change (Libc.isspace "+") with false. rewrite Hspace. cbv iota.
  cbn [deref next].
  change (char_eqb "+" "-") with false. change (char_eqb "+" "+") with true.
  rewrite Hminus, Hplus. cbn [orb]. cbv iota. cbn [deref next].
  match goal with
  | |- context [Libc.is_digit16 (deref (if ?c then ?a else ?b))] =>
      assert (Hs2 : Libc.is_digit16 (deref (if c then a else b)) = true)
  end.
  { match goal with |- context [if ?c then _ else _] => destruct c eqn:Hpre end.
    - apply andb_true_iff in Hpre as [_ Hpre]. exact Hpre.
    - exact Hd. }
  rewrite !Hs2. reflexivity.
Qed.

(** On a C library that leaves [errno] alone when there is no digit,
    [strtoul] sets [errno] only when the digits overflow. *)
Lemma strtoul16_errno (p : cstring) :
  Libc.st_errno (Libc.strtoul16 false p) <> 0 ->
  Libc.st_errno (Libc.strtoul16 false p) = Libc.ERANGE
  /\ Libc.st_value (Libc.strtoul16 false p) = Libc.ULONG_MAX.
Proof.
  unfold Libc.strtoul16.
  set (s := Libc.skip_space p).
  set (s1 := if char_eqb (deref s) "-" || char_eqb (deref s) "+"
             then next s else s).
  set (s2 := if char_eqb (deref s1) "0"
                && (char_eqb (deref (next s1)) "x"
                    || char_eqb (deref (next s1)) "X")
                && Libc.is_digit16 (deref (next (next s1)))
             then next (next s1) else s1).
  destruct (Libc.is_digit16 (deref s2)).
  - destruct (Libc.digits 0 false s2) as [[v overflow] e].
    destruct overflow; cbn; intros H; [split; reflexivity | congruence].
  - cbn. congruence.
Qed.

(** A pair of hex digits is a byte: the bytes of an inline run that
    [write_fields] has scanned are all read. *)
Lemma getHexByte_digits (a b : ascii) (p : cstring) :
  isHexDigit a = true -> isHexDigit b = true ->
  exists byte, getHexByte (a :: b :: p) = Some byte /\ 0 <= byte < 256.
Proof.
  intros Ha Hb. unfold getHexByte. cbn [deref next].
  assert (Hn : forall c, isHexDigit c = true ->
                         exists n, getHexNibble c = Some n).
  { intros c. destruct c as [[] [] [] [] [] [] [] []]; vm_compute;
      intros H; first [discriminate H | eexists; reflexivity]. }
  destruct (Hn a Ha) as [na ->]. destruct (Hn b Hb) as [nb ->].
  eexists. split; [reflexivity|].
  unfold uint8. apply Z.mod_pos_bound. reflexivity.
Qed.

(** A [0x] or [0X] in front of the digits is taken with them. *)
Lemma strtoul16_leading_0x (einval : bool) (x d : ascii) (p : cstring) :
  x = "x" \/ x = "X" ->
  Libc.is_digit16 d = true ->
  char_eqb d "0" = false ->
  Libc.strtoul16 einval ("0" :: x :: d :: p) = Libc.strtoul16 einval (d :: p).
Proof.
  intros Hx Hd Hd0. destruct (digit16_plain d Hd) as (Hspace & Hminus & Hplus).
  assert (Hpre : char_eqb x "x" || char_eqb x "X" = true)
    by (destruct Hx as [-> | ->]; reflexivity).
  unfold Libc.strtoul16. cbn [Libc.skip_space].
  change (Libc.isspace "0") with false. rewrite Hspace. cbv iota.
  cbn [deref next].
  change (char_eqb "0" "-") with false. change (char_eqb "0" "+") with false.
  rewrite Hminus, Hplus. cbn [orb]. cbv iota. cbn [deref next].
  change (char_eqb "0" "0") with true.
  rewrite Hpre, Hd, Hd0. cbn [orb andb]. cbv iota.
  cbn [deref next]. rewrite Hd. reflexivity.
Qed.

(* ===================================================================== *)
(** ** Hex digits and bytes *)
(* ===================================================================== *)

Lemma getHexNibble_digit16 (c : ascii) : getHexNibble c = Libc.digit16 c.
Proof. destruct c as [[] [] [] [] [] [] [] []]; reflexivity. Qed.

Lemma digit16_range (c : ascii) (n : Z) :
  Libc.digit16 c = Some n -> 0 <= n < 16.
Proof.
  destruct c as [[] [] [] [] [] [] [] []]; vm_compute; intros H;
    first [discriminate H | injection H as <-; split; [discriminate | reflexivity]].
Qed.

Lemma nibbles_byte (high low : Z) :
  0 <= high < 16 -> 0 <= low < 16 ->
  uint8 (Z.lor (Z.shiftl high 4) low) = 16 * high + low.
Proof.
  intros Hh Hl.
  assert (Hall : forallb (fun h => forallb (fun l =>
            uint8 (Z.lor (Z.shiftl h 4) l) =? 16 * h + l)
            [0;1;2;3;4;5;6;7;8;9;10;11;12;13;14;15])
            [0;1;2;3;4;5;6;7;8;9;10;11;12;13;14;15] = true) by reflexivity.
  rewrite forallb_forall in Hall.
  assert (Hin : forall x, 0 <= x < 16 ->
                  In x [0;1;2;3;4;5;6;7;8;9;10;11;12;13;14;15]).
  { intros x Hx. cbn [In].
    assert (x = 0 \/ x = 1 \/ x = 2 \/ x = 3 \/ x = 4 \/ x = 5 \/ x = 6 \/ x = 7
            \/ x = 8 \/ x = 9 \/ x = 10 \/ x = 11 \/ x = 12 \/ x = 13 \/ x = 14
            \/ x = 15) by lia.
    intuition auto. }
  specialize (Hall high (Hin high Hh)). rewrite forallb_forall in Hall.
  apply Z.eqb_eq, (Hall low (Hin low Hl)).
Qed.

Lemma getHexByte_pair (a b : ascii) (p : cstring) :
  getHexByte (a :: b :: p)
  = match Libc.digit16 a, Libc.digit16 b with
    | Some high, Some low => Some (16 * high + low)
    | _, _ => None
    end.
Proof.
  unfold getHexByte. cbn [deref next]. rewrite !getHexNibble_digit16.
  destruct (Libc.digit16 a) as [high|] eqn:Ha;
    destruct (Libc.digit16 b) as [low|] eqn:Hb; try reflexivity.
  rewrite nibbles_byte; [reflexivity | |]; eapply digit16_range; eassumption.
Qed.

(** [getHexByte] reads two hex digits, of either case, as the byte
    [16 * high + low], and fails when one of the two characters is not a
    hex digit. *)
Theorem getHexByte_value (a b : ascii) (p : cstring) :
  getHexByte (a :: b :: p)
  = match Libc.digit16 a, Libc.digit16 b with
    | Some high, Some low => Some (16 * high + low)
    | _, _ => None
    end
  /\ (isHexDigit a && isHexDigit b = false -> getHexByte (a :: b :: p) = None)
  /\ (forall byte, getHexByte (a :: b :: p) = Some byte -> 0 <= byte < 256).
Proof.
  unfold getHexByte. cbn [deref next]. rewrite !getHexNibble_digit16.
  rewrite <- !digit16_isHexDigit. unfold Libc.is_digit16.
  destruct (Libc.digit16 a) as [high|] eqn:Ha;
    destruct (Libc.digit16 b) as [low|] eqn:Hb; cbn [andb].
  - pose proof (digit16_range _ _ Ha). pose proof (digit16_range _ _ Hb).
    rewrite nibbles_byte by assumption.
    split; [reflexivity|]. split; [discriminate|].
    intros byte H1. assert (byte = 16 * high + low) by congruence. lia.
  - repeat split; try reflexivity; discriminate.
  - repeat split; try reflexivity; discriminate.
  - repeat split; try reflexivity; discriminate.
Qed.

(* ===================================================================== *)
(** ** [parseLine]: more on single actions *)
(* ===================================================================== *)

Lemma digits_nonneg (p : cstring) :
  forall (acc : Z) (overflow : bool),
    0 <= acc -> 0 <= fst (fst (Libc.digits acc overflow p)).
Proof.
  induction p as [|c p IH]; intros acc overflow Hacc; cbn [Libc.digits].
  - exact Hacc.
  - destruct (Libc.digit16 c) as [d|] eqn:Hd; [|exact Hacc].
    pose proof (digit16_range _ _ Hd).
    destruct (overflow || (Libc.ULONG_MAX <? acc * 16 + d)); apply IH; lia.
Qed.

Lemma strtoul16_value_nonneg (einval : bool) (p : cstring) :
  0 <= Libc.st_value (Libc.strtoul16 einval p).
Proof.
  unfold Libc.strtoul16.
  match goal with
  | |- context [Libc.digits 0 false ?s2] =>
      pose proof (digits_nonneg s2 0 false (Z.le_refl 0)) as Hd;
      destruct (Libc.digits 0 false s2) as [[v overflow] e];
      destruct (Libc.is_digit16 (deref s2))
  end; cbn [fst] in Hd.
  - destruct overflow; cbn [Libc.st_value].
    + discriminate.
    + destruct (char_eqb _ "-"); [apply Z.mod_pos_bound; reflexivity | exact Hd].
  - cbn [Libc.st_value]. lia.
Qed.

Lemma hex_bytes_run (rest : cstring) (n : nat) :
  forall run : cstring,
    List.length run = (2 * n)%nat ->
    forallb isHexDigit run = true ->
    hex_bytes n (run ++ rest) = (hex_pairs run, rest).
Proof.
  induction n as [|n IH]; intros run Hlen Hrun.
  - destruct run; [reflexivity | discriminate Hlen].
  - destruct run as [|a [|b run]]; try (cbn [List.length] in Hlen; lia).
    cbn [forallb] in Hrun.
    apply andb_true_iff in Hrun as [Ha Hrun].
    apply andb_true_iff in Hrun as [Hb Hrun].
    cbn [app hex_bytes next hex_pairs]. rewrite getHexByte_pair.
    rewrite IH; [| cbn [List.length] in Hlen; lia | exact Hrun].
    rewrite <- digit16_isHexDigit in Ha, Hb. unfold Libc.is_digit16 in Ha, Hb.
    destruct (Libc.digit16 a); [|discriminate Ha].
    destruct (Libc.digit16 b); [|discriminate Hb].
    reflexivity.
Qed.

Lemma hex_pairs_length (n : nat) :
  forall run : cstring,
    List.length run = (2 * n)%nat -> List.length (hex_pairs run) = n.
Proof.
  induction n as [|n IH]; intros run Hlen.
  - destruct run; [reflexivity | discriminate Hlen].
  - destruct run as [|a [|b run]]; try (cbn [List.length] in Hlen; lia).
    cbn [hex_pairs List.length]. f_equal. apply IH.
    cbn [List.length] in Hlen. lia.
Qed.

Lemma land_1_even (n : Z) : Z.even n = true -> (Z.land n 1 =? 0) = true.
Proof.
  intros H. change 1 with (Z.ones 1). rewrite Z.land_ones by lia.
  change (2 ^ 1) with 2. rewrite Zmod_even, H. reflexivity.
Qed.

Section MoreParsing.

Context {T : Type} {transport : Transport T}.
Variable einval : bool.

Local Arguments Libc.strtoul16 : simpl never.

(** A write whose data is an inline run of even length is read off the
    line as the channel and the bytes that the run denotes. *)
Lemma write_fields_even (tail run rest : cstring) :
  Libc.st_errno (Libc.strtoul16 einval tail) = 0 ->
  Libc.st_value (Libc.strtoul16 einval tail) <= 127 ->
  Libc.st_end (Libc.strtoul16 einval tail) = " " :: run ++ rest ->
  run <> [] ->
  forallb isHexDigit run = true ->
  isHexDigit (deref rest) = false ->
  Z.even (zlength run) = true ->
  write_fields einval ("w" :: tail)
  = Done (Libc.st_value (Libc.strtoul16 einval tail), Inline (hex_pairs run)) rest.
Proof.
  intros Herrno Hchan Hend Hne Hrun Hrest Heven.
  assert (Hn : exists n, List.length run = (2 * n)%nat).
  { apply Z.even_spec in Heven as [k Hk]. exists (Z.to_nat k).
    unfold zlength in Hk. lia. }
  destruct Hn as [n Hn].
  unfold write_fields. mstep.
  rewrite Herrno. cbn [Z.eqb negb]. cbv iota.
  apply Z.ltb_ge in Hchan. rewrite Hchan. cbv iota.
  rewrite Hend. cbn [deref next].
  change (char_eqb " " " ") with true. cbn [negb]. cbv iota.
  pose proof (hex_bytes_run rest n run Hn Hrun) as Hbytes.
  destruct run as [|c run]; [congruence|].
  cbn [app deref next] in *. cbn [forallb] in Hrun.
  apply andb_true_iff in Hrun as [Hc Hrun].
  rewrite (isHexDigit_not_quote c Hc), Hc.
  rewrite (scan_hex_run run rest Hrun Hrest).
  change (c :: run ++ rest) with ((c :: run) ++ rest) in *.
  rewrite ptrdiff_app, (land_1_even _ Heven). cbn [negb]. cbv iota.
  replace (Z.to_nat (zlength (c :: run) / 2)) with n.
  - rewrite Hbytes. reflexivity.
  - unfold zlength. rewrite Hn. rewrite Nat2Z.inj_mul.
    change (Z.of_nat 2) with 2. rewrite Z.mul_comm, Z.div_mul by lia. lia.
Qed.

(** An inline write of an even run of hex digits is carried out by one
    call of [flWriteChannel] with the bytes that the run denotes, half as
    many as there are digits, and leaves the cursor after the run. *)
Theorem inline_write_sends_run (s : PState T) (tail run rest : cstring) :
  ptr s = "w" :: tail ->
  Libc.st_errno (Libc.strtoul16 einval tail) = 0 ->
  Libc.st_value (Libc.strtoul16 einval tail) <= 127 ->
  Libc.st_end (Libc.strtoul16 einval tail) = " " :: run ++ rest ->
  run <> [] ->
  forallb isHexDigit run = true ->
  isHexDigit (deref rest) = false ->
  Z.even (zlength run) = true ->
  exists fStatus h,
    flWriteChannel (Libc.st_value (Libc.strtoul16 einval tail)) (hex_pairs run)
      (handle (world s)) = (fStatus, h)
    /\ action_write einval s
       = (if fl_failed fStatus then Fail FLP_LIBERR else Done tt)
           {| ptr := rest;
              dataFromFPGA := dataFromFPGA s;
              world := {| handle := h; fs := fs (world s);
                          log := log (world s)
                                 ++ [EvWriteChannel
                                       (Libc.st_value (Libc.strtoul16 einval tail))
                                       (hex_pairs run)] |} |}
    /\ 2 * zlength (hex_pairs run) = zlength run.
Proof.
  intros Hptr Herrno Hchan Hend Hne Hrun Hrest Heven.
  pose proof (write_fields_even tail run rest Herrno Hchan Hend Hne Hrun Hrest
                Heven) as Hfields.
  pose proof (strtoul16_value_nonneg einval tail) as Hnn.
  unfold action_write, bind, parsing. rewrite Hptr, Hfields.
  rewrite write_inline_run. cbn [ptr dataFromFPGA world].
  rewrite uint8_small by lia.
  destruct (flWriteChannel (Libc.st_value (Libc.strtoul16 einval tail))
              (hex_pairs run) (handle (world s))) as [fStatus h].
  exists fStatus, h. split; [reflexivity|]. split; [reflexivity|].
  apply Z.even_spec in Heven as [k Hk].
  unfold zlength in *.
  rewrite (hex_pairs_length (Z.to_nat k) run) by lia. lia.
Qed.

End MoreParsing.

(** [w1 48656c6c6f] on the simulated device: the five bytes of "hello". *)
Lemma inline_write_sends_run_witness :
  exists fStatus h,
    flWriteChannel 1 [72; 101; 108; 108; 111] (handle (Sim.world [] 0))
    = (fStatus, h)
    /\ action_write false
         {| ptr := cstr "w1 48656c6c6f"; dataFromFPGA := [];
            world := Sim.world [] 0 |}
       = (if fl_failed fStatus then Fail FLP_LIBERR else Done tt)
           {| ptr := [];
              dataFromFPGA := [];
              world := {| handle := h; fs := fs (Sim.world [] 0);
                          log := log (Sim.world [] 0)
                                 ++ [EvWriteChannel 1 [72; 101; 108; 108; 111]] |} |}
    /\ 2 * zlength [72; 101; 108; 108; 111] = zlength (cstr "48656c6c6f").
Proof.
  apply (@inline_write_sends_run Sim.T Sim.transport false
           {| ptr := cstr "w1 48656c6c6f"; dataFromFPGA := [];
              world := Sim.world [] 0 |}
           (cstr "1 48656c6c6f") (cstr "48656c6c6f") []).
  - reflexivity.
  - reflexivity.
  - change (1 <= 127). lia.
  - reflexivity.
  - discriminate.
  - reflexivity.
  - reflexivity.
  - reflexivity.
Defined.

(* ===================================================================== *)
(** ** Quoted file names *)
(* ===================================================================== *)

Lemma char_eqb_refl (c : ascii) : char_eqb c c = true.
Proof. apply Ascii.eqb_refl. Qed.

Lemma scan_quote_name (quoteChar : ascii) (name rest : cstring) :
  forallb (fun c => negb (char_eqb c quoteChar) && negb (char_eqb c NUL)) name
  = true ->
  scan_quote quoteChar (name ++ quoteChar :: rest) = quoteChar :: rest.
Proof.
  intros Hname. induction name as [|c name IH]; cbn [app scan_quote].
  - rewrite char_eqb_refl. reflexivity.
  - cbn [forallb] in Hname. apply andb_true_iff in Hname as [Hc Hname].
    rewrite Hc. apply IH, Hname.
Qed.

Lemma scan_quote_open (quoteChar : ascii) (p : cstring) :
  forallb (fun c => negb (char_eqb c quoteChar)) p = true ->
  char_eqb (deref (scan_quote quoteChar p)) NUL = true.
Proof.
  intros Hp. induction p as [|c p IH]; cbn [scan_quote].
  - reflexivity.
  - cbn [forallb] in Hp. apply andb_true_iff in Hp as [Hc Hp].
    rewrite Hc. cbn [andb].
    destruct (char_eqb c NUL) eqn:Hnul; cbn [negb].
    + cbn [deref]. exact Hnul.
    + apply IH, Hp.
Qed.

(** A file name between two quote characters is read back as it stands,
    and the cursor ends after the closing quote: the name is not empty and
    holds neither the quote character nor a NUL. *)
Theorem quoted_name_round_trip (quoteChar : ascii) (name rest : cstring) :
  name <> [] ->
  char_eqb quoteChar NUL = false ->
  forallb (fun c => negb (char_eqb c quoteChar) && negb (char_eqb c NUL)) name
  = true ->
  quoted_name quoteChar (name ++ quoteChar :: rest)
  = Done (string_of_list_ascii name) rest
  /\ list_ascii_of_string (string_of_list_ascii name) = name.
Proof.
  intros Hne Hq Hname. split; [|apply list_ascii_of_string_of_list_ascii].
  unfold quoted_name. mstep.
  rewrite (scan_quote_name quoteChar name rest Hname). cbn [deref next].
  rewrite Hq. cbv iota.
  rewrite !ptrdiff_app.
  assert (Hlen : (zlength name =? 0) = false).
  { apply Z.eqb_neq. unfold zlength.
    destruct name; [congruence | cbn [List.length]; lia]. }
  rewrite Hlen. cbv iota.
  unfold take, zlength. rewrite Nat2Z.id, firstn_app, Nat.sub_diag, firstn_all.
  cbn [firstn]. rewrite app_nil_r. reflexivity.
Qed.

(** Without a closing quote before the end of the line, the name is
    refused as unterminated, with the cursor left just after the opening
    quote. *)
Theorem quoted_name_unterminated (quoteChar : ascii) (p : cstring) :
  forallb (fun c => negb (char_eqb c quoteChar)) p = true ->
  quoted_name quoteChar p = Fail FLP_UNTERM_STRING p.
Proof.
  intros Hp. unfold quoted_name. mstep.
  rewrite (scan_quote_open quoteChar p Hp). reflexivity.
Qed.

(** Two quote characters in a row are refused as an empty name. *)
Theorem quoted_name_empty (quoteChar : ascii) (rest : cstring) :
  char_eqb quoteChar NUL = false ->
  quoted_name quoteChar (quoteChar :: rest)
  = Fail FLP_EMPTY_STRING (quoteChar :: rest).
Proof.
  intros Hq. unfold quoted_name. mstep. cbn [scan_quote].
  rewrite char_eqb_refl. cbn [negb andb deref].
  rewrite Hq. cbv iota.
  unfold ptrdiff. rewrite Z.sub_diag. reflexivity.
Qed.

Lemma quoted_name_round_trip_witness :
  quoted_name "'" (cstr "out.bin';+1")
  = Done (string_of_list_ascii (cstr "out.bin")) (cstr ";+1")
  /\ list_ascii_of_string (string_of_list_ascii (cstr "out.bin")) = cstr "out.bin".
Proof.
  apply (quoted_name_round_trip "'" (cstr "out.bin") (cstr ";+1")).
  - discriminate.
  - reflexivity.
  - reflexivity.
Defined.

Lemma quoted_name_unterminated_witness :
  quoted_name "'" (cstr "out.bin") = Fail FLP_UNTERM_STRING (cstr "out.bin").
Proof. apply (quoted_name_unterminated "'" (cstr "out.bin")). reflexivity. Defined.

Lemma quoted_name_empty_witness :
  quoted_name "'" (cstr "';r1") = Fail FLP_EMPTY_STRING (cstr "';r1").
Proof. apply (quoted_name_empty "'" (cstr ";r1")). reflexivity. Defined.

(* ===================================================================== *)
(** ** [parseLine]: range checks and files that cannot be opened *)
(* ===================================================================== *)

Section Ranges.

Context {T : Type} {transport : Transport T}.
Variable einval : bool.

Local Arguments Libc.strtoul16 : simpl never.

Lemma conduit_field_range (tail : cstring) :
  Libc.st_errno (Libc.strtoul16 einval tail) = 0 ->
  255 < uint32 (Libc.st_value (Libc.strtoul16 einval tail)) ->
  conduit_field einval ("+" :: tail) = Fail FLP_CONDUIT_RANGE tail.
Proof.
  intros Herrno Hrange. unfold conduit_field. mstep.
  rewrite Herrno. cbn [Z.eqb negb]. cbv iota.
  apply Z.ltb_lt in Hrange. rewrite Hrange. reflexivity.
Qed.

(** A conduit numeral above 255 fails with [FLP_CONDUIT_RANGE] at column
    1, before the cursor moves over the numeral, and [flSelectConduit] is
    not called: the environment is as it was. *)
Theorem conduit_range_column (tail : cstring) (w : World T) :
  Libc.st_errno (Libc.strtoul16 einval tail) = 0 ->
  255 < uint32 (Libc.st_value (Libc.strtoul16 einval tail)) ->
  parseLine einval ("+" :: tail) w
  = Some {| retVal := FLP_CONDUIT_RANGE;
            diagnostic := Some (Some "Conduit out of range"%string, 1);
            dumped := None;
            final := w |}.
Proof.
  intros Herrno Hrange.
  rewrite parseLine_first_fails
    with (rc := FLP_CONDUIT_RANGE)
         (s' := {| ptr := tail; dataFromFPGA := []; world := w |}).
  - cbn [rc_value ptr world errMessages]. rewrite ptrdiff_cons. reflexivity.
  - cbn [skip_semis]. known. unfold dispatch. cbn [ptr deref]. known.
    apply action_conduit_unread. cbn [ptr].
    apply conduit_field_range; assumption.
Qed.

Lemma write_fields_chan_range (tail : cstring) :
  Libc.st_errno (Libc.strtoul16 einval tail) = 0 ->
  127 < Libc.st_value (Libc.strtoul16 einval tail) ->
  write_fields einval ("w" :: tail) = Fail FLP_CHAN_RANGE tail.
Proof.
  intros Herrno Hrange. unfold write_fields. mstep.
  rewrite Herrno. cbn [Z.eqb negb]. cbv iota.
  apply Z.ltb_lt in Hrange. rewrite Hrange. reflexivity.
Qed.

Lemma read_fields_plain (tail : cstring) :
  Libc.st_errno (Libc.strtoul16 einval tail) = 0 ->
  uint32 (Libc.st_value (Libc.strtoul16 einval tail)) <= 127 ->
  Libc.st_end (Libc.strtoul16 einval tail) = [] ->
  read_fields einval ("r" :: tail)
  = Done (uint32 (Libc.st_value (Libc.strtoul16 einval tail)), 1, None) [].
Proof.
  intros Herrno Hrange Hend. unfold read_fields. mstep.
  rewrite Herrno. cbn [Z.eqb negb]. cbv iota.
  apply Z.ltb_ge in Hrange. rewrite Hrange. cbv iota.
  rewrite Hend. reflexivity.
Qed.

(** The channel of a read is checked after it has been cut to 32 bits,
    that of a write on the whole [unsigned long]: a numeral above 127
    whose low 32 bits are at most 127 makes [w] fail with
    [FLP_CHAN_RANGE] and nothing done, but makes [r] read one byte from
    the channel that the low 32 bits give. *)
Theorem channel_check_width (tail : cstring) (w : World T) :
  Libc.st_errno (Libc.strtoul16 einval tail) = 0 ->
  127 < Libc.st_value (Libc.strtoul16 einval tail) ->
  uint32 (Libc.st_value (Libc.strtoul16 einval tail)) <= 127 ->
  Libc.st_end (Libc.strtoul16 einval tail) = [] ->
  parseLine einval ("w" :: tail) w
  = Some {| retVal := FLP_CHAN_RANGE;
            diagnostic := Some (Some "Channel out of range"%string, 1);
            dumped := None;
            final := w |}
  /\ exists o,
       parseLine einval ("r" :: tail) w = Some o
       /\ log (final o)
          = log w ++ [EvReadChannel
                        (uint32 (Libc.st_value (Libc.strtoul16 einval tail))) 1]
       /\ (retVal o = FLP_SUCCESS \/ retVal o = FLP_LIBERR).
Proof.
  intros Herrno Hbig Hlow Hend. split.
  - rewrite parseLine_first_fails
      with (rc := FLP_CHAN_RANGE)
           (s' := {| ptr := tail; dataFromFPGA := []; world := w |}).
    + cbn [rc_value ptr world errMessages]. rewrite ptrdiff_cons. reflexivity.
    + cbn [skip_semis]. known. unfold dispatch. cbn [ptr deref]. known.
      apply action_write_unread. cbn [ptr].
      apply write_fields_chan_range; assumption.
  - assert (Hnn : 0 <= uint32 (Libc.st_value (Libc.strtoul16 einval tail)))
      by (unfold uint32; apply Z.mod_pos_bound; reflexivity).
    unfold parseLine. rewrite actions_S. cbn [ptr dataFromFPGA world skip_semis].
    known. unfold dispatch. cbn [ptr deref]. known.
    unfold action_read, bind, parsing. cbn [ptr].
    rewrite (read_fields_plain tail Herrno Hlow Hend).
    rewrite read_to_memory_run. cbn [ptr dataFromFPGA world].
    rewrite uint8_small by lia.
    destruct (flReadChannel _ 1 (handle w)) as [[[] received] h];
      cbn [fl_failed ptr deref finish]; known; cbn [rc_value];
      eexists; (split; [reflexivity|]); cbn [final log retVal]; auto.
Qed.

(** A write from a file that does not exist fails with [FLP_CANNOT_LOAD],
    reported after the closing quote, and no transport call is made. *)
Theorem write_missing_file (tail p : cstring) (chan : Z) (fileName : string)
  (w : World T) :
  write_fields einval ("w" :: tail) = Done (chan, FromFile fileName) p ->
  fs_lookup fileName (fs_files (fs w)) = None ->
  parseLine einval ("w" :: tail) w
  = Some {| retVal := FLP_CANNOT_LOAD;
            diagnostic := Some (Some "Cannot load file"%string,
                                ptrdiff p ("w" :: tail));
            dumped := None;
            final := w |}.
Proof.
  intros Hfields Hmissing.
  rewrite parseLine_first_fails
    with (rc := FLP_CANNOT_LOAD)
         (s' := {| ptr := p; dataFromFPGA := []; world := w |}).
  - reflexivity.
  - cbn [skip_semis]. known. unfold dispatch. cbn [ptr deref]. known.
    unfold action_write, bind, parsing. cbn [ptr]. rewrite Hfields.
    unfold write_from_file, bind, lift, fopen_rb. cbn [world].
    rewrite Hmissing. reflexivity.
Qed.

(** A read into a file that cannot be opened for writing fails with
    [FLP_CANNOT_SAVE], and no transport call is made. *)
Theorem read_unwritable_file (tail p : cstring) (chan length : Z)
  (fileName : string) (w : World T) :
  read_fields einval ("r" :: tail) = Done (chan, length, Some fileName) p ->
  existsb (String.eqb fileName) (fs_denied (fs w)) = true ->
  parseLine einval ("r" :: tail) w
  = Some {| retVal := FLP_CANNOT_SAVE;
            diagnostic := Some (Some "Cannot save file"%string,
                                ptrdiff p ("r" :: tail));
            dumped := None;
            final := w |}.
Proof.
  intros Hfields Hdenied.
  rewrite parseLine_first_fails
    with (rc := FLP_CANNOT_SAVE)
         (s' := {| ptr := p; dataFromFPGA := []; world := w |}).
  - reflexivity.
  - cbn [skip_semis]. known. unfold dispatch. cbn [ptr deref]. known.
    unfold action_read, bind, parsing. cbn [ptr]. rewrite Hfields.
    unfold read_to_file, bind, lift, io, fopen_wb. cbn [world].
    rewrite Hdenied. reflexivity.
Qed.

End Ranges.

Lemma conduit_range_column_witness :
  parseLine false (cstr "+100") (Sim.world [] 0)
  = Some {| retVal := FLP_CONDUIT_RANGE;
            diagnostic := Some (Some "Conduit out of range"%string, 1);
            dumped := None;
            final := Sim.world [] 0 |}.
Proof.
  apply (@conduit_range_column Sim.T Sim.transport false (cstr "100")
           (Sim.world [] 0)).
  - reflexivity.
  - vm_compute. reflexivity.
Defined.

(** [w100000005] and [r100000005] on the simulated device. *)
Lemma channel_check_width_witness :
  parseLine false (cstr "w100000005") (Sim.world [] 0)
  = Some {| retVal := FLP_CHAN_RANGE;
            diagnostic := Some (Some "Channel out of range"%string, 1);
            dumped := None;
            final := Sim.world [] 0 |}
  /\ exists o,
       parseLine false (cstr "r100000005") (Sim.world [] 0) = Some o
       /\ log (final o) = log (Sim.world [] 0) ++ [EvReadChannel 5 1]
       /\ (retVal o = FLP_SUCCESS \/ retVal o = FLP_LIBERR).
Proof.
  apply (@channel_check_width Sim.T Sim.transport false (cstr "100000005")
           (Sim.world [] 0)).
  - reflexivity.
  - vm_compute. reflexivity.
  - vm_compute. discriminate.
  - reflexivity.
Defined.

Lemma write_missing_file_witness :
  parseLine false (cstr "w5 'nofile.bin'") (Sim.world [] 0)
  = Some {| retVal := FLP_CANNOT_LOAD;
            diagnostic := Some (Some "Cannot load file"%string, 15);
            dumped := None;
            final := Sim.world [] 0 |}.
Proof.
  apply (@write_missing_file Sim.T Sim.transport false (cstr "5 'nofile.bin'") []
           5 "nofile.bin"%string (Sim.world [] 0)).
  - reflexivity.
  - reflexivity.
Defined.

Lemma read_unwritable_file_witness :
  parseLine false (cstr "r5 10 'locked'")
    {| handle := []; fs := {| fs_files := []; fs_denied := ["locked"%string];
                              fs_room := 0 |}; log := [] |}
  = Some {| retVal := FLP_CANNOT_SAVE;
            diagnostic := Some (Some "Cannot save file"%string, 14);
            dumped := None;
            final := {| handle := []; fs := {| fs_files := [];
                                               fs_denied := ["locked"%string];
                                               fs_room := 0 |}; log := [] |} |}.
Proof.
  apply (@read_unwritable_file Sim.T Sim.transport false (cstr "5 10 'locked'") []
           5 16 "locked"%string).
  - reflexivity.
  - reflexivity.
Defined.

(* ===================================================================== *)
(** ** The column of a diagnostic *)
(* ===================================================================== *)

Lemma quoted_name_stays (quoteChar : ascii) (p q : cstring) :
  (List.length p <= List.length q)%nat ->
  stays_after (quoted_name quoteChar p) q.
Proof.
  intros H. unfold quoted_name. mstep.
  destruct (char_eqb (deref (scan_quote quoteChar p)) NUL); [exact H|].
  destruct (ptrdiff (scan_quote quoteChar p) p =? 0); [exact H|].
  cbn [stays_after]. auto with forward.
Qed.

Section Column.

Context {T : Type} {transport : Transport T}.
Variable einval : bool.

Lemma read_fields_stays (p : cstring) : stays_after (read_fields einval p) p.
Proof.
  unfold read_fields. mstep.
  assert (Hn : (List.length (next p) <= List.length p)%nat)
    by auto with forward.
  set (r := Libc.strtoul16 einval (next p)).
  assert (Hr : (List.length (Libc.st_end r) <= List.length p)%nat)
    by (unfold r; auto with forward).
  clearbody r.
  destruct (negb (Libc.st_errno r =? 0)); [exact Hn|].
  destruct (127 <? uint32 (Libc.st_value r)); [exact Hn|].
  destruct (not_end_semi_space (deref (Libc.st_end r))); [exact Hr|].
  destruct (char_eqb (deref (Libc.st_end r)) " "); [|exact Hr].
  assert (Hn1 : (List.length (next (Libc.st_end r)) <= List.length p)%nat)
    by auto with forward.
  set (r2 := Libc.strtoul16 einval (next (Libc.st_end r))).
  assert (Hr2 : (List.length (Libc.st_end r2) <= List.length p)%nat)
    by (unfold r2; auto with forward).
  clearbody r2.
  destruct (negb (Libc.st_errno r2 =? 0)); [exact Hn1|].
  destruct (not_end_semi_space (deref (Libc.st_end r2))); [exact Hr2|].
  destruct (char_eqb (deref (Libc.st_end r2)) " "); [|exact Hr2].
  assert (Hn2 : (List.length (next (Libc.st_end r2)) <= List.length p)%nat)
    by auto with forward.
  destruct (negb (char_eqb (deref (next (Libc.st_end r2))) DQUOTE)
            && negb (char_eqb (deref (next (Libc.st_end r2))) "'"));
    [exact Hn2|].
  pose proof (quoted_name_stays (deref (next (Libc.st_end r2)))
                (next (next (Libc.st_end r2))) p) as Hq.
  destruct (quoted_name (deref (next (Libc.st_end r2)))
              (next (next (Libc.st_end r2)))) as [name p' | rc p' |];
    cbn [stays_after] in *; auto with forward.
Qed.

Lemma write_fields_stays (p : cstring) : stays_after (write_fields einval p) p.
Proof.
  unfold write_fields. mstep.
  assert (Hn : (List.length (next p) <= List.length p)%nat)
    by auto with forward.
  set (r := Libc.strtoul16 einval (next p)).
  assert (Hr : (List.length (Libc.st_end r) <= List.length p)%nat)
    by (unfold r; auto with forward).
  clearbody r.
  destruct (negb (Libc.st_errno r =? 0)); [exact Hn|].
  destruct (127 <? Libc.st_value r); [exact Hn|].
  destruct (negb (char_eqb (deref (Libc.st_end r)) " ")); [exact Hr|].
  set (ptr0 := next (Libc.st_end r)).
  assert (H0 : (List.length ptr0 <= List.length p)%nat)
    by (unfold ptr0; auto with forward).
  clearbody ptr0.
  destruct (char_eqb (deref ptr0) DQUOTE || char_eqb (deref ptr0) "'").
  - pose proof (quoted_name_stays (deref ptr0) (next ptr0) p) as Hq.
    destruct (quoted_name (deref ptr0) (next ptr0)) as [name p' | rc p' |];
      cbn [stays_after] in *; auto with forward.
  - destruct (isHexDigit (deref ptr0)); [|exact H0].
    destruct (negb (Z.land (ptrdiff (scan_hex (next ptr0)) ptr0) 1 =? 0));
      [exact H0|].
    pose proof (hex_bytes_le
                  (Z.to_nat (ptrdiff (scan_hex (next ptr0)) ptr0 / 2))
                  ptr0 p H0) as Hb.
    destruct (hex_bytes (Z.to_nat (ptrdiff (scan_hex (next ptr0)) ptr0 / 2)) ptr0)
      as [data p'].
    exact Hb.
Qed.

Lemma conduit_field_stays (p : cstring) : stays_after (conduit_field einval p) p.
Proof.
  unfold conduit_field. mstep.
  assert (Hn : (List.length (next p) <= List.length p)%nat)
    by auto with forward.
  set (r := Libc.strtoul16 einval (next p)).
  assert (Hr : (List.length (Libc.st_end r) <= List.length p)%nat)
    by (unfold r; auto with forward).
  clearbody r.
  destruct (negb (Libc.st_errno r =? 0)); [exact Hn|].
  destruct (255 <? uint32 (Libc.st_value r)); [exact Hn|].
  destruct (negb (char_eqb (deref (Libc.st_end r)) NUL)
            && negb (char_eqb (deref (Libc.st_end r)) ";")); exact Hr.
Qed.

Lemma read_to_memory_same (chan length : Z) (s : PState T) :
  same_cursor (read_to_memory chan length s) s.
Proof.
  rewrite read_to_memory_run.
  destruct (flReadChannel (uint8 chan) length (handle (world s)))
    as [[[] received] h]; cbn [fl_failed same_cursor ptr]; auto.
Qed.

Lemma write_inline_same (chan : Z) (data : list Z) (s : PState T) :
  same_cursor (write_inline chan data s) s.
Proof.
  rewrite write_inline_run.
  destruct (flWriteChannel (uint8 chan) data (handle (world s)))
    as [[] h]; cbn [fl_failed same_cursor ptr]; auto.
Qed.

Lemma read_to_file_same (chan length : Z) (fileName : string) (s : PState T) :
  0 <= length < 2 ^ 32 ->
  same_cursor (read_to_file chan length fileName s) s.
Proof.
  intros Hrange. unfold read_to_file, bind, lift, io.
  destruct (fopen_wb fileName (world s)) as [[file|] w1];
    cbn [world ptr dataFromFPGA]; [|reflexivity].
  pose proof (doRead_returns (uint8 chan) length file w1 Hrange) as Hret.
  destruct (doRead (uint8 chan) length file w1) as [cs w2 | rc w2 |];
    cbn [same_cursor ret ptr]; auto.
Qed.

Lemma write_from_file_same (chan : Z) (fileName : string) (s : PState T) :
  same_cursor (write_from_file chan fileName s) s.
Proof.
  unfold write_from_file, bind, lift.
  destruct (fopen_rb fileName (world s)) as [file|];
    cbn [world ptr dataFromFPGA]; [|reflexivity].
  pose proof (doWrite_returns (uint8 chan) file (world s)) as Hret.
  destruct (doWrite (uint8 chan) file (world s)) as [r w2 | rc w2 |];
    cbn [same_cursor ret ptr]; auto.
Qed.

(** An action that is read off the line and then carried out with the
    cursor kept ends inside what was left of the line. *)
Lemma within_parsing {A B} (m : Parser A) (k : A -> M (PState T) B)
  (s : PState T) :
  stays_after (m (ptr s)) (ptr s) ->
  (forall a p, m (ptr s) = Done a p ->
               same_cursor
                 (k a {| ptr := p; dataFromFPGA := dataFromFPGA s; world := world s |})
                 {| ptr := p; dataFromFPGA := dataFromFPGA s; world := world s |}) ->
  cursor_within (bind (parsing m) k s) (ptr s).
Proof.
  intros Hm Hk. unfold bind, parsing.
  destruct (m (ptr s)) as [a p | rc p |]; cbn [stays_after] in Hm.
  - specialize (Hk a p eq_refl).
    destruct (k a _) as [b s' | rc s' |]; cbn [same_cursor cursor_within ptr] in *.
    + rewrite Hk. exact Hm.
    + rewrite Hk. exact Hm.
    + exact Hk.
  - exact Hm.
  - exact Hm.
Qed.

Lemma dispatch_within (s : PState T) :
  cursor_within (dispatch einval s) (ptr s).
Proof.
  unfold dispatch.
  destruct (char_eqb (deref (ptr s)) "r").
  { unfold action_read. apply within_parsing.
    - apply read_fields_stays.
    - intros [[chan length] [fileName|]] p Hfields.
      + apply read_to_file_same.
        exact (read_fields_length einval _ _ _ _ _ Hfields).
      + apply read_to_memory_same. }
  destruct (char_eqb (deref (ptr s)) "w").
  { unfold action_write. apply within_parsing.
    - apply write_fields_stays.
    - intros [chan [fileName | data]] p _.
      + apply write_from_file_same.
      + apply write_inline_same. }
  destruct (char_eqb (deref (ptr s)) "+").
  { unfold action_conduit. apply within_parsing.
    - apply conduit_field_stays.
    - intros conduit p _. unfold bind, lift, io. cbn [world ptr dataFromFPGA].
      destruct (call_flSelectConduit (uint8 conduit) (world s)) as [[] w1];
        unfold CHECK_STATUS, FAIL, ret; cbn [fl_failed same_cursor ptr]; auto. }
  cbn [cursor_within FAIL]. lia.
Qed.

Lemma actions_within (fuel : nat) :
  forall s : PState T,
    (List.length (ptr s) < fuel)%nat ->
    cursor_within (actions einval fuel s) (ptr s).
Proof.
  induction fuel as [|fuel IH]; intros s Hfuel; [lia|].
  rewrite actions_S.
  set (s1 := {| ptr := skip_semis (ptr s); dataFromFPGA := dataFromFPGA s;
                world := world s |}).
  assert (Hs1 : (List.length (ptr s1) <= List.length (ptr s))%nat)
    by (cbn [s1 ptr]; auto with forward).
  pose proof (dispatch_within s1) as Hin.
  pose proof (dispatch_advances einval s1) as Hadv.
  destruct (dispatch einval s1) as [u s' | rc s' |];
    cbn [cursor_within advances] in *; [|lia|contradiction].
  destruct (char_eqb (deref (ptr s')) ";") eqn:Hsemi.
  - assert (Hlt : (List.length (ptr s') < fuel)%nat).
    { destruct (ptr s') as [|c rest]; [discriminate Hsemi|].
      destruct (ptr s1) as [|c1 rest1]; cbn [next List.length] in *; lia. }
    specialize (IH s' Hlt).
    destruct (actions einval fuel s') as [u2 s2 | rc2 s2 |];
      cbn [cursor_within] in *; lia.
  - cbn [ret cursor_within]. lia.
Qed.

(** A diagnostic is printed exactly when the value returned is above
    [FLP_LIBERR]; its message is the entry of [errMessages] for that
    value, never the [NULL] of the first two entries; and its column lies
    inside the line, between 0 and the length of the line. *)
Theorem diagnostic_column (line : cstring) (w : World T) :
  exists o,
    parseLine einval line w = Some o
    /\ (diagnostic o = None <->
        retVal o = FLP_SUCCESS \/ retVal o = FLP_LIBERR)
    /\ forall message column,
         diagnostic o = Some (message, column) ->
         message = errMessages (retVal o)
         /\ message <> None
         /\ 0 <= column <= zlength line.
Proof.
  unfold parseLine.
  pose proof (actions_within (S (List.length line))
                {| ptr := line; dataFromFPGA := []; world := w |}) as Hin.
  cbn [ptr] in Hin. specialize (Hin (Nat.lt_succ_diag_r _)).
  destruct (actions einval (S (List.length line))
              {| ptr := line; dataFromFPGA := []; world := w |})
    as [u s | rc s |]; cbn [finish cursor_within] in Hin |- *;
    [| |contradiction].
  - destruct (negb (char_eqb (deref (ptr s)) NUL));
      eexists; (split; [reflexivity|]); cbn [diagnostic retVal]; split.
    + split; [discriminate | intros [H | H]; discriminate H].
    + intros message column H. injection H as <- <-.
      cbn [errMessages]. split; [reflexivity|]. split; [discriminate|].
      unfold ptrdiff, zlength. lia.
    + split; auto.
    + discriminate.
  - eexists. split; [reflexivity|]. cbn [diagnostic retVal]. split.
    + destruct rc; cbn [rc_value];
        match goal with
        | |- context [?a <? ?b] =>
            let v := eval vm_compute in (a <? b) in change (a <? b) with v
        end; cbv iota;
        (split; [intros H; try discriminate H; auto
                | intros [H | H]; try discriminate H; reflexivity]).
    + intros message column H.
      destruct (1 <? rc_value rc) eqn:Hrc; [|discriminate H].
      injection H as <- <-. split; [reflexivity|]. split.
      * destruct rc; cbn [errMessages]; try discriminate;
          vm_compute in Hrc; discriminate Hrc.
      * unfold ptrdiff, zlength. lia.
Qed.

End Column.

(* ===================================================================== *)
(** ** The cipher: what its helpers compute *)
(* ===================================================================== *)

Lemma int32_congr (x : Z) : int32 x mod 2 ^ 32 = x mod 2 ^ 32.
Proof.
  unfold int32. rewrite (Z.mod_eq (x + 2 ^ 31) (2 ^ 32)) by lia.
  replace (x + 2 ^ 31 - 2 ^ 32 * ((x + 2 ^ 31) / 2 ^ 32) - 2 ^ 31)
    with (x + (- ((x + 2 ^ 31) / 2 ^ 32)) * 2 ^ 32) by ring.
  apply Z.mod_add. lia.
Qed.

Lemma int32_mod_eq (x y : Z) :
  x mod 2 ^ 32 = y mod 2 ^ 32 -> int32 x = int32 y.
Proof.
  intros H. unfold int32.
  rewrite (Z.add_mod x), (Z.add_mod y), H by lia. reflexivity.
Qed.

Lemma int32_small (x : Z) : - 2 ^ 31 <= x < 2 ^ 31 -> int32 x = x.
Proof. intros H. unfold int32. rewrite Z.mod_small; lia. Qed.

Lemma pow1_loop_wraps (count : nat) :
  forall a c : Z,
    pow1_loop count a (int32 c) = int32 (c * a ^ Z.of_nat count).
Proof.
  induction count as [|count IH]; intros a c.
  - cbn [pow1_loop]. change (Z.of_nat 0) with 0. rewrite Z.pow_0_r, Z.mul_1_r.
    reflexivity.
  - cbn [pow1_loop]. rewrite IH. apply int32_mod_eq.
    rewrite Nat2Z.inj_succ, Z.pow_succ_r by lia.
    rewrite Z.mul_assoc.
    rewrite (Z.mul_mod (int32 c * a)), (Z.mul_mod (int32 c)) by lia.
    rewrite int32_congr.
    rewrite <- (Z.mul_mod c a), <- Z.mul_mod by lia. reflexivity.
Qed.

(** [pow1(a, b)] is the power [a ^ b] whenever that power fits an [int];
    a count below 1 gives 1. *)
Theorem pow1_power (a b : Z) :
  - 2 ^ 31 <= a ^ b < 2 ^ 31 ->
  pow1 a b = if b <? 0 then 1 else a ^ b.
Proof.
  intros Hfit. unfold pow1. destruct (b <? 0) eqn:Hb.
  - apply Z.ltb_lt in Hb. destruct b; [lia | lia | reflexivity].
  - apply Z.ltb_ge in Hb.
    change 1 with (int32 1) at 1. rewrite pow1_loop_wraps.
    rewrite Z2Nat.id, Z.mul_1_l by lia. apply int32_small, Hfit.
Qed.

Lemma pow1_power_witness : pow1 2 7 = 128.
Proof. apply (pow1_power 2 7). vm_compute. split; [discriminate | reflexivity]. Defined.

Lemma neg_lnot (a : Z) : neg a = Z.lnot a mod 2 ^ 32.
Proof.
  unfold neg.
  replace (uint32 (int32 (pow1 2 32 - 1))) with (2 ^ 32 - 1)
    by (vm_compute; reflexivity).
  unfold uint32, Z.lnot.
  replace (2 ^ 32 - 1 - a) with (Z.pred (- a) + 1 * 2 ^ 32) by lia.
  apply Z.mod_add. lia.
Qed.

Lemma neg_testbit (a i : Z) :
  0 <= i -> Z.testbit (neg a) i = (i <? 32) && negb (Z.testbit a i).
Proof.
  intros Hi. rewrite neg_lnot, Z.testbit_mod_pow2, Z.lnot_spec by lia.
  reflexivity.
Qed.

Lemma bitXor_uint32 (x y : Z) : bitXor x y = uint32 (Z.lxor x y).
Proof.
  apply Z.bits_inj'. intros i Hi. unfold bitXor, uint32.
  rewrite Z.land_spec, !neg_testbit, !Z.land_spec, !neg_testbit by assumption.
  rewrite Z.testbit_mod_pow2, Z.lxor_spec by lia.
  destruct (i <? 32), (Z.testbit x i), (Z.testbit y i); reflexivity.
Qed.

Lemma neg_value (x : Z) : 0 <= x < 2 ^ 32 -> neg x = 2 ^ 32 - 1 - x.
Proof.
  intros Hx. rewrite neg_lnot. unfold Z.lnot.
  replace (Z.pred (- x)) with (2 ^ 32 - 1 - x + (-1) * 2 ^ 32) by lia.
  rewrite Z.mod_add by lia. apply Z.mod_small. lia.
Qed.

(** [neg] is the complement on 32 bits, and [bitXor], built from [&] and
    [neg] alone, is the exclusive or: of the low 32 bits in general, and
    of the operands themselves when both are 32-bit values. *)
Theorem bitXor_xor (x y : Z) :
  bitXor x y = uint32 (Z.lxor x y)
  /\ (0 <= x < 2 ^ 32 -> neg x = 2 ^ 32 - 1 - x)
  /\ (0 <= x < 2 ^ 32 -> 0 <= y < 2 ^ 32 -> bitXor x y = Z.lxor x y).
Proof.
  split; [apply bitXor_uint32|]. split; [apply neg_value|].
  intros Hx Hy. rewrite bitXor_uint32.
  apply Z.bits_inj'. intros i Hi. unfold uint32.
  rewrite Z.testbit_mod_pow2 by lia.
  destruct (i <? 32) eqn:E; [reflexivity|].
  apply Z.ltb_ge in E. rewrite Z.lxor_spec.
  rewrite <- (Z.mod_small x (2 ^ 32)), <- (Z.mod_small y (2 ^ 32)) by assumption.
  rewrite !Z.mod_pow2_bits_high by lia. reflexivity.
Qed.

Lemma testbit_high (a i : Z) :
  0 <= a < 2 ^ 32 -> 32 <= i -> Z.testbit a i = false.
Proof.
  intros Ha Hi. rewrite <- (Z.mod_small a (2 ^ 32)) by exact Ha.
  apply Z.mod_pow2_bits_high. lia.
Qed.

Lemma lxor_uint32 (a b : Z) :
  0 <= a < 2 ^ 32 -> 0 <= b < 2 ^ 32 -> uint32 (Z.lxor a b) = Z.lxor a b.
Proof.
  intros Ha Hb. apply Z.bits_inj'. intros i Hi. unfold uint32.
  rewrite Z.testbit_mod_pow2 by lia.
  destruct (i <? 32) eqn:E; [reflexivity|].
  apply Z.ltb_ge in E.
  rewrite Z.lxor_spec, (testbit_high a), (testbit_high b) by assumption.
  reflexivity.
Qed.

Lemma uint32_range (x : Z) : 0 <= uint32 x < 2 ^ 32.
Proof. unfold uint32. apply Z.mod_pos_bound. reflexivity. Qed.

Lemma bitXor_lxor (x y : Z) :
  0 <= x < 2 ^ 32 -> 0 <= y < 2 ^ 32 -> bitXor x y = Z.lxor x y.
Proof.
  intros Hx Hy. rewrite bitXor_uint32. apply lxor_uint32; assumption.
Qed.

Lemma findki_loop_value (count : nat) :
  forall a b : Z, findki_loop (S count) a b = (a / 2 ^ Z.of_nat count) mod 2.
Proof.
  induction count as [|count IH]; intros a b.
  - cbn [findki_loop]. unfold uint8. change (Z.of_nat 0) with 0.
    rewrite Z.pow_0_r, Z.div_1_r. apply Z.mod_small.
    pose proof (Z.mod_pos_bound a 2). lia.
  - change (findki_loop (S (S count)) a b)
      with (findki_loop (S count) (a / 2) (uint8 (a mod 2))).
    rewrite IH, Nat2Z.inj_succ, Z.pow_succ_r, Z.div_div by lia. reflexivity.
Qed.

Lemma findki_testbit (a n : Z) :
  0 <= n -> findki a n = Z.b2z (Z.testbit a n).
Proof.
  intros Hn. unfold findki.
  replace (Z.to_nat (n + 1)) with (S (Z.to_nat n)) by lia.
  rewrite findki_loop_value, Z2Nat.id by lia.
  symmetry. apply Z.testbit_spec'. exact Hn.
Qed.

(** [findki(a, n)] is bit [n] of [a], counted from the least significant
    one; below 0 it is 0. *)
Theorem findki_bit (a n : Z) :
  findki a n = if n <? 0 then 0 else Z.b2z (Z.testbit a n).
Proof.
  destruct (n <? 0) eqn:Hn.
  - apply Z.ltb_lt in Hn. unfold findki.
    replace (Z.to_nat (n + 1)) with 0%nat by lia. reflexivity.
  - apply Z.ltb_ge in Hn. apply findki_testbit, Hn.
Qed.

Ltac nibble_cases t :=
  let H := fresh "Hcase" in
  assert (H : t = 0 \/ t = 1 \/ t = 2 \/ t = 3 \/ t = 4 \/ t = 5 \/ t = 6
              \/ t = 7 \/ t = 8 \/ t = 9 \/ t = 10 \/ t = 11 \/ t = 12
              \/ t = 13 \/ t = 14 \/ t = 15) by lia;
  repeat (destruct H as [H | H]; [subst t|]); [..|subst t].

(** [concat(a)] of a hex digit is the word with that digit in all its
    eight places. *)
Theorem concat_nibble (t : Z) :
  0 <= t < 16 ->
  concat t = 0x11111111 * t /\ word_nibbles (concat t) = repeat t 8.
Proof.
  intros Ht. nibble_cases t; vm_compute; split; reflexivity.
Qed.

Lemma concat_nibble_witness :
  concat 6 = 0x11111111 * 6 /\ word_nibbles (concat 6) = repeat 6 8.
Proof. apply (concat_nibble 6). lia. Defined.

Lemma concat_range (t : Z) : 0 <= t < 16 -> 0 <= concat t < 2 ^ 32.
Proof.
  intros Ht. nibble_cases t; vm_compute; split; first [discriminate | reflexivity].
Qed.

Lemma bitXor_b2z (a b : bool) : bitXor (Z.b2z a) (Z.b2z b) = Z.b2z (xorb a b).
Proof. destruct a, b; vm_compute; reflexivity. Qed.

Lemma uint8_b2z (a : bool) : uint8 (Z.b2z a) = Z.b2z a.
Proof. destruct a; reflexivity. Qed.

Lemma findti_loop_step (fuel : nat) (key i t : Z) :
  findti_loop (S fuel) key i t
  = if i <? 32
    then findti_loop fuel key (i + 4) (uint8 (bitXor t (findki key i)))
    else t.
Proof. reflexivity. Qed.

Lemma nibble_testbit (key j n : Z) :
  0 <= j -> 0 <= n < 4 ->
  Z.testbit ((key / 16 ^ j) mod 16) n = Z.testbit key (n + 4 * j).
Proof.
  intros Hj Hn. change 16 with (2 ^ 4).
  rewrite Z.mod_pow2_bits_low by lia.
  rewrite <- Z.pow_mul_r by lia. apply Z.div_pow2_bits; lia.
Qed.

Ltac closed_index key :=
  repeat match goal with
         | |- context [Z.testbit key ?i] =>
             let v := eval vm_compute in i in progress change i with v
         end.

Lemma findti_nibble_bit (key n : Z) :
  0 <= n < 4 ->
  findti key n
  = Z.b2z (Z.testbit (fold_right Z.lxor 0 (word_nibbles key)) n).
Proof.
  intros Hn.
  assert (Hcase : n = 0 \/ n = 1 \/ n = 2 \/ n = 3) by lia.
  unfold word_nibbles. cbn [map fold_right].
  rewrite !Z.lxor_spec, !nibble_testbit, Z.bits_0 by lia.
  unfold findti.
  destruct Hcase as [-> | [-> | [-> | ->]]];
    match goal with
    | |- context [Z.to_nat ?a] =>
        let v := eval vm_compute in (Z.to_nat a) in change (Z.to_nat a) with v
    end;
    match goal with
    | |- context [uint32 ?a mod 4] =>
        let v := eval vm_compute in (uint32 a mod 4) in
        change (uint32 a mod 4) with v
    end;
    repeat (rewrite findti_loop_step;
            match goal with
            | |- context [?a <? 32] =>
                let v := eval vm_compute in (a <? 32) in change (a <? 32) with v
            end; cbv iota);
    rewrite !findki_testbit by lia;
    closed_index key;
    repeat match goal with
           | |- context [Z.testbit key ?i] => generalize (Z.testbit key i); intro
           end;
    repeat (rewrite bitXor_b2z || rewrite uint8_b2z);
    repeat match goal with b : bool |- _ => destruct b end; reflexivity.
Qed.

Lemma nibble_bits (m : Z) :
  0 <= m < 16 ->
  m = Z.b2z (Z.testbit m 0) + 2 * Z.b2z (Z.testbit m 1)
      + 4 * Z.b2z (Z.testbit m 2) + 8 * Z.b2z (Z.testbit m 3).
Proof. intros Hm. nibble_cases m; reflexivity. Qed.

Lemma nibbles_xor_range (key : Z) :
  0 <= fold_right Z.lxor 0 (word_nibbles key) < 16.
Proof.
  set (m := fold_right Z.lxor 0 (word_nibbles key)).
  assert (Hm : m = m mod 2 ^ 4).
  { apply Z.bits_inj'. intros i Hi. rewrite Z.testbit_mod_pow2 by lia.
    destruct (i <? 4) eqn:E; [reflexivity|]. apply Z.ltb_ge in E.
    unfold m, word_nibbles. cbn [map fold_right].
    rewrite !Z.lxor_spec, Z.bits_0. change 16 with (2 ^ 4) at 2 4 6 8 10 12 14 16.
    rewrite !Z.mod_pow2_bits_high by lia. reflexivity. }
  rewrite Hm. apply Z.mod_pos_bound. reflexivity.
Qed.

(** [findt(key)] is the exclusive or of the eight hex digits of [key]. *)
Theorem findt_nibbles (key : Z) :
  findt key = fold_right Z.lxor 0 (word_nibbles key)
  /\ 0 <= findt key < 16.
Proof.
  assert (H : findt key = fold_right Z.lxor 0 (word_nibbles key)).
  { rewrite (nibble_bits _ (nibbles_xor_range key)).
    unfold findt. cbn [findt_loop].
    change (0 + 1) with 1. change (1 + 1) with 2. change (2 + 1) with 3.
    rewrite !findti_nibble_bit by lia.
    generalize (fold_right Z.lxor 0 (word_nibbles key)). intros m.
    destruct (Z.testbit m 0), (Z.testbit m 1), (Z.testbit m 2), (Z.testbit m 3);
      vm_compute; reflexivity. }
  split; [exact H|]. rewrite H. apply nibbles_xor_range.
Qed.

(* ===================================================================== *)
(** ** The cipher: [decrypt] undoes [encrypt] *)
(* ===================================================================== *)

Lemma ones_in_bound (width : nat) :
  forall x : Z, 0 <= ones_in width x <= Z.of_nat width.
Proof.
  induction width as [|width IH]; intros x; cbn [ones_in]; [lia|].
  specialize (IH (Z.div2 x)). destruct (Z.odd x); cbn [Z.b2z]; lia.
Qed.

Lemma count1_range (key : Z) : 0 <= uint8 (count1 key) <= 32.
Proof.
  pose proof (ones_in_bound 32 key) as H. unfold count1, popcount, uint8.
  rewrite Z.mod_small; lia.
Qed.

Lemma next_up_range (t : Z) : 0 <= uint8 ((t + 1) mod 16) < 16.
Proof.
  pose proof (Z.mod_pos_bound (t + 1) 16). unfold uint8.
  rewrite Z.mod_small; lia.
Qed.

Lemma next_down_range (t : Z) : 0 <= uint8 ((t + 15) mod 16) < 16.
Proof.
  pose proof (Z.mod_pos_bound (t + 15) 16). unfold uint8.
  rewrite Z.mod_small; lia.
Qed.

Lemma bitXor_range (x y : Z) : 0 <= bitXor x y < 2 ^ 32.
Proof. rewrite bitXor_uint32. apply uint32_range. Qed.

Lemma encrypt_loop_S (count : nat) (t c : Z) :
  encrypt_loop (S count) t c
  = encrypt_loop count (uint8 ((t + 1) mod 16)) (bitXor c (concat t)).
Proof. reflexivity. Qed.

Lemma decrypt_loop_S (count : nat) (t c : Z) :
  decrypt_loop (S count) t c
  = decrypt_loop count (uint8 ((t + 15) mod 16)) (bitXor c (concat t)).
Proof. reflexivity. Qed.

Lemma zero_range : 0 <= 0 < 2 ^ 32.
Proof. split; [apply Z.le_refl | reflexivity]. Qed.

(** The rounds of [encrypt] come to one exclusive or with a mask that
    depends on the key alone. *)
Lemma encrypt_loop_xor (count : nat) :
  forall t c : Z,
    0 <= t < 16 -> 0 <= c < 2 ^ 32 ->
    encrypt_loop count t c = Z.lxor c (encrypt_loop count t 0)
    /\ 0 <= encrypt_loop count t c < 2 ^ 32.
Proof.
  induction count as [|count IH]; intros t c Ht Hc.
  - cbn [encrypt_loop]. rewrite Z.lxor_0_r. split; [reflexivity | exact Hc].
  - rewrite !encrypt_loop_S.
    pose proof (concat_range t Ht) as Hm.
    pose proof (next_up_range t) as Ht'.
    destruct (IH _ (bitXor c (concat t)) Ht' (bitXor_range _ _)) as [E1 R1].
    destruct (IH _ (bitXor 0 (concat t)) Ht' (bitXor_range _ _)) as [E2 _].
    split; [|exact R1].
    rewrite E1, E2, (bitXor_lxor c _ Hc Hm), (bitXor_lxor 0 _ zero_range Hm).
    rewrite Z.lxor_0_l, Z.lxor_assoc. reflexivity.
Qed.

Lemma decrypt_loop_xor (count : nat) :
  forall t c : Z,
    0 <= t < 16 -> 0 <= c < 2 ^ 32 ->
    decrypt_loop count t c = Z.lxor c (decrypt_loop count t 0)
    /\ 0 <= decrypt_loop count t c < 2 ^ 32.
Proof.
  induction count as [|count IH]; intros t c Ht Hc.
  - cbn [decrypt_loop]. rewrite Z.lxor_0_r. split; [reflexivity | exact Hc].
  - rewrite !decrypt_loop_S.
    pose proof (concat_range t Ht) as Hm.
    pose proof (next_down_range t) as Ht'.
    destruct (IH _ (bitXor c (concat t)) Ht' (bitXor_range _ _)) as [E1 R1].
    destruct (IH _ (bitXor 0 (concat t)) Ht' (bitXor_range _ _)) as [E2 _].
    split; [|exact R1].
    rewrite E1, E2, (bitXor_lxor c _ Hc Hm), (bitXor_lxor 0 _ zero_range Hm).
    rewrite Z.lxor_0_l, Z.lxor_assoc. reflexivity.
Qed.

(** The [n] rounds up from [t] and the [32 - n] rounds down from below
    [t] run through every hex digit twice. *)
Lemma masks_cancel_all :
  forallb (fun t =>
     forallb (fun n =>
        Z.lxor (encrypt_loop n t 0)
          (decrypt_loop (32 - n) (uint8 ((t + 15) mod 16)) 0) =? 0)
       (seq 0 33))
    [0; 1; 2; 3; 4; 5; 6; 7; 8; 9; 10; 11; 12; 13; 14; 15] = true.
Proof. vm_compute. reflexivity. Qed.

Lemma masks_cancel (t : Z) (n : nat) :
  0 <= t < 16 -> (n <= 32)%nat ->
  Z.lxor (encrypt_loop n t 0)
    (decrypt_loop (32 - n) (uint8 ((t + 15) mod 16)) 0) = 0.
Proof.
  intros Ht Hn. pose proof masks_cancel_all as H.
  rewrite forallb_forall in H. specialize (H t).
  assert (Hin : In t [0; 1; 2; 3; 4; 5; 6; 7; 8; 9; 10; 11; 12; 13; 14; 15])
    by (cbn [In]; lia).
  specialize (H Hin). rewrite forallb_forall in H.
  apply Z.eqb_eq, H, in_seq. lia.
Qed.

Lemma findt_range (key : Z) : 0 <= findt key < 16.
Proof.
  unfold findt. cbn [findt_loop].
  change (0 + 1) with 1. change (1 + 1) with 2. change (2 + 1) with 3.
  rewrite !findti_nibble_bit by lia.
  generalize (fold_right Z.lxor 0 (word_nibbles key)). intros m.
  destruct (Z.testbit m 0), (Z.testbit m 1), (Z.testbit m 2), (Z.testbit m 3);
    vm_compute; split; first [discriminate | reflexivity].
Qed.

(** [encrypt] and [decrypt] are the exclusive or with one and the same
    mask, [encrypt(0, key)]. *)
Lemma cipher_masks (x key : Z) :
  0 <= x < 2 ^ 32 ->
  encrypt x key = Z.lxor x (encrypt 0 key)
  /\ decrypt x key = Z.lxor x (encrypt 0 key)
  /\ 0 <= encrypt x key < 2 ^ 32
  /\ 0 <= decrypt x key < 2 ^ 32.
Proof.
  intros Hx.
  pose proof (findt_range key) as Ht.
  pose proof (count1_range key) as Hn.
  pose proof (next_down_range (findt key)) as Htd.
  unfold decrypt, encrypt.
  set (t := findt key) in *.
  set (n := uint8 (count1 key)) in *.
  set (td := uint8 ((t + 15) mod 16)) in *.
  replace (Z.to_nat (32 - n)) with (32 - Z.to_nat n)%nat by lia.
  pose proof (masks_cancel t (Z.to_nat n) Ht ltac:(lia)) as Hcancel.
  fold td in Hcancel.
  destruct (encrypt_loop_xor (Z.to_nat n) t x Ht Hx) as [Ee Re].
  destruct (decrypt_loop_xor (32 - Z.to_nat n) td x Htd Hx) as [Ed Rd].
  assert (Hsame : decrypt_loop (32 - Z.to_nat n) td 0
                  = encrypt_loop (Z.to_nat n) t 0).
  { apply Z.lxor_eq. rewrite Z.lxor_comm. exact Hcancel. }
  split; [exact Ee|]. split; [rewrite Ed, Hsame; reflexivity|].
  split; assumption.
Qed.

(** [decrypt] undoes [encrypt], and [encrypt] undoes [decrypt], under
    every key: each is the exclusive or with a mask made from the key,
    and the two masks are the same. *)
Theorem cipher_round_trip (x key : Z) :
  0 <= x < 2 ^ 32 ->
  decrypt (encrypt x key) key = x
  /\ encrypt (decrypt x key) key = x
  /\ encrypt x key = Z.lxor x (encrypt 0 key)
  /\ decrypt x key = Z.lxor x (encrypt 0 key).
Proof.
  intros Hx.
  destruct (cipher_masks x key Hx) as (Ee & Ed & Re & Rd).
  destruct (cipher_masks (encrypt x key) key Re) as (_ & Ede & _).
  destruct (cipher_masks (decrypt x key) key Rd) as (Eed & _).
  split; [|split; [|split]].
  - rewrite Ede, Ee, Z.lxor_assoc, Z.lxor_nilpotent, Z.lxor_0_r. reflexivity.
  - rewrite Eed, Ed, Z.lxor_assoc, Z.lxor_nilpotent, Z.lxor_0_r. reflexivity.
  - exact Ee.
  - exact Ed.
Qed.

Lemma cipher_round_trip_witness :
  decrypt (encrypt 305419896 rail_key) rail_key = 305419896
  /\ encrypt (decrypt 305419896 rail_key) rail_key = 305419896
  /\ encrypt 305419896 rail_key = Z.lxor 305419896 (encrypt 0 rail_key)
  /\ decrypt 305419896 rail_key = Z.lxor 305419896 (encrypt 0 rail_key).
Proof. apply (cipher_round_trip 305419896 rail_key). lia. Defined.

(* ===================================================================== *)
(** ** The rail link: [send_to_fpga] and [receive_from_fpga] *)
(* ===================================================================== *)

Section RailLinkRuns.

Context {T : Type} {transport : Transport T}.











Lemma encrypt_range (x key : Z) :
  0 <= x < 2 ^ 32 -> 0 <= encrypt x key < 2 ^ 32.
Proof.
  intros Hx. unfold encrypt.
  apply (encrypt_loop_xor _ _ _ (findt_range key) Hx).
Qed.


Lemma split_bytes_word (y : Z) : split_bytes 4 y = rev (word_bytes y).
Proof.
  cbn [split_bytes]. unfold word_bytes, uint8. cbn [rev app].
  change (2 ^ 8) with 256. rewrite !Z.mod_mod by lia.
  rewrite !Z.div_div by lia. reflexivity.
Qed.



End RailLinkRuns.


(* ===================================================================== *)
(** ** The rail link against a device that echoes *)
(* ===================================================================== *)

Lemma land_shifted_byte (d b : Z) :
  0 <= b < 256 -> Z.land (d * 2 ^ 8) b = 0.
Proof.
  intros Hb. apply Z.bits_inj'. intros i Hi.
  rewrite Z.land_spec, Z.bits_0.
  destruct (Z.lt_ge_cases i 8) as [Hlow | Hhigh].
  - rewrite Z.mul_pow2_bits_low by lia. reflexivity.
  - rewrite <- (Z.mod_small b (2 ^ 8)) by (change (2 ^ 8) with 256; lia).
    rewrite Z.mod_pow2_bits_high by lia. apply andb_false_r.
Qed.

Lemma shift_or (d b : Z) :
  0 <= d < 2 ^ 24 -> 0 <= b < 256 ->
  Z.lor (uint32 (Z.shiftl d 8)) b = d * 256 + b.
Proof.
  intros Hd Hb. rewrite Z.shiftl_mul_pow2 by lia.
  unfold uint32. rewrite Z.mod_small by lia.
  rewrite <- Z.lxor_lor, <- Z.add_nocarry_lxor
    by (apply land_shifted_byte; exact Hb).
  reflexivity.
Qed.

Lemma shift_in_byte (d b : Z) :
  shift_in (Some d) [b] = Some (Z.lor (uint32 (Z.shiftl d 8)) b).
Proof. reflexivity. Qed.

(** What [receive_from_fpga] puts together from the bytes of a word that
    the device hands over, the most significant first, is that word. *)
Lemma shift_in_word (y : Z) :
  0 <= y < 2 ^ 32 ->
  shift_in
    (shift_in
       (shift_in
          (shift_in (Some 0) [(y / 2 ^ 24) mod 256])
          [(y / 2 ^ 16) mod 256])
       [(y / 2 ^ 8) mod 256])
    [y mod 256]
  = Some y.
Proof.
  intros Hy.
  pose proof (Z.mod_pos_bound (y / 2 ^ 24) 256 eq_refl) as H3.
  pose proof (Z.mod_pos_bound (y / 2 ^ 16) 256 eq_refl) as H2.
  pose proof (Z.mod_pos_bound (y / 2 ^ 8) 256 eq_refl) as H1.
  pose proof (Z.mod_pos_bound y 256 eq_refl) as H0.
  rewrite !shift_in_byte.
  set (b3 := (y / 2 ^ 24) mod 256) in *.
  set (b2 := (y / 2 ^ 16) mod 256) in *.
  set (b1 := (y / 2 ^ 8) mod 256) in *.
  set (b0 := y mod 256) in *.
  rewrite (shift_or 0 b3) by lia.
  rewrite (shift_or (0 * 256 + b3) b2) by lia.
  rewrite (shift_or ((0 * 256 + b3) * 256 + b2) b1) by lia.
  rewrite (shift_or (((0 * 256 + b3) * 256 + b2) * 256 + b1) b0) by lia.
  f_equal. subst b3 b2 b1 b0. change (2 ^ 24) with 16777216 in *. change (2 ^ 16) with 65536 in *.
  change (2 ^ 8) with 256 in *. change (2 ^ 32) with 4294967296 in *.
  Z.div_mod_to_equations. lia.
Qed.

(** A word sent with [send_to_fpga] to a device that hands back what was
    written comes back from [receive_from_fpga] as it was: the bytes
    leave and arrive in the same order, and the cipher is undone. *)
Theorem echo_round_trip (chan send_data : Z) :
  0 <= send_data < 2 ^ 32 ->
  exists w',
    (send_to_fpga chan send_data ;;; receive_from_fpga chan) Echo.world
    = Done (Some send_data) w'
    /\ handle w' = ([], [])
    /\ log w' = send_schedule (uint8 (2 * chan + 1)) (encrypt send_data rail_key)
                ++ receive_schedule (uint8 (2 * chan)).
Proof.
  intros Hx.
  pose proof (encrypt_range send_data rail_key Hx) as Hy.
  assert (Hback : decrypt (encrypt send_data rail_key) rail_key = send_data).
  { destruct (cipher_masks send_data rail_key Hx) as (Ee & _).
    destruct (cipher_masks _ rail_key Hy) as (_ & Ede & _).
    rewrite Ede, Ee, Z.lxor_assoc, Z.lxor_nilpotent, Z.lxor_0_r. reflexivity. }
  unfold send_to_fpga, receive_from_fpga, send_schedule, receive_schedule.
  rewrite split_bytes_word.
  set (y := encrypt send_data rail_key) in *. unfold word_bytes.
  cbn [rev app map].
  pose proof (shift_in_word y Hy) as Hword.
  set (b3 := (y / 2 ^ 24) mod 256) in *.
  set (b2 := (y / 2 ^ 16) mod 256) in *.
  set (b1 := (y / 2 ^ 8) mod 256) in *.
  set (b0 := y mod 256) in *.
  set (chan1 := uint8 (2 * chan + 1)).
  set (chan0 := uint8 (2 * chan)).
  clearbody b3 b2 b1 b0 chan1 chan0.
  eexists. split; [|split].
  - cbv -[shift_in decrypt rail_key y].
    rewrite Hword. cbv iota beta. rewrite Hback. reflexivity.
  - reflexivity.
  - reflexivity.
Qed.

Lemma echo_round_trip_witness :
  exists w',
    (send_to_fpga 3 305419896 ;;; receive_from_fpga 3) Echo.world
    = Done (Some 305419896) w'
    /\ handle w' = ([], [])
    /\ log w' = send_schedule (uint8 (2 * 3 + 1)) (encrypt 305419896 rail_key)
                ++ receive_schedule (uint8 (2 * 3)).
Proof. apply (echo_round_trip 3 305419896). lia. Defined.

(* ===================================================================== *)
(** ** [doWrite] on any transport: the source goes out in order *)
(* ===================================================================== *)

Lemma sent_app (a b : list Event) : sent (a ++ b) = sent a ++ sent b.
Proof. unfold sent. apply flat_map_app. Qed.

Lemma take_nil_inv (n : Z) (l : list Z) :
  0 < n -> zlength (take n l) = 0 -> l = [].
Proof.
  intros Hn H. apply zlength_nil_inv in H. unfold take in H.
  destruct l as [|x l]; [reflexivity|].
  destruct (Z.to_nat n) eqn:E; [lia | discriminate H].
Qed.

Section WriteOrder.

Context {T : Type} {transport : Transport T}.
Variable chan : Z.

Local Opaque WRITE_MAX.

Lemma doWrite_loop_in_order (fuel : nat) :
  forall (data : list Z) (lenVal csVal : Z) (w : World T),
    zlength data < Z.of_nat fuel * WRITE_MAX ->
    sends_in_order (doWrite_loop fuel chan (RStream data) lenVal csVal w)
      w lenVal csVal data.
Proof.
  pose proof WRITE_MAX_pos as Hpos.
  induction fuel as [|fuel IH]; intros data lenVal csVal w Hsize.
  - pose proof (zlength_nonneg data). lia.
  - pose proof (zlength_nonneg data) as Hnn.
    cbn [doWrite_loop]. unfold bind at 1. unfold io at 1. cbn [fread].
    destruct (zlength (take WRITE_MAX data) =? 0) eqn:Hzero.
    + apply Z.eqb_eq in Hzero.
      pose proof (take_nil_inv WRITE_MAX data Hpos Hzero) as ->.
      unfold bind, ret. change (zlength (take WRITE_MAX (@nil Z))) with 0.
      assert (H0 : (0 =? WRITE_MAX) = false) by (apply Z.eqb_neq; lia).
      rewrite H0. cbn [sends_in_order].
      change (drop WRITE_MAX (@nil Z)) with (@nil Z).
      change (zlength (@nil Z)) with 0.
      cbn [log emit]. rewrite sent_app, !app_nil_r, Z.add_0_r.
      repeat split; reflexivity.
    + unfold bind at 1. unfold bind at 1. unfold io.
      unfold call_flWriteChannelAsync.
      set (w0 := emit (EvFread WRITE_MAX (zlength (take WRITE_MAX data))) w).
      destruct (flWriteChannelAsync chan (take WRITE_MAX data) (handle w0))
        as [[] h]; unfold CHECK_STATUS, FAIL, bind, ret; cbn [fl_failed].
      * set (w1 := emit (EvWriteAsync chan (take WRITE_MAX data))
                     (with_handle h w0)).
        assert (Hsent : sent (log w1) = sent (log w) ++ take WRITE_MAX data).
        { unfold w1, w0. cbn [log emit with_handle]. rewrite !sent_app.
          cbn [sent flat_map]. rewrite !app_nil_r. reflexivity. }
        destruct (zlength (take WRITE_MAX data) =? WRITE_MAX) eqn:Hfull.
        -- apply Z.eqb_eq in Hfull.
           assert (Hge : WRITE_MAX <= zlength data).
           { destruct (Z.le_gt_cases WRITE_MAX (zlength data)) as [H | H];
               [exact H|]. rewrite take_all in Hfull by lia. lia. }
           specialize (IH (drop WRITE_MAX data) (lenVal + WRITE_MAX)
                         (cksum_chunk csVal (take WRITE_MAX data)) w1).
           rewrite Hfull.
           rewrite zlength_drop in IH by lia. specialize (IH ltac:(lia)).
           destruct (doWrite_loop fuel chan (RStream (drop WRITE_MAX data))
                       (lenVal + WRITE_MAX)
                       (cksum_chunk csVal (take WRITE_MAX data)) w1)
             as [[[f l] c] w' | rc w' |]; cbn [sends_in_order] in *.
           ++ destruct IH as (Hf & Hl & Hc & Hs). repeat split.
              ** exact Hf.
              ** rewrite zlength_drop in Hl by lia. lia.
              ** rewrite Hc, <- cksum_chunk_app, take_drop. reflexivity.
              ** rewrite Hs, Hsent, <- app_assoc, take_drop. reflexivity.
           ++ destruct IH as (Hrc & p & Hp & Hs). split; [exact Hrc|].
              exists (take WRITE_MAX data ++ p). split.
              ** rewrite <- (take_drop WRITE_MAX data) at 2.
                 apply prefix_of_app_r, Hp.
              ** rewrite Hs, Hsent, <- app_assoc. reflexivity.
           ++ exact IH.
        -- apply Z.eqb_neq in Hfull.
           assert (Hlt : zlength data < WRITE_MAX).
           { destruct (Z.le_gt_cases WRITE_MAX (zlength data)) as [H | H];
               [|lia]. rewrite zlength_take in Hfull by lia. lia. }
           cbn [sends_in_order]. fold w0 w1.
           rewrite take_all in * by lia. rewrite drop_all by lia.
           repeat split; try reflexivity. exact Hsent.
      * split; [reflexivity|]. exists (take WRITE_MAX data). split.
        -- exists (drop WRITE_MAX data). symmetry. apply take_drop.
        -- cbn [log emit with_handle]. unfold w0. cbn [log emit].
           rewrite !sent_app. cbn [sent flat_map]. rewrite !app_nil_r.
           reflexivity.
Qed.

(** On every transport [doWrite] hands the source to
    [flWriteChannelAsync] in order and without gaps.  If it succeeds, all
    of the source has gone, the stream is at its end, and the length and
    the checksum stored are those of the whole source; if it fails, it
    does so with [FLP_LIBERR], after an initial part of the source. *)
Theorem doWrite_in_order (data : list Z) (w : World T) :
  match doWrite chan (RStream data) w with
  | Done (f, lenVal, csVal) w' =>
      f = RStream [] /\ lenVal = zlength data /\ csVal = calcChecksum data
      /\ sent (log w') = sent (log w) ++ data
  | Fail rc w' =>
      rc = FLP_LIBERR
      /\ exists p, prefix_of p data /\ sent (log w') = sent (log w) ++ p
  | Fuel => False
  end.
Proof.
  pose proof WRITE_MAX_pos as Hpos.
  pose proof (zlength_nonneg data) as Hnn.
  unfold doWrite. cbn [stream_size]. unfold bind at 1.
  pose proof (doWrite_loop_in_order (write_fuel (zlength data)) data 0 0 w)
    as Hloop.
  assert (Hfuel : zlength data < Z.of_nat (write_fuel (zlength data)) * WRITE_MAX).
  { unfold write_fuel.
    pose proof (Z.mul_succ_div_gt (zlength data) WRITE_MAX Hpos).
    assert (0 <= zlength data / WRITE_MAX) by (apply Z.div_pos; lia).
    lia. }
  specialize (Hloop Hfuel).
  destruct (doWrite_loop (write_fuel (zlength data)) chan (RStream data) 0 0 w)
    as [[[f l] c] w1 | rc w1 |]; cbn [sends_in_order] in Hloop.
  - destruct Hloop as (Hf & Hl & Hc & Hs).
    unfold bind, io, call_flAwaitAsyncWrites.
    destruct (flAwaitAsyncWrites (handle w1)) as [[] h];
      unfold CHECK_STATUS, FAIL, ret; cbn [fl_failed].
    + repeat split; try assumption.
      cbn [log emit with_handle]. rewrite sent_app, Hs.
      cbn [sent flat_map]. rewrite app_nil_r. reflexivity.
    + split; [reflexivity|]. exists data. split; [apply prefix_of_refl|].
      cbn [log emit with_handle]. rewrite sent_app, Hs.
      cbn [sent flat_map]. rewrite app_nil_r. reflexivity.
  - exact Hloop.
  - exact Hloop.
Qed.

End WriteOrder.

(* ===================================================================== *)
(** ** [doRead] on any transport: the checksum is that of the file *)
(* ===================================================================== *)



Section ReadSum.

Context {T : Type} {transport : Transport T}.
Variables (chan : Z) (name : string).





Lemma sums_file_same_fs (csVal : Z) (r : result (World T) Z) (w w1 : World T) :
  fs w1 = fs w -> sums_file name csVal r w1 -> sums_file name csVal r w.
Proof.
  intros Hfs. unfold sums_file, file_of. rewrite Hfs. exact (fun H => H).
Qed.



End ReadSum.


(* ===================================================================== *)
(** ** The readback of the ports *)
(* ===================================================================== *)

Lemma nibbles_at_upper (n : Z) :
  0 <= n < 16 -> nibbles_at (upper_hex n) = Some (binary4 n).
Proof. intros Hn. nibble_cases n; reflexivity. Qed.

(** The readback prints a 32-bit port state as eight groups of four
    binary digits, the most significant group first: of the table
    [nibbles] only the entries of the digits and of the capital letters
    are used, never an [XXXX] entry or an index outside it.  A small hex
    letter, which [%X] does not produce, has its index outside the
    table. *)
Theorem readback_binary (readState : Z) :
  0 <= readState < 2 ^ 32 ->
  readback readState
  = map (fun j => Some (binary4 ((readState / 16 ^ j) mod 16)))
      [7; 6; 5; 4; 3; 2; 1; 0]
  /\ forall c : ascii, char_between "a" "f" c = true -> nibbles_at c = None.
Proof.
  intros _. split.
  - unfold readback, sprintf_08X. rewrite map_map. apply map_ext. intros j.
    apply nibbles_at_upper. apply Z.mod_pos_bound. reflexivity.
  - intros c. destruct c as [[] [] [] [] [] [] [] []]; vm_compute;
      first [reflexivity | discriminate].
Qed.

Lemma readback_binary_witness :
  readback 305419896
  = map (fun j => Some (binary4 ((305419896 / 16 ^ j) mod 16)))
      [7; 6; 5; 4; 3; 2; 1; 0]
  /\ forall c : ascii, char_between "a" "f" c = true -> nibbles_at c = None.
Proof. apply (readback_binary 305419896). lia. Defined.
